(** * Association-rule mining: the handlers, embedded and verified

    The development follows [server/src/handlers/mining.ts] (the reading of
    the transactions, the two miners, the candidate join, the rule
    generator, the timed runs, the comparison and the reading of the stored
    results), the zod schema of the mining parameters, the tRPC router that
    guards the mining procedures, the CSV parser of
    [server/src/handlers/excel_import.ts], and the handlers of the items
    and of the transactions ([server/src/handlers/items.ts],
    [server/src/handlers/transactions.ts]) over the tables of
    [server/src/db/schema.ts].

    Conventions of the embedding.
    - Item identifiers are JavaScript strings; they are [string]s here, and
      the default [Array.prototype.sort] order (code units, left to right) is
      [String.leb].  Where the white space of a text matters, its code units
      are taken to be below 256.
    - A [Map] iterates in insertion order: it is an association list whose
      [set] overwrites in place or appends.
    - A JavaScript [number] is an exact rational or one of the three special
      values; rounding of IEEE doubles is abstracted, division by zero and
      NaN are not.  Counts, lengths and clock readings are integers ([Z]).
      The theorems that settle a property state of a quotient an order
      ([>=], [<=], equal to 0 or to 1), which rounding keeps, or the
      quotient the code itself forms; lemmas of exact arithmetic serve
      their proofs.  [Binary64] has the three quotients of the rule
      generator as the program rounds them and shows where they leave the
      exact ones.
    - [x.sort()] sorts in place and returns the same array.  Where the
      sorted array is shared with a record that is returned later, the
      function of the embedding returns the arrays after the call as well.
    - The store is the state that the handlers pass on: explicit state
      passing, with the outcome of a call (returned, threw, did not end)
      made explicit.  A select gives the rows in the order of the store.
      A store that is up answers every call of a run.  An [integer] or
      [serial] column takes 32 bits: an insert of the mining results or of
      the lines of a transaction with another number throws. *)

From Stdlib Require Import List Bool Arith ZArith NArith QArith Qround Qreduction.
From Stdlib Require Import Ascii String Lia Permutation Sorted OrderedTypeEx.
From Stdlib Require SpecFloat.
Import ListNotations.

Local Open Scope string_scope.
Local Open Scope list_scope.
Local Open Scope nat_scope.

(* ================================================================= *)
(** ** Numbers *)

Module Num.

Inductive number : Type :=
| Fin (q : Q)
| PosInf
| NegInf
| NaN.

Definition of_Z (z : Z) : number := Fin (inject_Z z).

Definition sgn (q : Q) : comparison := (q ?= 0)%Q.

Definition inf_of (c : comparison) : number :=
  match c with Gt => PosInf | Lt => NegInf | Eq => NaN end.

Definition flip (c : comparison) : comparison := CompOpp c.

(** [a * b] *)
Definition mul (a b : number) : number :=
  match a, b with
  | NaN, _ | _, NaN => NaN
  | Fin x, Fin y => Fin (Qred (x * y))
  | Fin x, PosInf | PosInf, Fin x => inf_of (sgn x)
  | Fin x, NegInf | NegInf, Fin x => inf_of (flip (sgn x))
  | PosInf, PosInf | NegInf, NegInf => PosInf
  | PosInf, NegInf | NegInf, PosInf => NegInf
  end.

(** [a / b]; a zero divisor is the positive zero, the only zero that a
    count divided by a length can be. *)
Definition div (a b : number) : number :=
  match a, b with
  | NaN, _ | _, NaN => NaN
  | Fin x, Fin y =>
      if Qeq_bool y 0 then inf_of (sgn x) else Fin (Qred (x / y))
  | Fin _, PosInf | Fin _, NegInf => Fin 0
  | PosInf, Fin y => if Qle_bool 0 y then PosInf else NegInf
  | NegInf, Fin y => if Qle_bool 0 y then NegInf else PosInf
  | PosInf, PosInf | PosInf, NegInf | NegInf, PosInf | NegInf, NegInf => NaN
  end.

(** [Math.ceil] *)
Definition ceil (a : number) : number :=
  match a with
  | Fin x => Fin (inject_Z (Qceiling x))
  | other => other
  end.

(** [a >= b]; every comparison with NaN is false. *)
Definition geb (a b : number) : bool :=
  match a, b with
  | NaN, _ | _, NaN => false
  | Fin x, Fin y => Qle_bool y x
  | PosInf, _ => true
  | _, NegInf => true
  | Fin _, PosInf | NegInf, Fin _ | NegInf, PosInf => false
  end.

Definition is_finite (a : number) : bool :=
  match a with Fin _ => true | _ => false end.

Definition is_nan (a : number) : bool :=
  match a with NaN => true | _ => false end.

End Num.

Import Num.

(* ================================================================= *)
(** ** Arrays of strings: sort, join, split, includes *)

(** [Array.prototype.sort] without a comparator, on strings.  The order is
    total and antisymmetric, so the result depends on the members alone. *)
Fixpoint insert_sorted (x : string) (l : list string) : list string :=
  match l with
  | [] => [x]
  | y :: l' => if String.leb x y then x :: l else y :: insert_sorted x l'
  end.

Fixpoint sort (l : list string) : list string :=
  match l with
  | [] => []
  | x :: l' => insert_sorted x (sort l')
  end.

(** [Array.prototype.join(',')] *)
Definition join (l : list string) : string := String.concat "," l.

(** [String.prototype.split(',')]: always at least one piece. *)
Fixpoint split (s : string) : list string :=
  match s with
  | EmptyString => [EmptyString]
  | String c s' =>
      if Ascii.eqb c ","%char then EmptyString :: split s'
      else match split s' with
           | [] => [String c EmptyString]
           | p :: ps => String c p :: ps
           end
  end.

(** [Array.prototype.includes] *)
Definition includes (t : list string) (item : string) : bool :=
  existsb (String.eqb item) t.

(** [items.every(item => transaction.includes(item))] *)
Definition contains_all (transaction items : list string) : bool :=
  forallb (includes transaction) items.

(** The number of baskets that contain every member of [items]. *)
Definition basket_count (transactions : list (list string))
                        (items : list string) : Z :=
  Z.of_nat (List.length (filter (fun t => contains_all t items) transactions)).

(* ================================================================= *)
(** ** Insertion-ordered maps *)

Section InsertionOrderedMap.
Context {V : Type}.

Definition Map := list (string * V).

Fixpoint map_get (m : Map) (k : string) : option V :=
  match m with
  | [] => None
  | (k', v) :: m' => if String.eqb k k' then Some v else map_get m' k
  end.

Fixpoint map_set (m : Map) (k : string) (v : V) : Map :=
  match m with
  | [] => [(k, v)]
  | (k', v') :: m' =>
      if String.eqb k k' then (k', v) :: m' else (k', v') :: map_set m' k v
  end.
End InsertionOrderedMap.

Arguments Map : clear implicits.

(** [map.set(key, (map.get(key) || 0) + 1)] *)
Definition bump (m : Map Z) (key : string) : Map Z :=
  map_set m key (match map_get m key with Some c => c | None => 0 end + 1)%Z.

(* ================================================================= *)
(** ** The data model of [schema.ts] *)

Record FrequentItemset : Type := mkFrequentItemset {
  itemset : list string;
  support : number;
  count : Z
}.

Module Rule.
Record AssociationRule : Type := mkAssociationRule {
  antecedent : list string;
  consequent : list string;
  support : number;
  confidence : number;
  lift : number
}.
End Rule.

Import Rule (AssociationRule, mkAssociationRule).

(* ================================================================= *)
(** ** [aprioriAlgorithm] and [generateCandidates] *)

(** The first loop of both miners: one [bump] for every member of every
    transaction. *)
Definition count_items (transactions : list (list string)) : Map Z :=
  fold_left (fun m transaction => fold_left bump transaction m) transactions [].

(** [Math.ceil(minSupport * totalTransactions)] *)
Definition minSupportCount (minSupport : number) (totalTransactions : Z) : number :=
  ceil (mul minSupport (of_Z totalTransactions)).

(** The entries of a count map that reach the threshold, as records; [mk]
    builds the member list from the key. *)
Definition frequent_entries (mk : string -> list string)
    (msc : number) (totalTransactions : Z) (counts : Map Z)
  : list FrequentItemset :=
  flat_map (fun '(key, c) =>
              if geb (of_Z c) msc
              then [mkFrequentItemset (mk key)
                      (div (of_Z c) (of_Z totalTransactions)) c]
              else [])
           counts.

Definition option_string_eqb (a b : option string) : bool :=
  match a, b with
  | Some x, Some y => String.eqb x y
  | None, None => true
  | _, _ => false
  end.

(** The inner loop [for (l = 0; l < k - 2; l++)]: an index past the end
    reads [undefined] on both sides. *)
Definition canCombine (k : nat) (itemset1 itemset2 : list string) : bool :=
  forallb (fun l => option_string_eqb (nth_error itemset1 l) (nth_error itemset2 l))
          (seq 0 (k - 2)).

Definition last_member (l : list string) : option string :=
  nth_error l (List.length l - 1).

(** One visit of the pair (i, j), both arrays already sorted.  An empty
    [itemset2] would append [undefined], which no transaction includes; no
    caller passes an empty member list and the candidate is left out. *)
Definition combine_pair (k : nat) (itemset1 itemset2 : list string)
  : list (list string) :=
  if canCombine k itemset1 itemset2
  then match last_member itemset2 with
       | Some x => [sort (itemset1 ++ [x])]
       | None => []
       end
  else [].

(** The two nested loops over i < j. *)
Fixpoint combine_all (k : nat) (sets : list (list string)) : list (list string) :=
  match sets with
  | [] => []
  | itemset1 :: rest =>
      flat_map (combine_pair k itemset1) rest ++ combine_all k rest
  end.

(** [generateCandidates]: the candidates, and the argument arrays after the
    call.  Every array of a list of two or more is sorted in place on its
    first visit, before it is read; a shorter list is never visited. *)
Definition generateCandidates (frequentItemsets : list (list string)) (k : nat)
  : list (list string) * list (list string) :=
  let arrays :=
    if 2 <=? List.length frequentItemsets
    then map sort frequentItemsets else frequentItemsets in
  (combine_all k arrays, arrays).

(** The counting loop of one level: transactions outside, candidates inside;
    the key is [candidate.sort().join(',')]. *)
Definition count_candidates (transactions candidateItemsets : list (list string))
  : Map Z :=
  fold_left
    (fun m transaction =>
       fold_left
         (fun m candidate =>
            if contains_all transaction candidate
            then bump m (join (sort candidate)) else m)
         candidateItemsets m)
    transactions [].

(** The member arrays of the records are the arrays handed to
    [generateCandidates]: what it sorted is sorted in the records. *)
Fixpoint write_back (fs : list FrequentItemset) (arrays : list (list string))
  : list FrequentItemset :=
  match fs, arrays with
  | f :: fs', a :: arrays' =>
      mkFrequentItemset a (support f) (count f) :: write_back fs' arrays'
  | _, _ => fs
  end.

(** One turn of the [while] body: the records of level [k] as they are
    returned in the end, and the candidates of level [k + 1]. *)
Definition level (transactions : list (list string)) (msc : number)
    (totalTransactions : Z) (k : nat) (candidateItemsets : list (list string))
  : list FrequentItemset * list (list string) :=
  let candidateCounts := count_candidates transactions candidateItemsets in
  let kFrequentItemsets :=
    frequent_entries split msc totalTransactions candidateCounts in
  let '(next, arrays) :=
    generateCandidates (map itemset kFrequentItemsets) (k + 1) in
  (write_back kFrequentItemsets arrays, next).

(** [while (candidateItemsets.length > 0 && k <= 3)]; [None] when the fuel
    ends before the loop does. *)
Fixpoint apriori_loop (fuel : nat) (transactions : list (list string))
    (msc : number) (totalTransactions : Z) (k : nat)
    (candidateItemsets : list (list string))
    (frequentItemsets : list FrequentItemset)
  : option (list FrequentItemset) :=
  if (0 <? List.length candidateItemsets) && (k <=? 3) then
    match fuel with
    | O => None
    | S fuel' =>
        let '(kFrequentItemsets, next) :=
          level transactions msc totalTransactions k candidateItemsets in
        apriori_loop fuel' transactions msc totalTransactions (k + 1) next
                     (frequentItemsets ++ kFrequentItemsets)
    end
  else Some frequentItemsets.

Definition apriori_fuel (transactions : list (list string)) (minSupport : number)
    (fuel : nat) : option (list FrequentItemset) :=
  let totalTransactions := Z.of_nat (List.length transactions) in
  let msc := minSupportCount minSupport totalTransactions in
  let itemCounts := count_items transactions in
  let frequentItemsets :=
    frequent_entries (fun item => [item]) msc totalTransactions itemCounts in
  (* the arrays of the singletons are sorted in place too: nothing moves *)
  let '(candidateItemsets, arrays) :=
    generateCandidates (map itemset frequentItemsets) 2 in
  apriori_loop fuel transactions msc totalTransactions 2 candidateItemsets
               (write_back frequentItemsets arrays).

(** The loop body runs for k = 2 and k = 3 at most. *)
Definition aprioriAlgorithm (transactions : list (list string))
    (minSupport : number) : option (list FrequentItemset) :=
  apriori_fuel transactions minSupport 2.

(* ================================================================= *)
(** ** [fpGrowthAlgorithm] *)

(** [entries.sort((a, b) => b[1] - a[1])]: descending by count, stable. *)
Fixpoint insert_by_count (e : string * Z) (l : list (string * Z))
  : list (string * Z) :=
  match l with
  | [] => [e]
  | e' :: l' =>
      if (snd e' - snd e <=? 0)%Z then e :: l else e' :: insert_by_count e l'
  end.

Fixpoint sort_by_count (l : list (string * Z)) : list (string * Z) :=
  match l with
  | [] => []
  | e :: l' => insert_by_count e (sort_by_count l')
  end.

Definition sortedItems (transactions : list (list string)) (msc : number)
  : list (string * Z) :=
  filter (fun '(_, c) => geb (of_Z c) msc)
         (sort_by_count (count_items transactions)).

(** The body of the loop over j for one i. *)
Definition pair_entry (transactions : list (list string)) (msc : number)
    (totalTransactions : Z) (a b : string) : list FrequentItemset :=
  let items := [a; b] in
  let c := basket_count transactions items in
  if geb (of_Z c) msc
  then [mkFrequentItemset (sort items) (div (of_Z c) (of_Z totalTransactions)) c]
  else [].

Fixpoint pair_entries (transactions : list (list string)) (msc : number)
    (totalTransactions : Z) (frequentItems : list string)
  : list FrequentItemset :=
  match frequentItems with
  | [] => []
  | a :: rest =>
      flat_map (pair_entry transactions msc totalTransactions a) rest
      ++ pair_entries transactions msc totalTransactions rest
  end.

Definition fpGrowthAlgorithm (transactions : list (list string))
    (minSupport : number) : list FrequentItemset :=
  let totalTransactions := Z.of_nat (List.length transactions) in
  let msc := minSupportCount minSupport totalTransactions in
  let sorted := sortedItems transactions msc in
  let singles :=
    map (fun '(item, c) =>
           mkFrequentItemset [item] (div (of_Z c) (of_Z totalTransactions)) c)
        sorted in
  let frequentItems := map fst sorted in
  singles ++ pair_entries transactions msc totalTransactions frequentItems.

(* ================================================================= *)
(** ** [generateAssociationRules] *)

(** [(i >> j) & 1]: the shift works on the low 32 bits of [i] and takes its
    count modulo 32. *)
Definition mask_bit (i : N) (j : nat) : bool :=
  N.testbit i (N.of_nat (j mod 32)).

(** The loop over j: members at a set bit go to the antecedent, the others
    to the consequent, both in the order of the member list. *)
Fixpoint split_by_mask (i : N) (j : nat) (items : list string)
  : list string * list string :=
  match items with
  | [] => ([], [])
  | x :: rest =>
      let '(a, c) := split_by_mask i (S j) rest in
      if mask_bit i j then (x :: a, c) else (a, x :: c)
  end.

(** [for (i = 1; i < Math.pow(2, n) - 1; i++)].  The counter is exact; the
    program's counter stops growing at 2^53, so for 54 members or more the
    loop of the program does not end and this list is longer than any run:
    the handlers call the generator through
    [generateAssociationRules_ends]. *)
Definition masks (n : nat) : list N :=
  map N.of_nat (seq 1 (2 ^ n - 2)).

Definition is_empty {A : Type} (l : list A) : bool :=
  match l with [] => true | _ => false end.

(** The body of the loop over i for one itemset. *)
Definition rule_of_mask (transactions : list (list string))
    (minConfidence : number) (totalTransactions : Z)
    (f : FrequentItemset) (i : N) : list AssociationRule :=
  let '(antecedent, consequent) := split_by_mask i 0 (itemset f) in
  if is_empty antecedent || is_empty consequent then []
  else
    let antecedentCount := basket_count transactions antecedent in
    let antecedentSupport := div (of_Z antecedentCount) (of_Z totalTransactions) in
    let confidence := div (support f) antecedentSupport in
    if geb confidence minConfidence then
      let lift := div confidence (div (of_Z (count f)) (of_Z totalTransactions)) in
      [mkAssociationRule (sort antecedent) (sort consequent)
                         (support f) confidence lift]
    else [].

Definition rules_of_itemset (transactions : list (list string))
    (minConfidence : number) (totalTransactions : Z) (f : FrequentItemset)
  : list AssociationRule :=
  flat_map (rule_of_mask transactions minConfidence totalTransactions f)
           (masks (List.length (itemset f))).

Definition generateAssociationRules (frequentItemsets : list FrequentItemset)
    (minConfidence : number) (transactions : list (list string))
  : list AssociationRule :=
  let totalTransactions := Z.of_nat (List.length transactions) in
  let multiItemsets :=
    filter (fun f => 2 <=? List.length (itemset f)) frequentItemsets in
  flat_map (rules_of_itemset transactions minConfidence totalTransactions)
           multiItemsets.

(** The loops over i end.  The counter of the program is a double: it
    stops growing at 2^53, which it has to pass for an itemset of 54
    members or more, and then the call does not return. *)
Definition generateAssociationRules_ends
    (frequentItemsets : list FrequentItemset) : bool :=
  forallb (fun f => List.length (itemset f) <=? 53) frequentItemsets.

(* ================================================================= *)
(** ** The quotients of a rule in binary64 *)

(** The numbers of the program are IEEE 754 doubles: 53 bits of precision,
    exponents below 1024, every quotient rounded to the nearest double
    (ties to even). *)
Module Binary64.

Definition prec : Z := 53.
Definition emax : Z := 1024.

Definition double : Type := SpecFloat.spec_float.

Definition of_Z (z : Z) : double :=
  SpecFloat.binary_normalize prec emax z 0 false.

(** [a / b] *)
Definition div (a b : double) : double := SpecFloat.SFdiv prec emax a b.

(** The confidence and the lift that the body of the loop computes for an
    itemset found in [count] baskets and an antecedent found in
    [antecedentCount] of the [totalTransactions] baskets, when the itemset
    carries count / totalTransactions as its support. *)
Definition confidence_and_lift (count antecedentCount totalTransactions : Z)
  : double * double :=
  let support := div (of_Z count) (of_Z totalTransactions) in
  let antecedentSupport :=
    div (of_Z antecedentCount) (of_Z totalTransactions) in
  let confidence := div support antecedentSupport in
  let lift := div confidence (div (of_Z count) (of_Z totalTransactions)) in
  (confidence, lift).

End Binary64.

(** The same two quotients under any rounding [fl] of the exact quotient:
    the frequencies are rounded, then their quotient, then the quotient
    of the confidence by the itemset's frequency. *)
Definition rounded_confidence (fl : Q -> Q)
    (count antecedentCount totalTransactions : Z) : Q :=
  let support := fl (inject_Z count / inject_Z totalTransactions)%Q in
  let antecedentSupport :=
    fl (inject_Z antecedentCount / inject_Z totalTransactions)%Q in
  fl (support / antecedentSupport)%Q.

Definition rounded_lift (fl : Q -> Q)
    (count antecedentCount totalTransactions : Z) : Q :=
  let confidence :=
    rounded_confidence fl count antecedentCount totalTransactions in
  fl (confidence / fl (inject_Z count / inject_Z totalTransactions))%Q.

(* ================================================================= *)
(** ** The store, the clock and the timed runs *)

Inductive MiningAlgorithm : Type := apriori | fp_growth.

Record MiningParameters : Type := mkMiningParameters {
  min_support : number;
  min_confidence : number;
  algorithm : MiningAlgorithm
}.

Record MiningResult : Type := mkMiningResult {
  id : Z;
  result_algorithm : MiningAlgorithm;
  parameters : number * number;
  frequent_itemsets : list FrequentItemset;
  association_rules : list AssociationRule;
  execution_time_ms : Z;
  created_by : Z;
  created_at : Z
}.

Record ComparisonMetrics : Type := mkComparisonMetrics {
  execution_time_difference : Z;
  itemsets_count_difference : Z;
  rules_count_difference : Z;
  faster_algorithm : MiningAlgorithm
}.

Record MiningComparison : Type := mkMiningComparison {
  apriori_result : option MiningResult;
  fp_growth_result : option MiningResult;
  comparison_metrics : option ComparisonMetrics
}.

(** One row of transactions joined with their lines and items. *)
Record JoinedRow : Type := mkJoinedRow {
  transaction_id : Z;
  item_name : string;
  quantity : Z
}.

(** What the handlers see of the outside: the readings [Date.now()] will
    give, the database (which throws on every call when it is down), its
    serial and its own time. *)
Record World : Type := mkWorld {
  clock : nat -> Z;
  ticks : nat;
  db_up : bool;
  joined_rows : list JoinedRow;
  mining_results : list MiningResult;
  next_id : Z;
  db_time : Z
}.

Inductive Outcome (A : Type) : Type :=
| Returned (a : A) (w : World)
| Threw (w : World)
| Unfinished.

Arguments Returned {A} a w.
Arguments Threw {A} w.
Arguments Unfinished {A}.

Definition Handler (A : Type) : Type := World -> Outcome A.

Definition ret {A : Type} (a : A) : Handler A := fun w => Returned a w.

Definition bind {A B : Type} (m : Handler A) (k : A -> Handler B) : Handler B :=
  fun w =>
    match m w with
    | Returned a w' => k a w'
    | Threw w' => Threw w'
    | Unfinished => Unfinished
    end.

Notation "x <- m ;; k" := (bind m (fun x => k))
  (at level 61, m at next level, right associativity).

(** [Date.now()] *)
Definition now : Handler Z :=
  fun w =>
    Returned (clock w (ticks w))
             (mkWorld (clock w) (S (ticks w)) (db_up w) (joined_rows w)
                      (mining_results w) (next_id w) (db_time w)).

Definition select_joined : Handler (list JoinedRow) :=
  fun w => if db_up w then Returned (joined_rows w) w else Threw w.

(** What an [integer] column takes: 32 bits, signed.  The store rejects a
    statement that carries another number. *)
Definition fits_integer (z : Z) : bool :=
  (- 2 ^ 31 <=? z)%Z && (z <? 2 ^ 31)%Z.

(** [insert(...).values(...).returning()]: the store gives the identity and
    the creation time.  [id] is a serial and [created_by] an integer
    column: the store throws, and stores nothing, when the next serial
    number or the user's identifier does not fit. *)
Definition insert_result (alg : MiningAlgorithm) (params : number * number)
    (fis : list FrequentItemset) (rules : list AssociationRule)
    (executionTime userId : Z) : Handler MiningResult :=
  fun w =>
    if db_up w && fits_integer userId && fits_integer (next_id w) then
      let saved := mkMiningResult (next_id w) alg params fis rules
                                  executionTime userId (db_time w) in
      Returned saved
               (mkWorld (clock w) (ticks w) (db_up w) (joined_rows w)
                        (mining_results w ++ [saved]) (next_id w + 1)%Z
                        (db_time w))
    else Threw w.

(** A loop that has not ended (a miner out of fuel, a counter that has
    stopped growing) has not returned. *)
Definition finished {A : Type} (o : option A) : Handler A :=
  fun w => match o with Some a => Returned a w | None => Unfinished end.

(** [transactionMap]: [has]/[set]/[get(...).push] on a map keyed by the
    transaction's identity. *)
Fixpoint push_items (m : list (Z * list string)) (tid : Z) (items : list string)
  : list (Z * list string) :=
  match m with
  | [] => [(tid, items)]
  | (tid', l) :: m' =>
      if (tid =? tid')%Z then (tid', l ++ items) :: m'
      else (tid', l) :: push_items m' tid items
  end.

(** [[...new Set(items)]]: first occurrences, in order. *)
Fixpoint dedupe (seen items : list string) : list string :=
  match items with
  | [] => []
  | x :: rest =>
      if includes seen x then dedupe seen rest else x :: dedupe (x :: seen) rest
  end.

Definition group_rows (rows : list JoinedRow) : list (Z * list string) :=
  fold_left
    (fun m r => push_items m (transaction_id r)
                           (repeat (item_name r) (Z.to_nat (quantity r))))
    rows [].

Definition getTransactionData : Handler (list (Z * list string)) :=
  rows <- select_joined ;;
  ret (map (fun '(tid, items) => (tid, dedupe [] items)) (group_rows rows)).

Definition run_mining (alg : MiningAlgorithm)
    (miner : list (list string) -> number -> option (list FrequentItemset))
    (p : MiningParameters) (userId : Z) : Handler MiningResult :=
  startTime <- now ;;
  transactionData <- getTransactionData ;;
  let transactions := map snd transactionData in
  frequentItemsets <- finished (miner transactions (min_support p)) ;;
  associationRules <-
    finished (if generateAssociationRules_ends frequentItemsets
              then Some (generateAssociationRules frequentItemsets
                           (min_confidence p) transactions)
              else None) ;;
  endTime <- now ;;
  let executionTime := (endTime - startTime)%Z in
  savedResult <- insert_result alg (min_support p, min_confidence p)
                   frequentItemsets associationRules executionTime userId ;;
  ret (mkMiningResult (id savedResult) alg (min_support p, min_confidence p)
         frequentItemsets associationRules executionTime userId
         (created_at savedResult)).

Definition runAprioriMining : MiningParameters -> Z -> Handler MiningResult :=
  run_mining apriori aprioriAlgorithm.

Definition runFPGrowthMining : MiningParameters -> Z -> Handler MiningResult :=
  run_mining fp_growth (fun t s => Some (fpGrowthAlgorithm t s)).

Definition compareMiningResults (p : MiningParameters) (userId : Z)
  : Handler MiningComparison :=
  aprioriResult <- runAprioriMining p userId ;;
  fpGrowthResult <- runFPGrowthMining p userId ;;
  let executionTimeDiff :=
    (execution_time_ms fpGrowthResult - execution_time_ms aprioriResult)%Z in
  let itemsetsCountDiff :=
    (Z.of_nat (List.length (frequent_itemsets fpGrowthResult))
     - Z.of_nat (List.length (frequent_itemsets aprioriResult)))%Z in
  let rulesCountDiff :=
    (Z.of_nat (List.length (association_rules fpGrowthResult))
     - Z.of_nat (List.length (association_rules aprioriResult)))%Z in
  let fasterAlgorithm :=
    if (execution_time_ms aprioriResult <? execution_time_ms fpGrowthResult)%Z
    then apriori else fp_growth in
  ret (mkMiningComparison (Some aprioriResult) (Some fpGrowthResult)
         (Some (mkComparisonMetrics executionTimeDiff itemsetsCountDiff
                                    rulesCountDiff fasterAlgorithm))).

(* ================================================================= *)
(** ** [miningParametersSchema] and the router *)

(** What arrives at a mining procedure before it is parsed. *)
Record RawParameters : Type := mkRawParameters {
  raw_min_support : number;
  raw_min_confidence : number;
  raw_algorithm : string
}.

(** [z.number().min(lo).max(hi)]: a number that is not NaN, [>= lo] and
    [<= hi], both bounds included. *)
Definition z_number_min_max (lo hi : Q) (x : number) : bool :=
  negb (is_nan x) && geb x (Fin lo) && geb (Fin hi) x.

(** [z.enum(['apriori', 'fp_growth'])] *)
Definition miningAlgorithmSchema (s : string) : option MiningAlgorithm :=
  if String.eqb s "apriori" then Some apriori
  else if String.eqb s "fp_growth" then Some fp_growth
  else None.

Definition miningParametersSchema (raw : RawParameters)
  : option MiningParameters :=
  if z_number_min_max 0 1 (raw_min_support raw)
     && z_number_min_max 0 1 (raw_min_confidence raw)
  then match miningAlgorithmSchema (raw_algorithm raw) with
       | Some a => Some (mkMiningParameters (raw_min_support raw)
                                            (raw_min_confidence raw) a)
       | None => None
       end
  else None.

Record Context : Type := mkContext { userId : Z; userRole : string }.

Inductive Response (A : Type) : Type :=
| ValidationFailure
| Handled (o : Outcome A).

Arguments ValidationFailure {A}.
Arguments Handled {A} o.

(** [publicProcedure.input(schema).mutation(({ input, ctx }) => h(input, ctx.userId))] *)
Definition procedure {A : Type} (h : MiningParameters -> Z -> Handler A)
    (raw : RawParameters) (ctx : Context) (w : World) : Response A :=
  match miningParametersSchema raw with
  | None => ValidationFailure
  | Some input => Handled (h input (userId ctx) w)
  end.

(** The three mining procedures of [appRouter]. *)
Module appRouter.
Definition runAprioriMining := procedure runAprioriMining.
Definition runFPGrowthMining := procedure runFPGrowthMining.
Definition compareMiningResults := procedure compareMiningResults.
End appRouter.

(* ================================================================= *)
(** ** The stored results: [getMiningResults] and [getMiningResultById] *)

(** A number that comes back from a [jsonb] column: [JSON.stringify] writes
    NaN and the two infinities as [null]. *)
Definition jsonb_number (x : number) : option Q :=
  match x with
  | Fin q => Some q
  | _ => None
  end.

Record StoredItemset : Type := mkStoredItemset {
  stored_itemset : list string;
  stored_support : option Q;
  stored_count : Z
}.

Record StoredRule : Type := mkStoredRule {
  stored_antecedent : list string;
  stored_consequent : list string;
  stored_rule_support : option Q;
  stored_confidence : option Q;
  stored_lift : option Q
}.

(** A row of [mining_results] as a select gives it: the three [jsonb]
    columns have been through JSON; the other columns are as they were
    written (an execution time is a whole number of milliseconds, and the
    [real] column holds those exactly below 2^24). *)
Record StoredResult : Type := mkStoredResult {
  stored_id : Z;
  stored_algorithm : MiningAlgorithm;
  stored_parameters : option Q * option Q;
  stored_frequent_itemsets : list StoredItemset;
  stored_association_rules : list StoredRule;
  stored_execution_time_ms : Z;
  stored_created_by : Z;
  stored_created_at : Z
}.

Definition jsonb_itemset (f : FrequentItemset) : StoredItemset :=
  mkStoredItemset (itemset f) (jsonb_number (support f)) (count f).

Definition jsonb_rule (r : AssociationRule) : StoredRule :=
  mkStoredRule (Rule.antecedent r) (Rule.consequent r)
               (jsonb_number (Rule.support r))
               (jsonb_number (Rule.confidence r))
               (jsonb_number (Rule.lift r)).

Definition stored_row (r : MiningResult) : StoredResult :=
  mkStoredResult (id r) (result_algorithm r)
    (jsonb_number (fst (parameters r)), jsonb_number (snd (parameters r)))
    (map jsonb_itemset (frequent_itemsets r))
    (map jsonb_rule (association_rules r))
    (execution_time_ms r) (created_by r) (created_at r).




(* ================================================================= *)
(** ** [parseCSVData] *)

(** The code units below 256 that [String.prototype.trim] strips: tab, line
    feed, vertical tab, form feed, carriage return, space and no-break
    space.  (The text of a file is taken to have its code units below 256;
    above, [trim] strips a few more.) *)
Definition is_white_space (c : ascii) : bool :=
  let n := nat_of_ascii c in
  (n =? 9) || (n =? 10) || (n =? 11) || (n =? 12) || (n =? 13)
  || (n =? 32) || (n =? 160).

Fixpoint trim_start (s : string) : string :=
  match s with
  | EmptyString => EmptyString
  | String c s' => if is_white_space c then trim_start s' else s
  end.

Fixpoint trim_end (s : string) : string :=
  match s with
  | EmptyString => EmptyString
  | String c s' =>
      match trim_end s' with
      | EmptyString => if is_white_space c then EmptyString
                       else String c EmptyString
      | t => String c t
      end
  end.

(** [String.prototype.trim] *)
Definition trim (s : string) : string := trim_end (trim_start s).

Definition line_feed : ascii := ascii_of_nat 10.

Definition double_quote : ascii := ascii_of_nat 34.

(** [csvText.split('\n')]: always at least one piece. *)
Fixpoint split_lines (s : string) : list string :=
  match s with
  | EmptyString => [EmptyString]
  | String c s' =>
      if Ascii.eqb c line_feed then EmptyString :: split_lines s'
      else match split_lines s' with
           | [] => [String c EmptyString]
           | p :: ps => String c p :: ps
           end
  end.

(** The loop over the characters of one line, from the state ([current],
    [inQuotes]); what it pushes to [values], and the last push after the
    loop. *)
Fixpoint scan_line (line current : string) (inQuotes : bool) : list string :=
  match line with
  | EmptyString => [trim current]
  | String char rest =>
      if Ascii.eqb char double_quote then scan_line rest current (negb inQuotes)
      else if Ascii.eqb char ","%char && negb inQuotes
           then trim current :: scan_line rest EmptyString inQuotes
           else scan_line rest (current ++ String char EmptyString) inQuotes
  end.

(** [hasHeader] is a parameter that the body does not read. *)
Definition parseCSVData (csvText : string) (hasHeader : bool)
  : list (list string) :=
  let lines :=
    filter (fun line => 0 <? String.length line)
           (map trim (split_lines csvText)) in
  map (fun line => scan_line line EmptyString false) lines.

(* ================================================================= *)
(** ** The tables of [db/schema.ts] *)

Module Role.
Inductive t : Type := admin | user.
End Role.

Module User.
Record t : Type := mk {
  id : Z;
  username : string;
  password_hash : string;
  role : Role.t;
  created_at : Z
}.
End User.

Module Item.
Record t : Type := mk {
  id : Z;
  name : string;
  description : option string;
  category : option string;
  created_at : Z;
  updated_at : Z
}.
End Item.

Module Transaction.
Record t : Type := mk {
  id : Z;
  transaction_date : Z;
  created_by : Z;
  created_at : Z
}.
End Transaction.

Module TransactionItem.
Record t : Type := mk {
  id : Z;
  transaction_id : Z;
  item_id : Z;
  quantity : Z
}.
End TransactionItem.

(** The four tables that the handlers of items and transactions work on,
    each with the sequence of its serial column; whether the store answers
    (when it does not, every call throws); the time that [defaultNow()]
    gives; and the dates that [new Date()] will give.  No table declares a
    foreign key.  The rows that are in the store fit their columns.  When
    [answers] is true the store answers every call of the run; a store
    that fails later in a run is not modelled. *)
Record Store : Type := mkStore {
  answers : bool;
  dates : nat -> Z;
  dates_read : nat;
  store_now : Z;
  usersTable : list User.t;
  itemsTable : list Item.t;
  transactionsTable : list Transaction.t;
  transactionItemsTable : list TransactionItem.t;
  items_id_seq : Z;
  transactions_id_seq : Z;
  transaction_items_id_seq : Z
}.

(** What a handler throws: the store's own error, or one of the errors of
    the handlers, named after their messages. *)
Inductive Failure : Type :=
| StoreFailure
| UserNotFound                 (* 'User not found' *)
| ItemNotFound (itemId : Z)    (* `Item with id ${itemId} not found` *)
| OnlyAdminCreates             (* 'Only admin users can create items' *)
| OnlyAdminUpdates             (* 'Only admin users can update items' *)
| OnlyAdminDeletes             (* 'Only admin users can delete items' *)
| ItemIsUsed                   (* 'Cannot delete item that is used in transactions' *)
| NoValues.                    (* an insert of no rows *)

Inductive Reply (A : Type) : Type :=
| Done (a : A) (s : Store)
| Failed (e : Failure) (s : Store).

Arguments Done {A} a s.
Arguments Failed {A} e s.

Definition Action (A : Type) : Type := Store -> Reply A.

Definition done {A : Type} (a : A) : Action A := fun s => Done a s.

(** [throw new Error(...)]; every handler catches, logs and throws again. *)
Definition throw {A : Type} (e : Failure) : Action A := fun s => Failed e s.

Definition and_then {A B : Type} (m : Action A) (k : A -> Action B)
  : Action B :=
  fun s =>
    match m s with
    | Done a s' => k a s'
    | Failed e s' => Failed e s'
    end.

Notation "x <~ m ;; k" := (and_then m (fun x => k))
  (at level 61, m at next level, right associativity).

(** [db.select().from(table).where(cond).execute()] *)
Definition select {R : Type} (table : Store -> list R) (cond : R -> bool)
  : Action (list R) :=
  fun s =>
    if answers s then Done (filter cond (table s)) s else Failed StoreFailure s.

(** [new Date()] *)
Definition new_date : Action Z :=
  fun s =>
    Done (dates s (dates_read s))
         (mkStore (answers s) (dates s) (S (dates_read s)) (store_now s)
                  (usersTable s) (itemsTable s) (transactionsTable s)
                  (transactionItemsTable s) (items_id_seq s)
                  (transactions_id_seq s) (transaction_items_id_seq s)).

Definition with_items (s : Store) (rows : list Item.t) (serial : Z) : Store :=
  mkStore (answers s) (dates s) (dates_read s) (store_now s)
          (usersTable s) rows (transactionsTable s)
          (transactionItemsTable s) serial
          (transactions_id_seq s) (transaction_items_id_seq s).

Definition with_transactions (s : Store) (rows : list Transaction.t)
    (serial : Z) : Store :=
  mkStore (answers s) (dates s) (dates_read s) (store_now s)
          (usersTable s) (itemsTable s) rows
          (transactionItemsTable s) (items_id_seq s)
          serial (transaction_items_id_seq s).

Definition with_transaction_items (s : Store) (rows : list TransactionItem.t)
    (serial : Z) : Store :=
  mkStore (answers s) (dates s) (dates_read s) (store_now s)
          (usersTable s) (itemsTable s) (transactionsTable s)
          rows (items_id_seq s)
          (transactions_id_seq s) serial.

(* ================================================================= *)
(** ** [handlers/items.ts] *)

Module CreateItemInput.
Record t : Type := mk {
  name : string;
  description : option string;
  category : option string
}.
End CreateItemInput.

(** A field that is [undefined] is [None]; [description] and [category]
    may be given as [null]. *)
Module UpdateItemInput.
Record t : Type := mk {
  id : Z;
  name : option string;
  description : option (option string);
  category : option (option string)
}.
End UpdateItemInput.

(** [!user.length || user[0].role !== 'admin'], negated *)
Definition is_admin (user : list User.t) : bool :=
  match user with
  | [] => false
  | u :: _ => match User.role u with Role.admin => true | Role.user => false end
  end.

(** [db.insert(itemsTable).values({...}).returning()]: the identifier comes
    from the sequence, both dates from [defaultNow()]. *)
Definition insert_item (name : string) (description category : option string)
  : Action Item.t :=
  fun s =>
    if answers s then
      let row := Item.mk (items_id_seq s) name description category
                         (store_now s) (store_now s) in
      Done row (with_items s (itemsTable s ++ [row]) (items_id_seq s + 1)%Z)
    else Failed StoreFailure s.

Definition createItem (input : CreateItemInput.t) (userId : Z) : Action Item.t :=
  user <~ select usersTable (fun u => (User.id u =? userId)%Z) ;;
  if negb (is_admin user) then throw OnlyAdminCreates
  else insert_item (CreateItemInput.name input)
                   (CreateItemInput.description input)
                   (CreateItemInput.category input).

Definition getItems : Action (list Item.t) :=
  select itemsTable (fun _ => true).

Definition getItemById (id : Z) : Action (option Item.t) :=
  result <~ select itemsTable (fun i => (Item.id i =? id)%Z) ;;
  done (match result with
        | [] => None
        | item :: _ => Some item
        end).

(** [updateData]: the fields that were given. *)
Definition apply_update (input : UpdateItemInput.t) (updated_at : Z)
    (i : Item.t) : Item.t :=
  Item.mk (Item.id i)
    (match UpdateItemInput.name input with
     | Some n => n
     | None => Item.name i
     end)
    (match UpdateItemInput.description input with
     | Some d => d
     | None => Item.description i
     end)
    (match UpdateItemInput.category input with
     | Some c => c
     | None => Item.category i
     end)
    (Item.created_at i) updated_at.

(** [Object.keys(updateData).length === 0] *)
Definition nothing_to_update (input : UpdateItemInput.t) : bool :=
  match UpdateItemInput.name input, UpdateItemInput.description input,
        UpdateItemInput.category input with
  | None, None, None => true
  | _, _, _ => false
  end.

(** [db.update(itemsTable).set(...).where(eq(itemsTable.id, id)).returning()] *)
Definition update_items (id : Z) (set : Item.t -> Item.t)
  : Action (list Item.t) :=
  fun s =>
    if answers s then
      let rows :=
        map (fun i => if (Item.id i =? id)%Z then set i else i) (itemsTable s) in
      Done (filter (fun i => (Item.id i =? id)%Z) rows)
           (with_items s rows (items_id_seq s))
    else Failed StoreFailure s.

Definition updateItem (input : UpdateItemInput.t) (userId : Z)
  : Action (option Item.t) :=
  user <~ select usersTable (fun u => (User.id u =? userId)%Z) ;;
  if negb (is_admin user) then throw OnlyAdminUpdates
  else if nothing_to_update input then getItemById (UpdateItemInput.id input)
  else
    updated_at <~ new_date ;;
    result <~ update_items (UpdateItemInput.id input)
                (apply_update input updated_at) ;;
    done (match result with
          | [] => None
          | item :: _ => Some item
          end).

(** [db.delete(itemsTable).where(eq(itemsTable.id, id)).returning()] *)
Definition delete_items (id : Z) : Action (list Item.t) :=
  fun s =>
    if answers s then
      Done (filter (fun i => (Item.id i =? id)%Z) (itemsTable s))
           (with_items s (filter (fun i => negb (Item.id i =? id)%Z) (itemsTable s))
                       (items_id_seq s))
    else Failed StoreFailure s.

Definition deleteItem (id userId : Z) : Action bool :=
  user <~ select usersTable (fun u => (User.id u =? userId)%Z) ;;
  if negb (is_admin user) then throw OnlyAdminDeletes
  else
    transactionItems <~ select transactionItemsTable
                          (fun ti => (TransactionItem.item_id ti =? id)%Z) ;;
    if 0 <? List.length transactionItems then throw ItemIsUsed
    else
      result <~ delete_items id ;;
      done (0 <? List.length result).

(* ================================================================= *)
(** ** [handlers/transactions.ts] *)

Module CreateTransactionInput.
Record t : Type := mk {
  transaction_date : Z;
  items : list (Z * Z)      (* item_id, quantity *)
}.
End CreateTransactionInput.

(** The loop that checks each item of the input, in order. *)
Fixpoint check_items (itemIds : list Z) : Action unit :=
  match itemIds with
  | [] => done tt
  | itemId :: rest =>
      item <~ select itemsTable (fun i => (Item.id i =? itemId)%Z) ;;
      if is_empty item then throw (ItemNotFound itemId)
      else check_items rest
  end.

(** [db.insert(transactionsTable).values({...}).returning()] *)
Definition insert_transaction (transaction_date created_by : Z)
  : Action Transaction.t :=
  fun s =>
    if answers s then
      let row := Transaction.mk (transactions_id_seq s) transaction_date
                                created_by (store_now s) in
      Done row (with_transactions s (transactionsTable s ++ [row])
                                  (transactions_id_seq s + 1)%Z)
    else Failed StoreFailure s.

(** The rows of one insert get consecutive identifiers. *)
Fixpoint number_rows (serial : Z) (values : list (Z * Z * Z))
  : list TransactionItem.t :=
  match values with
  | [] => []
  | (transaction_id, item_id, quantity) :: rest =>
      TransactionItem.mk serial transaction_id item_id quantity
      :: number_rows (serial + 1)%Z rest
  end.

(** [db.insert(transactionItemsTable).values(rows).execute()]; [values]
    throws when it is given no row.  The three columns are [integer]s: when
    a number of some row does not fit, the store rejects the statement and
    writes none of its rows. *)
Definition insert_transaction_items (values : list (Z * Z * Z)) : Action unit :=
  fun s =>
    if is_empty values then Failed NoValues s
    else if answers s then
      if forallb (fun '(transaction_id, item_id, quantity) =>
                    fits_integer transaction_id && fits_integer item_id
                    && fits_integer quantity)
                 values
      then
        Done tt (with_transaction_items s
                   (transactionItemsTable s
                    ++ number_rows (transaction_items_id_seq s) values)
                   (transaction_items_id_seq s
                    + Z.of_nat (List.length values))%Z)
      else Failed StoreFailure s
    else Failed StoreFailure s.

Definition createTransaction (input : CreateTransactionInput.t) (userId : Z)
  : Action Transaction.t :=
  user <~ select usersTable (fun u => (User.id u =? userId)%Z) ;;
  if is_empty user then throw UserNotFound
  else
    let itemIds := map fst (CreateTransactionInput.items input) in
    _ <~ check_items itemIds ;;
    transaction <~ insert_transaction
                     (CreateTransactionInput.transaction_date input) userId ;;
    let transactionItemsData :=
      map (fun '(item_id, quantity) =>
             (Transaction.id transaction, item_id, quantity))
          (CreateTransactionInput.items input) in
    _ <~ insert_transaction_items transactionItemsData ;;
    done transaction.


Definition getTransactionById (id userId : Z) : Action (option Transaction.t) :=
  transactions <~ select transactionsTable
                    (fun t => (Transaction.id t =? id)%Z) ;;
  match transactions with
  | [] => done None
  | transaction :: _ =>
      if negb (Transaction.created_by transaction =? userId)%Z then done None
      else done (Some transaction)
  end.

(** [db.delete(table).where(cond).execute()]: the number of rows deleted is
    the [rowCount]. *)
Definition delete_transaction_items (cond : TransactionItem.t -> bool)
  : Action Z :=
  fun s =>
    if answers s then
      Done (Z.of_nat (List.length (filter cond (transactionItemsTable s))))
           (with_transaction_items s
              (filter (fun ti => negb (cond ti)) (transactionItemsTable s))
              (transaction_items_id_seq s))
    else Failed StoreFailure s.

Definition delete_transactions (cond : Transaction.t -> bool) : Action Z :=
  fun s =>
    if answers s then
      Done (Z.of_nat (List.length (filter cond (transactionsTable s))))
           (with_transactions s
              (filter (fun t => negb (cond t)) (transactionsTable s))
              (transactions_id_seq s))
    else Failed StoreFailure s.

Definition deleteTransaction (id userId : Z) : Action bool :=
  transaction <~ getTransactionById id userId ;;
  match transaction with
  | None => done false
  | Some _ =>
      _ <~ delete_transaction_items
             (fun ti => (TransactionItem.transaction_id ti =? id)%Z) ;;
      rowCount <~ delete_transactions
                    (fun t => (Transaction.id t =? id)%Z
                              && (Transaction.created_by t =? userId)%Z) ;;
      done (0 <? rowCount)%Z
  end.


(* ================================================================= *)
(** ** Vocabulary of the statements *)

(** Canonical order of a member list: neighbours in [String.leb] order. *)
Definition leb_rel (a b : string) : Prop := String.leb a b = true.

Definition canonical (l : list string) : Prop := Sorted leb_rel l.

(** An identifier without a comma. *)
Fixpoint no_comma (s : string) : bool :=
  match s with
  | EmptyString => true
  | String c s' => negb (Ascii.eqb c ","%char) && no_comma s'
  end.

Definition comma_free (transactions : list (list string)) : Prop :=
  forall t x, In t transactions -> In x t -> no_comma x = true.

(** Baskets are sets: no identifier twice in one basket. *)
Definition baskets (transactions : list (list string)) : Prop :=
  forall t, In t transactions -> NoDup t.

(** The closed interval that the schema lets through. *)
Definition in_closed_unit (x : number) : Prop :=
  exists q : Q, x = Fin q /\ (0 <= q)%Q /\ (q <= 1)%Q.

(** The half-open interval of the data model. *)
Definition in_unit (x : number) : Prop :=
  exists q : Q, x = Fin q /\ (0 < q)%Q /\ (q <= 1)%Q.

(** The itemsets of at most two members. *)
Definition at_most_pairs (fis : list FrequentItemset) : list FrequentItemset :=
  filter (fun f => List.length (itemset f) <=? 2) fis.

(** Every way of cutting the members of [f] in two leaves an antecedent
    that some basket contains. *)
Definition splits_occur (transactions : list (list string))
    (f : FrequentItemset) : Prop :=
  forall a c,
    a <> [] -> c <> [] -> Permutation (a ++ c) (itemset f) ->
    exists t, In t transactions /\ incl a t.

(** A member list in canonical order, not empty, without commas. *)
Definition plain (c : list string) : Prop :=
  sort c = c /\ c <> [] /\ forall x, In x c -> no_comma x = true.

(** Two different members in canonical order. *)
Definition strict_pair (s : list string) : Prop :=
  exists a b, s = [a; b] /\ a <> b /\ String.leb a b = true.

(* ================================================================= *)
(** ** The loops, unfolded for the proofs *)

(** The two turns of the loop of [aprioriAlgorithm], written out. *)
Definition apriori_levels (transactions : list (list string))
    (minSupport : number)
  : list FrequentItemset * list FrequentItemset * list FrequentItemset :=
  let totalTransactions := Z.of_nat (List.length transactions) in
  let msc := minSupportCount minSupport totalTransactions in
  let singles :=
    frequent_entries (fun item => [item]) msc totalTransactions
                     (count_items transactions) in
  let '(c2, arrays) := generateCandidates (map itemset singles) 2 in
  let '(l2, c3) := level transactions msc totalTransactions 2 c2 in
  let '(l3, _) := level transactions msc totalTransactions 3 c3 in
  (write_back singles arrays, l2, l3).

Definition get_or_zero (m : Map Z) (k : string) : Z :=
  match map_get m k with Some c => c | None => 0%Z end.

(** How often [k] is bumped by a sequence of keys. *)
Definition bumps (ks : list string) (k : string) : Z :=
  Z.of_nat (count_occ string_dec ks k).

(** The keys that the two counting loops bump, in the order of the bumps. *)
Definition candidate_keys (transactions candidateItemsets : list (list string))
  : list string :=
  flat_map
    (fun transaction =>
       flat_map
         (fun candidate =>
            if contains_all transaction candidate
            then [join (sort candidate)] else [])
         candidateItemsets)
    transactions.

(** The keys that one basket bumps. *)
Definition basket_keys (t : list string) (cands : list (list string))
  : list string :=
  flat_map (fun c => if contains_all t c then [join (sort c)] else []) cands.

(** The record of a level with its member array replaced. *)
Definition with_itemset (g : list string -> list string) (f : FrequentItemset)
  : FrequentItemset :=
  mkFrequentItemset (g (itemset f)) (support f) (count f).

(** The keys of a count map that reach the threshold. *)
Definition frequent_keys (msc : number) (counts : Map Z) : list string :=
  map fst (filter (fun '(_, c) => geb (of_Z c) msc) counts).

(** The identifiers that are frequent on their own. *)
Definition frequent_items (transactions : list (list string))
    (minSupport : number) : list string :=
  frequent_keys
    (minSupportCount minSupport (Z.of_nat (List.length transactions)))
    (count_items transactions).

(** The candidates of level 2 when the singles are [items]: every pair once. *)
Fixpoint all_pairs (items : list string) : list (list string) :=
  match items with
  | [] => []
  | x :: rest => map (fun y => sort [x; y]) rest ++ all_pairs rest
  end.

(** The pairs of level 2 as they are handed to the join of level 3. *)
Definition frequent_pairs (transactions : list (list string))
    (minSupport : number) : list (list string) :=
  let total := Z.of_nat (List.length transactions) in
  let msc := minSupportCount minSupport total in
  map sort
    (map itemset
       (frequent_entries split msc total
          (count_candidates transactions
             (all_pairs (frequent_items transactions minSupport))))).

(** The record of a pair of identifiers as both miners build it. *)
Definition pair_record (transactions : list (list string)) (a b : string)
  : FrequentItemset :=
  mkFrequentItemset (sort [a; b])
    (div (of_Z (basket_count transactions [a; b]))
         (of_Z (Z.of_nat (List.length transactions))))
    (basket_count transactions [a; b]).

(** The counter value of [generateAssociationRules] whose bits select the
    members that satisfy [p]: bit j for member j. *)
Fixpoint mask_of (p : string -> bool) (items : list string) : N :=
  match items with
  | [] => 0%N
  | x :: rest => (2 * mask_of p rest + N.b2n (p x))%N
  end.

(** The baskets that the timed runs mine: the member lists that
    [getTransactionData] builds from the joined rows of the store. *)
Definition mined_baskets (w : World) : list (list string) :=
  map (fun e => dedupe [] (snd e)) (group_rows (joined_rows w)).

(** The world after a timed run that stored [r]: two more readings of the
    clock, one more row, the next serial number. *)
Definition after_run (w : World) (r : MiningResult) : World :=
  mkWorld (clock w) (S (S (ticks w))) (db_up w) (joined_rows w)
          (mining_results w ++ [r]) (next_id w + 1)%Z (db_time w).

(** The world after the first reading of the clock. *)
Definition after_reading (w : World) : World :=
  mkWorld (clock w) (S (ticks w)) (db_up w) (joined_rows w)
          (mining_results w) (next_id w) (db_time w).

(** The result that a timed run of [alg] builds in the world [w] from the
    itemsets [fis] of its miner. *)
Definition result_of_run (alg : MiningAlgorithm) (p : MiningParameters)
    (userId : Z) (w : World) (fis : list FrequentItemset) : MiningResult :=
  mkMiningResult (next_id w) alg (min_support p, min_confidence p) fis
    (generateAssociationRules fis (min_confidence p) (mined_baskets w))
    (clock w (S (ticks w)) - clock w (ticks w))%Z userId (db_time w).

(** The run that starts in [w] is short enough for the [real] column that
    takes its time: the two readings of the clock differ by less than
    2^24 ms. *)
Definition short_run (w : World) : Prop :=
  (Z.abs (clock w (S (ticks w)) - clock w (ticks w)) < 2 ^ 24)%Z.


(** One of the two timed runs, by [uid], returned [r] and left [w']. *)
Definition ran (p : MiningParameters) (uid : Z) (w : World)
    (r : MiningResult) (w' : World) : Prop :=
  runAprioriMining p uid w = Returned r w'
  \/ runFPGrowthMining p uid w = Returned r w'.

(** A character occurs in a string. *)
Fixpoint has_char (c : ascii) (s : string) : bool :=
  match s with
  | EmptyString => false
  | String c' s' => Ascii.eqb c' c || has_char c s'
  end.

(** A field that a quoted line of CSV can carry as it is: no double quote,
    no line feed, nothing for [trim] to strip. *)
Definition quotable (field : string) : Prop :=
  has_char double_quote field = false
  /\ has_char line_feed field = false
  /\ trim field = field.

(** A table written with every field between double quotes, the fields of
    a row separated by commas, the rows by line feeds. *)
Definition quoted_field (field : string) : string :=
  String double_quote (field ++ String double_quote EmptyString).

Definition quoted_row (row : list string) : string :=
  String.concat "," (map quoted_field row).

Definition quoted_csv (rows : list (list string)) : string :=
  String.concat (String line_feed EmptyString) (map quoted_row rows).

(** The identifiers of the rows are different and behind the sequences. *)
Definition keys_ok (s : Store) : Prop :=
  NoDup (map Item.id (itemsTable s))
  /\ (forall i, In i (itemsTable s) -> (Item.id i < items_id_seq s)%Z)
  /\ NoDup (map Transaction.id (transactionsTable s))
  /\ (forall t, In t (transactionsTable s) ->
                (Transaction.id t < transactions_id_seq s)%Z)
  /\ NoDup (map TransactionItem.id (transactionItemsTable s))
  /\ (forall ti, In ti (transactionItemsTable s) ->
                 (TransactionItem.id ti < transaction_items_id_seq s)%Z).

(** Every line of a transaction names a transaction and an item that are
    there. *)
Definition references_ok (s : Store) : Prop :=
  forall ti, In ti (transactionItemsTable s) ->
    (exists t, In t (transactionsTable s)
               /\ Transaction.id t = TransactionItem.transaction_id ti)
    /\ (exists i, In i (itemsTable s)
                  /\ Item.id i = TransactionItem.item_id ti).

(** The store that a reply leaves. *)
Definition store_after {A : Type} (r : Reply A) : Store :=
  match r with
  | Done _ s => s
  | Failed _ s => s
  end.

(** The first identifier of a list that no item has. *)
Definition missing_item (s : Store) (itemIds : list Z) : option Z :=
  find (fun itemId =>
          is_empty (filter (fun i => (Item.id i =? itemId)%Z) (itemsTable s)))
       itemIds.

(** The transaction that [createTransaction] inserts, and the store with it. *)
Definition new_transaction (input : CreateTransactionInput.t) (userId : Z)
    (s : Store) : Transaction.t :=
  Transaction.mk (transactions_id_seq s)
    (CreateTransactionInput.transaction_date input) userId (store_now s).

Definition with_new_transaction (input : CreateTransactionInput.t)
    (userId : Z) (s : Store) : Store :=
  with_transactions s
    (transactionsTable s ++ [new_transaction input userId s])
    (transactions_id_seq s + 1)%Z.

(** The numbers of the lines for an input fit their columns. *)
Definition lines_fit (input : CreateTransactionInput.t) (s : Store) : bool :=
  forallb (fun '(item_id, quantity) =>
             fits_integer (transactions_id_seq s) && fits_integer item_id
             && fits_integer quantity)
          (CreateTransactionInput.items input).

(** The lines that [createTransaction] inserts for its input. *)
Definition new_lines (input : CreateTransactionInput.t) (s : Store)
  : list TransactionItem.t :=
  number_rows (transaction_items_id_seq s)
    (map (fun '(item_id, quantity) => (transactions_id_seq s, item_id, quantity))
         (CreateTransactionInput.items input)).

(** The rows of the join of [getTransactionData]:
    transactions, their lines, the items of the lines. *)
Definition joined (s : Store) : list JoinedRow :=
  flat_map
    (fun t =>
       flat_map
         (fun ti =>
            if (TransactionItem.transaction_id ti =? Transaction.id t)%Z
            then flat_map
                   (fun i =>
                      if (Item.id i =? TransactionItem.item_id ti)%Z
                      then [mkJoinedRow (Transaction.id t) (Item.name i)
                                        (TransactionItem.quantity ti)]
                      else [])
                   (itemsTable s)
            else [])
         (transactionItemsTable s))
    (transactionsTable s).

(** The caller owns a transaction with this identifier. *)
Definition owns (s : Store) (userId id : Z) : bool :=
  existsb (fun t => (Transaction.id t =? id)%Z
                    && (Transaction.created_by t =? userId)%Z)
          (transactionsTable s).

(** The caller is an administrator. *)
Definition administrator (s : Store) (userId : Z) : bool :=
  is_admin (filter (fun u => (User.id u =? userId)%Z) (usersTable s)).

(** Some line of a transaction names the item. *)
Definition item_in_use (s : Store) (id : Z) : bool :=
  existsb (fun ti => (TransactionItem.item_id ti =? id)%Z)
          (transactionItemsTable s).

(** The store after [new Date()]. *)
Definition after_date_read (s : Store) : Store :=
  mkStore (answers s) (dates s) (S (dates_read s)) (store_now s)
          (usersTable s) (itemsTable s) (transactionsTable s)
          (transactionItemsTable s) (items_id_seq s)
          (transactions_id_seq s) (transaction_items_id_seq s).

(* ================================================================= *)
(** ** Sample inputs *)

(** The single basket of the handlers' test. *)
Definition one_basket : list (list string) := [["Bread"; "Milk"; "Butter"]].

Definition one_half : number := Fin (1 # 2).

(** What [aprioriAlgorithm] returns for the test basket. *)
Definition one_basket_itemsets : list FrequentItemset :=
  [ mkFrequentItemset ["Bread"] (Fin 1) 1;
    mkFrequentItemset ["Milk"] (Fin 1) 1;
    mkFrequentItemset ["Butter"] (Fin 1) 1;
    mkFrequentItemset ["Bread"; "Milk"] (Fin 1) 1;
    mkFrequentItemset ["Bread"; "Butter"] (Fin 1) 1;
    mkFrequentItemset ["Butter"; "Milk"] (Fin 1) 1;
    mkFrequentItemset ["Bread"; "Butter"; "Milk"] (Fin 1) 1 ].

(** A basket with a comma in one identifier. *)
Definition comma_basket : list (list string) := [["a,b"; "c"]].

(** A basket whose identifier with a comma is out of order inside. *)
Definition comma_unordered : list (list string) := [["b,a"; "c"]].

(** Two baskets, one of them with a comma in an identifier. *)
Definition comma_two : list (list string) := [["x,y"; "z"]; ["x"; "y"; "z"]].

(** Two baskets that share nothing, and the pair that [fpGrowthAlgorithm]
    returns for them at min_support 0. *)
Definition apart : list (list string) := [["a"]; ["b"]].

Definition apart_pair : FrequentItemset :=
  mkFrequentItemset ["a"; "b"] (Fin 0) 0.

(** A store with two transactions, a clock that advances five
    milliseconds a reading, and the router's placeholder context. *)
Definition sample_world : World :=
  mkWorld (fun n => Z.of_nat (5 * n)) 0 true
          [mkJoinedRow 1 "Bread" 1; mkJoinedRow 1 "Milk" 2;
           mkJoinedRow 2 "Bread" 1]
          [] 1 100.

Definition sample_context : Context := mkContext 1 "admin".

Definition sample_parameters : MiningParameters :=
  mkMiningParameters one_half one_half apriori.

(** What the comparison gives on the sample store. *)
Definition sample_outcome : Outcome MiningComparison :=
  Eval vm_compute in compareMiningResults sample_parameters 7 sample_world.

(** A store with an administrator, a user and two items, and an input that
    buys both items. *)
Definition sample_store : Store :=
  mkStore true (fun n => Z.of_nat (1000 + n)) 0 500
          [User.mk 1 "admin" "hash1" Role.admin 100;
           User.mk 2 "testuser" "hash2" Role.user 100]
          [Item.mk 1 "Bread" (Some "Fresh bread") (Some "Bakery") 100 100;
           Item.mk 2 "Milk" None (Some "Dairy") 100 100]
          [] [] 3 1 1.

Definition sample_input : CreateTransactionInput.t :=
  CreateTransactionInput.mk 900 [(1, 2); (2, 1)]%Z.

(** The sample store after the user has entered the sample input. *)
Definition sample_store_after : Reply Transaction.t :=
  Eval vm_compute in createTransaction sample_input 2 sample_store.

(** The joined rows of the sample store after the sample input, and a world
    whose database holds them. *)
Definition sample_joined : list JoinedRow :=
  Eval vm_compute in joined (store_after sample_store_after).

Definition sample_world_after : World :=
  mkWorld (fun _ => 0%Z) 0 true sample_joined [] 1 0.

(* ================================================================= *)
(** * Properties *)

(** ** Numbers *)

Lemma inject_Z_eq0 z : (inject_Z z == 0)%Q <-> z = 0%Z.
Proof. unfold Qeq; simpl. lia. Qed.

Lemma inject_Z_pos z : (0 < inject_Z z)%Q <-> (0 < z)%Z.
Proof. unfold Qlt; simpl. lia. Qed.

Lemma Qeq_bool_false_iff x y : Qeq_bool x y = false <-> ~ (x == y)%Q.
Proof.
  split.
  - intros E H. apply Qeq_bool_iff in H. congruence.
  - intro H. destruct (Qeq_bool x y) eqn:E; [|reflexivity].
    apply Qeq_bool_iff in E. contradiction.
Qed.

Lemma div_fin x y :
  ~ (y == 0)%Q -> div (Fin x) (Fin y) = Fin (Qred (x / y)).
Proof.
  intro H. unfold div. apply Qeq_bool_false_iff in H. now rewrite H.
Qed.

Lemma div_fin_zero x y :
  (y == 0)%Q -> div (Fin x) (Fin y) = inf_of (sgn x).
Proof.
  intro H. unfold div. apply Qeq_bool_iff in H. now rewrite H.
Qed.

Lemma sgn_pos x : (0 < x)%Q -> sgn x = Gt.
Proof. intro H. unfold sgn. now apply Qgt_alt. Qed.

Lemma sgn_neg x : (x < 0)%Q -> sgn x = Lt.
Proof. intro H. unfold sgn. now apply Qlt_alt. Qed.

Lemma Qle_bool_false x y : (y < x)%Q -> Qle_bool x y = false.
Proof.
  intro H. destruct (Qle_bool x y) eqn:E; [|reflexivity].
  apply Qle_bool_iff in E. exfalso. exact (Qlt_not_le _ _ H E).
Qed.

Lemma Qdiv_eq0 x n : ~ (n == 0)%Q -> (x / n == 0)%Q -> (x == 0)%Q.
Proof.
  intros Hn E.
  setoid_replace x with ((x / n) * n)%Q by (field; exact Hn).
  rewrite E. ring.
Qed.

(** ** Sorting *)

Lemma insert_sorted_perm x l : Permutation (insert_sorted x l) (x :: l).
Proof.
  induction l as [|y l IH]; simpl.
  - apply Permutation_refl.
  - destruct (String.leb x y).
    + apply Permutation_refl.
    + eapply perm_trans; [apply perm_skip, IH | apply perm_swap].
Qed.

Lemma sort_perm l : Permutation (sort l) l.
Proof.
  induction l as [|x l IH]; simpl.
  - constructor.
  - eapply perm_trans; [apply insert_sorted_perm | apply perm_skip, IH].
Qed.

Lemma sort_length l : List.length (sort l) = List.length l.
Proof. apply Permutation_length, sort_perm. Qed.

Lemma sort_In x l : In x (sort l) <-> In x l.
Proof.
  split; apply Permutation_in; [|apply Permutation_sym]; apply sort_perm.
Qed.

Lemma leb_false_flip x y : String.leb x y = false -> String.leb y x = true.
Proof.
  intro H. destruct (String.leb_total x y) as [E|E]; congruence.
Qed.

Lemma insert_sorted_hd x l a :
  HdRel leb_rel a l -> leb_rel a x -> HdRel leb_rel a (insert_sorted x l).
Proof.
  intros Hl Hx. destruct l as [|y l]; simpl.
  - constructor; exact Hx.
  - destruct (String.leb x y); constructor.
    + exact Hx.
    + inversion Hl; assumption.
Qed.

Lemma insert_sorted_canonical x l : canonical l -> canonical (insert_sorted x l).
Proof.
  unfold canonical. induction 1 as [|y l Hs IH Hd]; simpl.
  - repeat constructor.
  - destruct (String.leb x y) eqn:E.
    + constructor; [constructor; assumption | constructor; exact E].
    + constructor; [exact IH|].
      apply insert_sorted_hd; [exact Hd | apply leb_false_flip, E].
Qed.

Lemma sort_canonical l : canonical (sort l).
Proof.
  induction l as [|x l IH]; simpl.
  - constructor.
  - apply insert_sorted_canonical, IH.
Qed.

Lemma sort_of_canonical l : canonical l -> sort l = l.
Proof.
  unfold canonical. induction 1 as [|x l Hs IH Hd]; simpl.
  - reflexivity.
  - rewrite IH. destruct Hd as [|y l' Hxy]; simpl.
    + reflexivity.
    + unfold leb_rel in Hxy. rewrite Hxy. reflexivity.
Qed.

Lemma sort_idempotent l : sort (sort l) = sort l.
Proof. apply sort_of_canonical, sort_canonical. Qed.

(** The order is transitive, so a member list has one canonical order. *)
Lemma leb_cases a b :
  String.leb a b = true <-> String_as_OT.lt a b \/ a = b.
Proof.
  unfold String.leb. rewrite <- String_as_OT.cmp_lt, <- String_as_OT.cmp_eq.
  unfold String_as_OT.cmp.
  destruct (String.compare a b); split; intro H; auto;
    try discriminate; destruct H; discriminate.
Qed.

Lemma leb_trans a b c :
  String.leb a b = true -> String.leb b c = true -> String.leb a c = true.
Proof.
  rewrite !leb_cases. intros [H1 | ->] [H2 | ->]; auto.
  left. eapply String_as_OT.lt_trans; eassumption.
Qed.

Lemma canonical_least x l :
  canonical (x :: l) -> forall y, In y l -> String.leb x y = true.
Proof.
  intro H. apply Sorted_StronglySorted in H.
  - inversion H as [|? ? _ Hall]; subst.
    intros y Hy. rewrite Forall_forall in Hall. exact (Hall y Hy).
  - intros a b c. apply leb_trans.
Qed.

Lemma canonical_unique l l' :
  canonical l -> canonical l' -> Permutation l l' -> l = l'.
Proof.
  revert l'. induction l as [|x l IH]; intros l' Hl Hl' Hp.
  - apply Permutation_nil in Hp. now subst.
  - destruct l' as [|x' l'].
    + apply Permutation_sym, Permutation_nil in Hp. discriminate.
    + assert (E : x = x').
      { assert (H1 : In x (x' :: l'))
          by (eapply Permutation_in; [exact Hp|now left]).
        assert (H2 : In x' (x :: l))
          by (eapply Permutation_in; [apply Permutation_sym, Hp|now left]).
        destruct H1 as [H1|H1]; [now subst|].
        destruct H2 as [H2|H2]; [now subst|].
        apply String.leb_antisym.
        - exact (canonical_least _ _ Hl _ H2).
        - exact (canonical_least _ _ Hl' _ H1). }
      subst x'. f_equal.
      apply IH.
      * now inversion Hl.
      * now inversion Hl'.
      * eapply Permutation_cons_inv, Hp.
Qed.

(** Sorting forgets the order it is given. *)
Lemma sort_of_perm l l' : Permutation l l' -> sort l = sort l'.
Proof.
  intro H. apply canonical_unique; try apply sort_canonical.
  eapply perm_trans; [apply sort_perm|].
  eapply perm_trans; [exact H|apply Permutation_sym, sort_perm].
Qed.

(** ** Insertion-ordered maps and the counting loops *)

Lemma map_get_set_same {V : Type} (m : Map V) k v :
  map_get (map_set m k v) k = Some v.
Proof.
  induction m as [|[k' v'] m IH]; simpl.
  - now rewrite String.eqb_refl.
  - destruct (String.eqb k k') eqn:E; simpl; rewrite E; [reflexivity|exact IH].
Qed.

Lemma map_get_set_other {V : Type} (m : Map V) k v k' :
  k' <> k -> map_get (map_set m k v) k' = map_get m k'.
Proof.
  intro Hne. induction m as [|[k0 v0] m IH]; simpl.
  - apply String.eqb_neq in Hne. now rewrite Hne.
  - destruct (String.eqb k k0) eqn:E; simpl.
    + apply String.eqb_eq in E. subst k0.
      apply String.eqb_neq in Hne. now rewrite Hne.
    + destruct (String.eqb k' k0); [reflexivity|exact IH].
Qed.

Lemma map_get_In {V : Type} (m : Map V) k v :
  map_get m k = Some v -> In (k, v) m.
Proof.
  induction m as [|[k' v'] m IH]; simpl; [discriminate|].
  destruct (String.eqb k k') eqn:E.
  - apply String.eqb_eq in E. subst. intro H. injection H as ->. now left.
  - intro H. right. exact (IH H).
Qed.

Lemma map_get_None {V : Type} (m : Map V) k :
  map_get m k = None <-> ~ In k (map fst m).
Proof.
  induction m as [|[k' v'] m IH]; simpl.
  - tauto.
  - destruct (String.eqb k k') eqn:E.
    + apply String.eqb_eq in E. subst. split; [discriminate|tauto].
    + apply String.eqb_neq in E. rewrite IH. split.
      * intros H [H1|H1]; [congruence|tauto].
      * tauto.
Qed.

Lemma In_map_get {V : Type} (m : Map V) k v :
  NoDup (map fst m) -> In (k, v) m -> map_get m k = Some v.
Proof.
  induction m as [|[k' v'] m IH]; simpl; intros Hnd Hin; [contradiction|].
  inversion Hnd as [|? ? Hn Hnd']; subst.
  destruct Hin as [E|Hin].
  - injection E as -> ->. now rewrite String.eqb_refl.
  - destruct (String.eqb k k') eqn:E.
    + apply String.eqb_eq in E. subst k'.
      exfalso. apply Hn. apply (in_map fst) in Hin. exact Hin.
    + exact (IH Hnd' Hin).
Qed.

Lemma map_set_keys {V : Type} (m : Map V) k v :
  map fst (map_set m k v)
  = if existsb (String.eqb k) (map fst m) then map fst m else map fst m ++ [k].
Proof.
  induction m as [|[k' v'] m IH]; simpl.
  - reflexivity.
  - destruct (String.eqb k k') eqn:E; simpl.
    + reflexivity.
    + rewrite IH. now destruct (existsb (String.eqb k) (map fst m)).
Qed.

Lemma existsb_eqb_false k l :
  existsb (String.eqb k) l = false <-> ~ In k l.
Proof.
  induction l as [|x l IH]; simpl.
  - tauto.
  - rewrite orb_false_iff, IH, String.eqb_neq. split.
    + intros [H1 H2] [H|H]; [congruence|tauto].
    + intro H. split; [intro E; apply H; left; congruence | tauto].
Qed.

Lemma includes_In t x : includes t x = true <-> In x t.
Proof.
  unfold includes. rewrite existsb_exists. split.
  - intros [y [Hy E]]. apply String.eqb_eq in E. now subst.
  - intro H. exists x. split; [exact H|apply String.eqb_refl].
Qed.

Lemma contains_all_incl t items :
  contains_all t items = true <-> incl items t.
Proof.
  unfold contains_all, incl. rewrite forallb_forall.
  split; intros H x Hx; apply includes_In; auto.
Qed.

Lemma map_set_NoDup {V : Type} (m : Map V) k v :
  NoDup (map fst m) -> NoDup (map fst (map_set m k v)).
Proof.
  intro H. rewrite map_set_keys.
  destruct (existsb (String.eqb k) (map fst m)) eqn:E; [exact H|].
  apply existsb_eqb_false in E.
  apply NoDup_app; [exact H | repeat constructor; simpl; tauto|].
  intros a Ha [<-|[]]. contradiction.
Qed.

Lemma get_or_zero_bump m k k' :
  get_or_zero (bump m k) k'
  = (get_or_zero m k' + if string_dec k k' then 1 else 0)%Z.
Proof.
  unfold get_or_zero, bump.
  destruct (string_dec k k') as [-> | Hne].
  - now rewrite map_get_set_same.
  - rewrite map_get_set_other by congruence. lia.
Qed.

Lemma bump_keys m k x :
  In x (map fst (bump m k)) <-> In x (map fst m) \/ x = k.
Proof.
  unfold bump. rewrite map_set_keys.
  destruct (existsb (String.eqb k) (map fst m)) eqn:E.
  - apply existsb_exists in E as [y [Hy E]]. apply String.eqb_eq in E. subst y.
    split; [tauto | intros [H | ->]; assumption].
  - rewrite in_app_iff. simpl. intuition.
Qed.

(** A run of bumps: the keys stay distinct, a key is present when it was
    present or bumped, and its value grows by the number of its bumps. *)
Lemma fold_bump_spec ks : forall m,
  NoDup (map fst m) ->
  let m' := fold_left bump ks m in
  NoDup (map fst m')
  /\ (forall x, In x (map fst m') <-> In x (map fst m) \/ In x ks)
  /\ (forall x, get_or_zero m' x = (get_or_zero m x + bumps ks x)%Z).
Proof.
  unfold bumps.
  induction ks as [|k ks IH]; intros m Hnd; simpl.
  - repeat split; try tauto; try lia; exact Hnd.
  - destruct (IH (bump m k) (map_set_NoDup _ _ _ Hnd)) as (H1 & H2 & H3).
    split; [exact H1|]. split.
    + intro x. rewrite H2, bump_keys. intuition.
    + intro x. rewrite H3, get_or_zero_bump.
      destruct (string_dec k x); lia.
Qed.

Lemma count_occ_pos_In (ks : list string) k :
  In k ks -> (0 < bumps ks k)%Z.
Proof.
  intro H. unfold bumps. apply (count_occ_In string_dec) in H. lia.
Qed.

(** The entries of a counting map built from nothing. *)
Lemma fold_bump_entries ks k c :
  In (k, c) (fold_left bump ks []) <-> In k ks /\ c = bumps ks k.
Proof.
  destruct (fold_bump_spec ks [] (NoDup_nil _)) as (H1 & H2 & H3).
  cbv zeta in *. split.
  - intro Hin.
    assert (Hk : In k ks).
    { apply (in_map fst) in Hin. apply H2 in Hin as [[]|Hin]. exact Hin. }
    split; [exact Hk|].
    specialize (H3 k). unfold get_or_zero in H3 at 1 2.
    rewrite (In_map_get _ _ _ H1 Hin) in H3. simpl in H3. lia.
  - intros [Hk ->].
    assert (Hin : In k (map fst (fold_left bump ks []))) by (apply H2; tauto).
    destruct (map_get (fold_left bump ks []) k) as [c|] eqn:E.
    + specialize (H3 k). unfold get_or_zero in H3 at 1 2.
      rewrite E in H3. simpl in H3. subst c.
      apply map_get_In in E. exact E.
    + apply map_get_None in E. contradiction.
Qed.

Lemma count_items_flat transactions :
  count_items transactions = fold_left bump (List.concat transactions) [].
Proof.
  unfold count_items. generalize (@nil (string * Z)) as m.
  induction transactions as [|t ts IH]; intro m; simpl.
  - reflexivity.
  - rewrite fold_left_app. apply IH.
Qed.

Lemma count_candidates_flat transactions cands :
  count_candidates transactions cands
  = fold_left bump (candidate_keys transactions cands) [].
Proof.
  unfold count_candidates, candidate_keys.
  generalize (@nil (string * Z)) as m.
  induction transactions as [|t ts IH]; intro m; simpl.
  - reflexivity.
  - rewrite fold_left_app, IH. f_equal.
    clear IH. revert m. induction cands as [|c cs IHc]; intro m; simpl.
    + reflexivity.
    + rewrite IHc. now destruct (contains_all t c).
Qed.

(** ** [join] and [split] *)

Lemma split_no_comma x : no_comma x = true -> split x = [x].
Proof.
  induction x as [|c x IH]; simpl; intro H.
  - reflexivity.
  - apply andb_true_iff in H as [Hc Hx].
    apply negb_true_iff in Hc. rewrite Hc, (IH Hx). reflexivity.
Qed.

Lemma split_append_comma x s :
  no_comma x = true -> split (x ++ String ","%char s) = x :: split s.
Proof.
  induction x as [|c x IH]; simpl; intro H.
  - reflexivity.
  - apply andb_true_iff in H as [Hc Hx].
    apply negb_true_iff in Hc. rewrite Hc, (IH Hx). reflexivity.
Qed.

(** Splitting a joined list gives the list back when it is not empty and
    no member holds a comma. *)
Lemma split_join l :
  l <> [] -> (forall x, In x l -> no_comma x = true) -> split (join l) = l.
Proof.
  unfold join. induction l as [|x l IH]; intros Hne Hall; [contradiction|].
  destruct l as [|y l].
  - simpl. apply split_no_comma, Hall. now left.
  - change (String.concat "," (x :: y :: l))
      with (x ++ String ","%char (String.concat "," (y :: l)))%string.
    rewrite split_append_comma by (apply Hall; now left).
    f_equal. apply IH; [discriminate|].
    intros z Hz. apply Hall. now right.
Qed.

(** A comma in a member is a different story. *)
Example split_join_comma : split (join ["a,b"; "c"]) = ["a"; "b"; "c"].
Proof. reflexivity. Qed.

(** ** Splits and baskets *)

Lemma NoDup_app_disjoint {A : Type} (l1 l2 : list A) x :
  NoDup (l1 ++ l2) -> In x l1 -> ~ In x l2.
Proof.
  induction l1 as [|a l1 IH]; simpl; intros Hnd Hin Hin2.
  - exact Hin.
  - inversion Hnd as [|? ? Hna Hnd']; subst.
    destruct Hin as [->|Hin].
    + apply Hna, in_or_app. right. exact Hin2.
    + exact (IH Hnd' Hin Hin2).
Qed.

Lemma split_by_mask_perm i j items a c :
  split_by_mask i j items = (a, c) -> Permutation (a ++ c) items.
Proof.
  revert j a c. induction items as [|x rest IH]; simpl; intros j a c H.
  - injection H as <- <-. constructor.
  - destruct (split_by_mask i (S j) rest) as [a' c'] eqn:E.
    specialize (IH _ _ _ E).
    destruct (mask_bit i j); injection H as <- <-.
    + simpl. apply perm_skip, IH.
    + apply Permutation_sym.
      apply Permutation_cons_app, Permutation_sym, IH.
Qed.

Lemma contains_all_perm t l1 l2 :
  Permutation l1 l2 -> contains_all t l1 = contains_all t l2.
Proof.
  unfold contains_all.
  induction 1; simpl; try congruence.
  - now rewrite !andb_assoc, (andb_comm (includes t y)).
Qed.

Lemma basket_count_perm transactions l1 l2 :
  Permutation l1 l2 -> basket_count transactions l1 = basket_count transactions l2.
Proof.
  intro H. unfold basket_count. f_equal. f_equal.
  apply filter_ext. intro t. apply contains_all_perm, H.
Qed.

Lemma basket_count_sort transactions l :
  basket_count transactions (sort l) = basket_count transactions l.
Proof. apply basket_count_perm, sort_perm. Qed.

Lemma is_empty_false {A : Type} (l : list A) : is_empty l = false <-> l <> [].
Proof. destruct l; simpl; split; congruence. Qed.

Lemma sort_not_nil l : l <> [] -> sort l <> [].
Proof.
  intros H E. apply H. apply length_zero_iff_nil.
  rewrite <- sort_length, E. reflexivity.
Qed.

Lemma basket_count_cons t transactions items :
  basket_count (t :: transactions) items
  = ((if contains_all t items then 1 else 0) + basket_count transactions items)%Z.
Proof.
  unfold basket_count. cbn [filter].
  destruct (contains_all t items); cbn [List.length]; lia.
Qed.

Lemma bumps_app l1 l2 x : bumps (l1 ++ l2) x = (bumps l1 x + bumps l2 x)%Z.
Proof. unfold bumps. rewrite count_occ_app. lia. Qed.

Lemma bumps_NoDup t x :
  NoDup t -> bumps t x = if includes t x then 1%Z else 0%Z.
Proof.
  intro Hnd. unfold bumps.
  pose proof (proj1 (NoDup_count_occ string_dec t) Hnd x) as Hle.
  destruct (includes t x) eqn:E.
  - apply includes_In in E. apply (count_occ_In string_dec) in E. lia.
  - assert (Hn : ~ In x t) by (intro H; apply includes_In in H; congruence).
    apply (count_occ_not_In string_dec) in Hn. lia.
Qed.

(** In baskets that are sets the count of the first loop is the number of
    baskets with the identifier. *)
Lemma bumps_concat transactions x :
  baskets transactions ->
  bumps (List.concat transactions) x = basket_count transactions [x].
Proof.
  induction transactions as [|t ts IH]; intro Hb.
  - reflexivity.
  - simpl List.concat. rewrite bumps_app, basket_count_cons, IH.
    + rewrite bumps_NoDup by (apply Hb; now left).
      unfold contains_all. simpl. now rewrite andb_true_r.
    + intros t' Ht'. apply Hb. now right.
Qed.

(** ** The loop of [aprioriAlgorithm] ends within its fuel *)

Lemma count_candidates_nil transactions : count_candidates transactions [] = [].
Proof.
  unfold count_candidates. generalize (@nil (string * Z)) as m.
  induction transactions as [|t ts IH]; intro m; simpl.
  - reflexivity.
  - apply IH.
Qed.

Lemma level_nil transactions msc total k :
  level transactions msc total k [] = ([], []).
Proof.
  unfold level. rewrite count_candidates_nil. reflexivity.
Qed.

Lemma apriori_loop_nil fuel transactions msc total k acc :
  apriori_loop fuel transactions msc total k [] acc = Some acc.
Proof. destruct fuel; reflexivity. Qed.

Lemma aprioriAlgorithm_levels transactions minSupport :
  aprioriAlgorithm transactions minSupport
  = Some (let '(l1, l2, l3) := apriori_levels transactions minSupport in
          l1 ++ l2 ++ l3).
Proof.
  unfold aprioriAlgorithm, apriori_fuel, apriori_levels.
  destruct (generateCandidates _ 2) as [c2 arrays].
  cbv zeta.
  set (tot := Z.of_nat (List.length transactions)).
  set (msc := minSupportCount minSupport tot).
  destruct c2 as [|c c2].
  - rewrite apriori_loop_nil, level_nil, level_nil.
    now rewrite !app_nil_r.
  - cbn [apriori_loop List.length Nat.ltb Nat.leb andb].
    destruct (level transactions msc tot 2 (c :: c2)) as [l2 c3].
    destruct c3 as [|d c3].
    + rewrite !level_nil. cbn [List.length Nat.ltb Nat.leb andb].
      now rewrite app_nil_r.
    + cbn [apriori_loop List.length Nat.ltb Nat.leb andb Nat.add].
      destruct (level transactions msc tot 3 (d :: c3)) as [l3 c4].
      rewrite <- app_assoc.
      destruct c4; reflexivity.
Qed.

(** More fuel changes nothing. *)
Lemma apriori_fuel_enough transactions minSupport fuel :
  2 <= fuel ->
  apriori_fuel transactions minSupport fuel
  = aprioriAlgorithm transactions minSupport.
Proof.
  intro Hf. unfold aprioriAlgorithm, apriori_fuel.
  destruct (generateCandidates _ 2) as [c2 arrays].
  cbv zeta.
  destruct fuel as [|[|fuel]]; try lia.
  destruct c2 as [|c c2]; [reflexivity|].
  cbn [apriori_loop List.length Nat.ltb Nat.leb andb].
  destruct (level _ _ _ 2 _) as [l2 c3].
  destruct c3 as [|d c3]; [reflexivity|].
  cbn [apriori_loop List.length Nat.ltb Nat.leb andb Nat.add].
  destruct (level _ _ _ 3 _) as [l3 c4].
  destruct c4; destruct fuel; reflexivity.
Qed.

(** ** The sample baskets *)

Lemma one_basket_run :
  aprioriAlgorithm one_basket one_half = Some one_basket_itemsets.
Proof. vm_compute. reflexivity. Qed.

Lemma one_basket_comma_free : comma_free one_basket.
Proof.
  intros t x [<-|[]] Hx. simpl in Hx.
  destruct Hx as [<-|[<-|[<-|[]]]]; reflexivity.
Qed.

Lemma one_basket_baskets : baskets one_basket.
Proof.
  intros t [<-|[]].
  repeat constructor; simpl; intuition discriminate.
Qed.

Lemma one_half_in_unit : in_unit one_half.
Proof. exists (1 # 2). repeat split; unfold Qlt, Qle; simpl; lia. Qed.

(** ** The records of one level *)

Lemma frequent_entries_In mk msc total counts f :
  In f (frequent_entries mk msc total counts) <->
  exists key c,
    In (key, c) counts /\ geb (of_Z c) msc = true
    /\ f = mkFrequentItemset (mk key) (div (of_Z c) (of_Z total)) c.
Proof.
  unfold frequent_entries. rewrite in_flat_map. split.
  - intros [[key c] [Hin Hf]].
    destruct (geb (of_Z c) msc) eqn:G; [|contradiction].
    destruct Hf as [<-|[]]. now exists key, c.
  - intros (key & c & Hin & G & ->).
    exists (key, c). split; [exact Hin|]. rewrite G. now left.
Qed.

Lemma write_back_map g fs :
  write_back fs (map g (map itemset fs)) = map (with_itemset g) fs.
Proof.
  induction fs as [|f fs IH]; simpl; [reflexivity|]. now rewrite IH.
Qed.

Lemma write_back_same fs : write_back fs (map itemset fs) = fs.
Proof.
  induction fs as [|f fs IH]; simpl; [reflexivity|].
  rewrite IH. now destruct f.
Qed.

(** The arrays after [generateCandidates], seen from the records: each
    record keeps its numbers, and its members are as they were or sorted. *)
Lemma write_back_candidates fs k f :
  In f (write_back fs (snd (generateCandidates (map itemset fs) k))) ->
  exists f0,
    In f0 fs /\ support f = support f0 /\ count f = count f0
    /\ (itemset f = itemset f0 \/ itemset f = sort (itemset f0)).
Proof.
  unfold generateCandidates. cbn [snd].
  destruct (2 <=? List.length (map itemset fs)).
  - rewrite write_back_map. intro H.
    apply in_map_iff in H as [f0 [<- H]]. exists f0. simpl. auto.
  - rewrite write_back_same. intro H. exists f. auto.
Qed.

Lemma generateCandidates_fst sets k :
  fst (generateCandidates sets k) = combine_all k (map sort sets).
Proof.
  unfold generateCandidates. cbn [fst].
  destruct (2 <=? List.length sets) eqn:E; [reflexivity|].
  apply Nat.leb_gt in E.
  destruct sets as [|s [|s' sets]]; simpl in *; try lia; reflexivity.
Qed.

Lemma level_fst transactions msc total k cands :
  fst (level transactions msc total k cands)
  = let fs := frequent_entries split msc total
                (count_candidates transactions cands) in
    write_back fs (snd (generateCandidates (map itemset fs) (k + 1))).
Proof.
  unfold level. cbv zeta.
  destruct (generateCandidates _ (k + 1)) as [next arrays]. reflexivity.
Qed.

Lemma level_snd transactions msc total k cands :
  snd (level transactions msc total k cands)
  = combine_all (k + 1)
      (map sort (map itemset (frequent_entries split msc total
                                (count_candidates transactions cands)))).
Proof.
  unfold level. cbv zeta.
  rewrite <- generateCandidates_fst.
  destruct (generateCandidates _ (k + 1)) as [next arrays]. reflexivity.
Qed.

(** Where a candidate comes from. *)
Lemma combine_all_In k sets c :
  In c (combine_all k sets) ->
  exists s1 s2 x,
    In s1 sets /\ In s2 sets /\ canCombine k s1 s2 = true
    /\ last_member s2 = Some x /\ c = sort (s1 ++ [x]).
Proof.
  induction sets as [|s1 rest IH]; simpl; [contradiction|].
  rewrite in_app_iff, in_flat_map. intros [[s2 [Hs2 Hc]]|Hc].
  - unfold combine_pair in Hc.
    destruct (canCombine k s1 s2) eqn:E; [|contradiction].
    destruct (last_member s2) as [x|] eqn:L; [|contradiction].
    destruct Hc as [<-|[]]. exists s1, s2, x. auto.
  - destruct (IH Hc) as (a & b & x & Ha & Hb & H).
    exists a, b, x. auto.
Qed.

Lemma combine_all_not_nil k sets c : In c (combine_all k sets) -> c <> [].
Proof.
  intro H. apply combine_all_In in H as (s1 & s2 & x & _ & _ & _ & _ & ->).
  apply sort_not_nil. destruct s1; discriminate.
Qed.

Lemma candidate_keys_In transactions cands key :
  In key (candidate_keys transactions cands) <->
  exists t c,
    In t transactions /\ In c cands /\ contains_all t c = true
    /\ key = join (sort c).
Proof.
  unfold candidate_keys. rewrite in_flat_map. split.
  - intros [t [Ht H]]. apply in_flat_map in H as [c [Hc H]].
    destruct (contains_all t c) eqn:E; [|contradiction].
    destruct H as [<-|[]]. now exists t, c.
  - intros (t & c & Ht & Hc & E & ->). exists t. split; [exact Ht|].
    apply in_flat_map. exists c. split; [exact Hc|]. rewrite E. now left.
Qed.

(** One record of a level, over baskets without commas: its members are a
    sorted candidate that some basket contains, and its count is the number
    of bumps of the candidate's key. *)
Lemma level_In transactions msc total k cands f :
  comma_free transactions ->
  (forall c, In c cands -> c <> []) ->
  In f (fst (level transactions msc total k cands)) ->
  exists c t,
    In c cands /\ In t transactions /\ contains_all t c = true
    /\ itemset f = sort c
    /\ count f = bumps (candidate_keys transactions cands) (join (sort c))
    /\ support f = div (of_Z (count f)) (of_Z total)
    /\ geb (of_Z (count f)) msc = true.
Proof.
  intros Hcf Hne Hin. rewrite level_fst in Hin. cbv zeta in Hin.
  apply write_back_candidates in Hin as (f0 & Hf0 & Hs & Hc & Hi).
  apply frequent_entries_In in Hf0 as (key & n & Hkey & G & ->).
  rewrite count_candidates_flat in Hkey.
  apply fold_bump_entries in Hkey as [Hkey ->].
  apply candidate_keys_In in Hkey as (t & c & Ht & Hcand & E & ->).
  cbn [itemset support count] in *.
  assert (Hsplit : split (join (sort c)) = sort c).
  { apply split_join.
    - apply sort_not_nil, Hne, Hcand.
    - intros x Hx. apply (proj1 (sort_In _ _)) in Hx.
      apply (Hcf t x Ht). apply (proj1 (contains_all_incl _ _) E), Hx. }
  exists c, t. rewrite Hs, Hc. repeat split; try assumption.
  rewrite Hsplit in Hi. destruct Hi as [->| ->];
    [reflexivity | apply sort_idempotent].
Qed.

(** ** Where the members of an Apriori itemset occur *)

Lemma basket_count_pos transactions items t :
  In t transactions -> incl items t -> (0 < basket_count transactions items)%Z.
Proof.
  intros Ht Hi. unfold basket_count.
  assert (H : In t (filter (fun t => contains_all t items) transactions)).
  { apply filter_In. split; [exact Ht|]. now apply contains_all_incl. }
  destruct (filter _ transactions); [contradiction|simpl; lia].
Qed.

Lemma in_concat_baskets (transactions : list (list string)) x :
  In x (List.concat transactions) <-> exists t, In t transactions /\ In x t.
Proof.
  rewrite in_concat. split; intros [t H]; exists t; tauto.
Qed.

(** The singletons of [aprioriAlgorithm]. *)
Lemma apriori_singles_In transactions msc total k f :
  let singles := frequent_entries (fun item => [item]) msc total
                   (count_items transactions) in
  In f (write_back singles (snd (generateCandidates (map itemset singles) k))) ->
  exists x,
    itemset f = [x] /\ In x (List.concat transactions)
    /\ count f = bumps (List.concat transactions) x
    /\ support f = div (of_Z (count f)) (of_Z total)
    /\ geb (of_Z (count f)) msc = true.
Proof.
  intros singles Hin.
  apply write_back_candidates in Hin as (f0 & Hf0 & Hs & Hc & Hi).
  apply frequent_entries_In in Hf0 as (x & n & Hx & G & ->).
  rewrite count_items_flat in Hx.
  apply fold_bump_entries in Hx as [Hx ->].
  cbn [itemset support count] in *.
  exists x. rewrite Hs, Hc. repeat split; try assumption.
  destruct Hi as [->| ->]; reflexivity.
Qed.

Lemma apriori_levels_unfold transactions minSupport :
  let total := Z.of_nat (List.length transactions) in
  let msc := minSupportCount minSupport total in
  let singles := frequent_entries (fun item => [item]) msc total
                   (count_items transactions) in
  let c2 := combine_all 2 (map sort (map itemset singles)) in
  let c3 := snd (level transactions msc total 2 c2) in
  apriori_levels transactions minSupport
  = (write_back singles (snd (generateCandidates (map itemset singles) 2)),
     fst (level transactions msc total 2 c2),
     fst (level transactions msc total 3 c3)).
Proof.
  intros total msc singles c2 c3.
  unfold apriori_levels. fold total. fold msc. fold singles.
  subst c3 c2. rewrite <- generateCandidates_fst.
  destruct (generateCandidates (map itemset singles) 2) as [c2 arrays].
  cbn [fst snd].
  destruct (level transactions msc total 2 c2) as [l2 c3]. cbn [fst snd].
  destruct (level transactions msc total 3 c3) as [l3 c4]. reflexivity.
Qed.

Lemma apriori_levels_In transactions minSupport fis f :
  aprioriAlgorithm transactions minSupport = Some fis ->
  In f fis ->
  let total := Z.of_nat (List.length transactions) in
  let msc := minSupportCount minSupport total in
  let singles := frequent_entries (fun item => [item]) msc total
                   (count_items transactions) in
  let c2 := combine_all 2 (map sort (map itemset singles)) in
  let c3 := snd (level transactions msc total 2 c2) in
  In f (write_back singles (snd (generateCandidates (map itemset singles) 2)))
  \/ In f (fst (level transactions msc total 2 c2))
  \/ In f (fst (level transactions msc total 3 c3)).
Proof.
  intros H Hin total msc singles c2 c3.
  rewrite aprioriAlgorithm_levels in H.
  pose proof (apriori_levels_unfold transactions minSupport) as U.
  cbv zeta in U. fold total msc singles c2 c3 in U.
  rewrite U in H. injection H as <-.
  rewrite !in_app_iff in Hin. exact Hin.
Qed.

(** Over baskets without commas every itemset of [aprioriAlgorithm] lies
    in some basket, and its support is its count over the baskets. *)
Lemma apriori_itemset_occurs transactions minSupport fis f :
  comma_free transactions ->
  aprioriAlgorithm transactions minSupport = Some fis ->
  In f fis ->
  (exists t, In t transactions /\ incl (itemset f) t)
  /\ support f
     = div (of_Z (count f)) (of_Z (Z.of_nat (List.length transactions))).
Proof.
  intros Hcf H Hin.
  destruct (apriori_levels_In _ _ _ _ H Hin) as [H1|[H2|H3]].
  - apply apriori_singles_In in H1 as (x & Hi & Hx & _ & Hs & _).
    split; [|exact Hs].
    apply in_concat_baskets in Hx as [t [Ht Hx]].
    exists t. split; [exact Ht|]. rewrite Hi. intros y [<-|[]]. exact Hx.
  - apply level_In in H2 as (c & t & _ & Ht & E & Hi & _ & Hs & _);
      [|exact Hcf|apply combine_all_not_nil].
    split; [|exact Hs]. exists t. split; [exact Ht|].
    rewrite Hi. intros y Hy. apply (proj1 (sort_In _ _)) in Hy.
    apply (proj1 (contains_all_incl _ _) E), Hy.
  - apply level_In in H3 as (c & t & _ & Ht & E & Hi & _ & Hs & _);
      [|exact Hcf|].
    + split; [|exact Hs]. exists t. split; [exact Ht|].
      rewrite Hi. intros y Hy. apply (proj1 (sort_In _ _)) in Hy.
      apply (proj1 (contains_all_incl _ _) E), Hy.
    + intro c. rewrite level_snd. apply combine_all_not_nil.
Qed.

(** ** The candidates of [aprioriAlgorithm] without commas *)

Lemma frequent_entries_map_filter mk msc total counts :
  frequent_entries mk msc total counts
  = map (fun '(key, c) =>
           mkFrequentItemset (mk key) (div (of_Z c) (of_Z total)) c)
        (filter (fun '(_, c) => geb (of_Z c) msc) counts).
Proof.
  unfold frequent_entries.
  induction counts as [|[key c] counts IH]; [reflexivity|].
  cbn [flat_map filter]. rewrite IH.
  now destruct (geb (of_Z c) msc).
Qed.

Lemma frequent_entries_itemsets mk msc total counts :
  map itemset (frequent_entries mk msc total counts)
  = map mk (frequent_keys msc counts).
Proof.
  rewrite frequent_entries_map_filter. unfold frequent_keys.
  rewrite !map_map. apply map_ext. now intros [key c].
Qed.

Lemma NoDup_map_fst_filter {V : Type} (p : string * V -> bool) (m : Map V) :
  NoDup (map fst m) -> NoDup (map fst (filter p m)).
Proof.
  induction m as [|[k v] m IH]; simpl; intro H; [constructor|].
  inversion H as [|? ? Hn Hnd]; subst.
  destruct (p (k, v)); simpl; [|exact (IH Hnd)].
  constructor; [|exact (IH Hnd)].
  intro Hin. apply Hn. apply in_map_iff in Hin as [[k' v'] [E Hin]].
  apply filter_In in Hin as [Hin _]. simpl in E. subst k'.
  apply (in_map fst) in Hin. exact Hin.
Qed.

Lemma frequent_keys_NoDup msc ks :
  NoDup (frequent_keys msc (fold_left bump ks [])).
Proof.
  apply NoDup_map_fst_filter.
  apply (fold_bump_spec ks [] (NoDup_nil _)).
Qed.

Lemma frequent_keys_In msc ks k :
  In k (frequent_keys msc (fold_left bump ks [])) <->
  In k ks /\ geb (of_Z (bumps ks k)) msc = true.
Proof.
  unfold frequent_keys. rewrite in_map_iff. split.
  - intros [[k' c] [E H]]. simpl in E. subst k'.
    apply filter_In in H as [H G].
    apply fold_bump_entries in H as [H ->]. auto.
  - intros [H G]. exists (k, bumps ks k). split; [reflexivity|].
    apply filter_In. split; [|exact G].
    apply fold_bump_entries. auto.
Qed.

Lemma combine_all_singletons items :
  combine_all 2 (map (fun x => [x]) items) = all_pairs items.
Proof.
  induction items as [|x rest IH]; simpl; [reflexivity|].
  rewrite IH. f_equal.
  clear IH. induction rest as [|y rest IH]; simpl; [reflexivity|].
  now rewrite IH.
Qed.

Lemma sort_pair a b :
  sort [a; b] = if String.leb a b then [a; b] else [b; a].
Proof. reflexivity. Qed.

Lemma sort_pair_swap a b : sort [a; b] = sort [b; a].
Proof.
  rewrite !sort_pair.
  destruct (String.leb a b) eqn:E1, (String.leb b a) eqn:E2; try reflexivity.
  - now rewrite (String.leb_antisym _ _ E1 E2).
  - apply leb_false_flip in E1. congruence.
Qed.

Lemma sort_pair_inj a b a' b' :
  sort [a; b] = sort [a'; b'] ->
  (a = a' /\ b = b') \/ (a = b' /\ b = a').
Proof.
  intro E. apply Permutation_length_2.
  eapply perm_trans; [apply Permutation_sym, sort_perm|].
  rewrite E. apply sort_perm.
Qed.

Lemma all_pairs_In items c :
  In c (all_pairs items) ->
  exists a b, In a items /\ In b items /\ c = sort [a; b].
Proof.
  induction items as [|x rest IH]; simpl; [contradiction|].
  rewrite in_app_iff, in_map_iff. intros [[y [<- Hy]]|H].
  - exists x, y. auto.
  - destruct (IH H) as (a & b & Ha & Hb & ->). exists a, b. auto.
Qed.

Lemma all_pairs_complete items a b :
  In a items -> In b items -> a <> b -> In (sort [a; b]) (all_pairs items).
Proof.
  induction items as [|x rest IH]; simpl; [contradiction|].
  intros [->|Ha] [->|Hb] Hne; rewrite in_app_iff.
  - contradiction.
  - left. apply in_map_iff. now exists b.
  - left. apply in_map_iff. exists a. split; [apply sort_pair_swap|exact Ha].
  - right. now apply IH.
Qed.

Lemma all_pairs_NoDup items : NoDup items -> NoDup (all_pairs items).
Proof.
  induction 1 as [|x rest Hn Hnd IH]; simpl; [constructor|].
  apply NoDup_app.
  - clear IH. induction Hnd as [|y rest Hy Hnd IH]; simpl; [constructor|].
    constructor.
    + rewrite in_map_iff. intros [z [E Hz]].
      apply sort_pair_inj in E as [[_ E]|[E _]].
      * subst z. contradiction.
      * apply Hn. left. congruence.
    + apply IH. intro H. apply Hn. now right.
  - exact IH.
  - intros c Hc Hc'. apply in_map_iff in Hc as [y [<- Hy]].
    apply all_pairs_In in Hc' as (a & b & Ha & Hb & E).
    apply sort_pair_inj in E as [[-> _]|[-> _]]; contradiction.
Qed.

Lemma all_pairs_distinct items c :
  NoDup items -> In c (all_pairs items) ->
  exists a b, In a items /\ In b items /\ a <> b
              /\ String.leb a b = true /\ c = [a; b].
Proof.
  induction 1 as [|x rest Hn Hnd IH]; cbn [all_pairs]; [intros []|].
  rewrite in_app_iff, in_map_iff. intros [[y [<- Hy]]|H].
  - assert (Hxy : x <> y) by (intros ->; contradiction).
    rewrite sort_pair. destruct (String.leb x y) eqn:E.
    + exists x, y. simpl. auto 7.
    + exists y, x. apply leb_false_flip in E. simpl. auto 8.
  - destruct (IH H) as (a & b & Ha & Hb & R). exists a, b. simpl. auto.
Qed.

Lemma NoDup_map_in_inj {A B : Type} (g : A -> B) (l : list A) :
  (forall x y, In x l -> In y l -> g x = g y -> x = y) ->
  NoDup l -> NoDup (map g l).
Proof.
  intros Hinj Hnd. induction Hnd as [|x l Hn Hnd IH]; simpl; constructor.
  - rewrite in_map_iff. intros [y [E Hy]].
    apply Hn. rewrite (Hinj x y); simpl; auto.
  - apply IH. intros a b Ha Hb. apply Hinj; now right.
Qed.

Lemma strict_pair_plain_sort s : strict_pair s -> sort s = s /\ s <> [].
Proof.
  intros (a & b & -> & _ & L). rewrite sort_pair, L. split; [reflexivity|].
  discriminate.
Qed.

Lemma all_pairs_strict items c :
  NoDup items -> In c (all_pairs items) -> strict_pair c.
Proof.
  intros Hnd Hc.
  destruct (all_pairs_distinct items c Hnd Hc) as (a & b & _ & _ & Hne & L & ->).
  now exists a, b.
Qed.

Lemma sort_eq_perm l l' : sort l = sort l' -> Permutation l l'.
Proof.
  intro E. eapply perm_trans; [apply Permutation_sym, sort_perm|].
  rewrite E. apply sort_perm.
Qed.

Lemma leb_refl a : String.leb a a = true.
Proof. destruct (String.leb_total a a); assumption. Qed.

(** The join of two strict pairs that share their first member. *)
Lemma combine_pair_strict s1 s2 c :
  strict_pair s1 -> strict_pair s2 ->
  In c (combine_pair 3 s1 s2) ->
  exists a b x,
    s1 = [a; b] /\ s2 = [a; x] /\ c = sort [a; b; x]
    /\ a <> b /\ String.leb a b = true /\ a <> x /\ String.leb a x = true.
Proof.
  intros (a & b & -> & Hab & Lab) (a' & x & -> & Hax & Lax).
  unfold combine_pair, canCombine. simpl.
  destruct (String.eqb a a') eqn:E; simpl; [|contradiction].
  apply String.eqb_eq in E. subst a'.
  intros [<-|[]]. exists a, b, x. auto 10.
Qed.

Lemma combine3_In sets c :
  (forall s, In s sets -> strict_pair s) ->
  In c (combine_all 3 sets) ->
  exists a b x,
    In [a; b] sets /\ In [a; x] sets /\ c = sort [a; b; x]
    /\ a <> b /\ String.leb a b = true /\ a <> x /\ String.leb a x = true.
Proof.
  intro Hall. induction sets as [|s1 rest IH]; cbn [combine_all];
    [intros []|].
  rewrite in_app_iff, in_flat_map. intros [[s2 [Hs2 Hc]]|Hc].
  - apply combine_pair_strict in Hc
      as (a & b & x & -> & -> & -> & R);
      [|apply Hall; now left|apply Hall; now right].
    exists a, b, x. simpl. auto.
  - destruct IH as (a & b & x & H1 & H2 & R); [|exact Hc|].
    + intros s Hs. apply Hall. now right.
    + exists a, b, x. simpl. auto.
Qed.

(** The first member of a strict pair is the least member of the triple. *)
Lemma triple_least a b x y :
  String.leb a b = true -> String.leb a x = true ->
  In y [a; b; x] -> String.leb a y = true.
Proof.
  intros Lb Lx [<-|[<-|[<-|[]]]]; auto using leb_refl.
Qed.

Lemma triple_same a b x a' b' x' :
  String.leb a b = true -> String.leb a x = true ->
  String.leb a' b' = true -> String.leb a' x' = true ->
  sort [a; b; x] = sort [a'; b'; x'] ->
  a = a' /\ ((b = b' /\ x = x') \/ (b = x' /\ x = b')).
Proof.
  intros Lb Lx Lb' Lx' E. apply sort_eq_perm in E.
  assert (Ea : a = a').
  { apply String.leb_antisym.
    - apply (triple_least a b x); try assumption.
      eapply Permutation_in; [apply Permutation_sym, E|now left].
    - apply (triple_least a' b' x'); try assumption.
      eapply Permutation_in; [exact E|now left]. }
  subst a'. split; [reflexivity|].
  apply Permutation_cons_inv in E. now apply Permutation_length_2.
Qed.

Lemma combine3_NoDup sets :
  NoDup sets ->
  (forall s, In s sets -> strict_pair s) ->
  NoDup (combine_all 3 sets).
Proof.
  induction 1 as [|s1 rest Hn Hnd IH]; intro Hall; cbn [combine_all];
    [constructor|].
  assert (Hrest : forall s, In s rest -> strict_pair s)
    by (intros; apply Hall; now right).
  assert (H1 : strict_pair s1) by (apply Hall; now left).
  apply NoDup_app.
  - clear IH Hn. induction Hnd as [|s2 rest Hn2 Hnd IH]; cbn [flat_map];
      [constructor|].
    assert (Hrest' : forall s, In s rest -> strict_pair s)
      by (intros; apply Hrest; now right).
    assert (Hall' : forall s, In s (s1 :: rest) -> strict_pair s)
      by (intros s [<-|Hs]; auto).
    apply NoDup_app.
    + unfold combine_pair.
      destruct (canCombine 3 s1 s2); [|constructor].
      destruct (last_member s2); repeat constructor. intros [].
    + apply IH; assumption.
    + intros c Hc Hc'. apply in_flat_map in Hc' as [s3 [Hs3 Hc']].
      apply combine_pair_strict in Hc
        as (a & b & x & -> & -> & -> & _ & Lb & _ & Lx);
        [|exact H1|apply Hrest; now left].
      apply combine_pair_strict in Hc'
        as (a' & b' & x' & E1 & -> & E & _ & Lb' & _ & Lx');
        [|exact H1|apply Hrest'; exact Hs3].
      injection E1 as <- <-.
      apply sort_eq_perm in E.
      do 2 apply Permutation_cons_inv in E.
      apply Permutation_length_1 in E. subst x'. contradiction.
  - apply IH, Hrest.
  - intros c Hc Hc'. apply in_flat_map in Hc as [s2 [Hs2 Hc]].
    apply combine_pair_strict in Hc
      as (a & b & x & -> & -> & -> & _ & Lb & _ & Lx);
      [|exact H1|apply Hrest, Hs2].
    apply (combine3_In rest _ Hrest) in Hc'
      as (a' & b' & x' & Hs1' & Hs2' & E & _ & Lb' & _ & Lx').
    apply triple_same in E as [<- [[<- <-]|[<- <-]]]; try assumption;
      contradiction.
Qed.

(** ** Keys are faithful without commas *)

Lemma join_sort_inj c c' :
  plain c -> plain c' -> join (sort c') = join (sort c) -> c' = c.
Proof.
  intros (Hs & Hn & Hc) (Hs' & Hn' & Hc') E.
  rewrite Hs, Hs' in E.
  rewrite <- (split_join c Hn Hc), <- (split_join c' Hn' Hc'). now rewrite E.
Qed.

Lemma bumps_single k key :
  bumps [k] key = if string_dec k key then 1%Z else 0%Z.
Proof. unfold bumps. simpl. now destruct (string_dec k key). Qed.

Lemma bumps_nil key : bumps [] key = 0%Z.
Proof. reflexivity. Qed.

Lemma plain_in_basket (t c : list string) :
  (forall x, In x t -> no_comma x = true) ->
  sort c = c -> c <> [] -> contains_all t c = true -> plain c.
Proof.
  intros Ht Hs Hn E. repeat split; try assumption.
  intros x Hx. apply Ht. apply (proj1 (contains_all_incl _ _) E), Hx.
Qed.

(** One basket bumps the key of a candidate once when it contains the
    candidate, and not at all when it does not. *)
Lemma basket_keys_bumps t cands c :
  (forall x, In x t -> no_comma x = true) ->
  (forall c', In c' cands -> sort c' = c' /\ c' <> []) ->
  plain c ->
  (~ In c cands -> bumps (basket_keys t cands) (join (sort c)) = 0%Z)
  /\ (NoDup cands -> In c cands ->
      bumps (basket_keys t cands) (join (sort c))
      = if contains_all t c then 1%Z else 0%Z).
Proof.
  intros Ht Hall Hc. unfold basket_keys.
  induction cands as [|c' rest IH]; simpl.
  - split; [reflexivity|contradiction].
  - assert (Hrest : forall c'', In c'' rest -> sort c'' = c'' /\ c'' <> [])
      by (intros; apply Hall; now right).
    destruct (IH Hrest) as [IH0 IH1]. clear IH.
    assert (Hhead : c' <> c ->
              bumps (if contains_all t c' then [join (sort c')] else [])
                    (join (sort c)) = 0%Z).
    { intro Hne. destruct (contains_all t c') eqn:E; [|reflexivity].
      rewrite bumps_single.
      destruct (string_dec _ _) as [K|K]; [|reflexivity].
      exfalso. apply Hne. apply join_sort_inj; [exact Hc| |exact K].
      destruct (Hall c' (or_introl eq_refl)) as [Hs Hn].
      exact (plain_in_basket t c' Ht Hs Hn E). }
    split.
    + intro Hnin. rewrite bumps_app, Hhead, IH0; [reflexivity| |];
        intro H; apply Hnin; [now right|now left].
    + intros Hnd [->|Hin]; inversion Hnd as [|? ? Hn Hnd']; subst;
        rewrite bumps_app.
      * rewrite (IH0 Hn). destruct (contains_all t c); [|reflexivity].
        rewrite bumps_single.
        destruct (string_dec _ _); [reflexivity|contradiction].
      * rewrite Hhead, (IH1 Hnd' Hin); [reflexivity|].
        intros ->. contradiction.
Qed.

(** The count of a level is the number of baskets with the candidate. *)
Lemma bumps_candidate_keys transactions cands c :
  comma_free transactions ->
  NoDup cands ->
  (forall c', In c' cands -> sort c' = c' /\ c' <> []) ->
  In c cands -> plain c ->
  bumps (candidate_keys transactions cands) (join (sort c))
  = basket_count transactions c.
Proof.
  intros Hcf Hnd Hall Hin Hc.
  induction transactions as [|t ts IH].
  - reflexivity.
  - change (candidate_keys (t :: ts) cands)
      with (basket_keys t cands ++ candidate_keys ts cands).
    rewrite bumps_app, basket_count_cons, IH.
    + f_equal.
      apply (basket_keys_bumps t cands c); try assumption.
      intros x Hx. apply (Hcf t x); [now left|exact Hx].
    + intros t' x Ht'. apply Hcf. now right.
Qed.

(** ** The three levels without commas *)

Lemma singles_sets transactions minSupport :
  let total := Z.of_nat (List.length transactions) in
  let msc := minSupportCount minSupport total in
  map sort (map itemset
              (frequent_entries (fun item => [item]) msc total
                 (count_items transactions)))
  = map (fun x => [x]) (frequent_items transactions minSupport).
Proof.
  cbv zeta. rewrite frequent_entries_itemsets, map_map. reflexivity.
Qed.

Lemma frequent_items_NoDup transactions minSupport :
  NoDup (frequent_items transactions minSupport).
Proof.
  unfold frequent_items. rewrite count_items_flat. apply frequent_keys_NoDup.
Qed.

Lemma frequent_items_In transactions minSupport x :
  In x (frequent_items transactions minSupport) <->
  In x (List.concat transactions)
  /\ geb (of_Z (bumps (List.concat transactions) x))
         (minSupportCount minSupport (Z.of_nat (List.length transactions)))
     = true.
Proof.
  unfold frequent_items. rewrite count_items_flat. apply frequent_keys_In.
Qed.

Lemma level2_candidates transactions minSupport :
  let total := Z.of_nat (List.length transactions) in
  let msc := minSupportCount minSupport total in
  combine_all 2
    (map sort (map itemset
                 (frequent_entries (fun item => [item]) msc total
                    (count_items transactions))))
  = all_pairs (frequent_items transactions minSupport).
Proof.
  cbv zeta. rewrite <- combine_all_singletons. f_equal.
  apply singles_sets.
Qed.

Lemma level3_candidates transactions minSupport :
  let total := Z.of_nat (List.length transactions) in
  let msc := minSupportCount minSupport total in
  snd (level transactions msc total 2
         (all_pairs (frequent_items transactions minSupport)))
  = combine_all 3 (frequent_pairs transactions minSupport).
Proof. cbv zeta. rewrite level_snd. reflexivity. Qed.

(** The three levels of [aprioriAlgorithm], named. *)
Lemma aprioriAlgorithm_In transactions minSupport fis f :
  aprioriAlgorithm transactions minSupport = Some fis ->
  In f fis ->
  let total := Z.of_nat (List.length transactions) in
  let msc := minSupportCount minSupport total in
  let singles := frequent_entries (fun item => [item]) msc total
                   (count_items transactions) in
  In f (write_back singles (snd (generateCandidates (map itemset singles) 2)))
  \/ In f (fst (level transactions msc total 2
                  (all_pairs (frequent_items transactions minSupport))))
  \/ In f (fst (level transactions msc total 3
                  (combine_all 3 (frequent_pairs transactions minSupport)))).
Proof.
  intros H Hin total msc singles.
  pose proof (apriori_levels_In _ _ _ _ H Hin) as Hl. cbv zeta in Hl.
  pose proof (level2_candidates transactions minSupport) as E2.
  pose proof (level3_candidates transactions minSupport) as E3.
  cbv zeta in E2, E3. rewrite E2, E3 in Hl. exact Hl.
Qed.

Section WithoutCommas.
Variable transactions : list (list string).
Variable minSupport : number.
Hypothesis Hcf : comma_free transactions.

Let total : Z := Z.of_nat (List.length transactions).
Let msc : number := minSupportCount minSupport total.
Let items : list string := frequent_items transactions minSupport.

(** A record of level 2: a pair of frequent identifiers in canonical order,
    found together in some basket, counted by the baskets that hold both. *)
Lemma level2_In f :
  In f (fst (level transactions msc total 2 (all_pairs items))) ->
  exists a b,
    In a items /\ In b items /\ a <> b /\ String.leb a b = true
    /\ itemset f = [a; b]
    /\ count f = basket_count transactions [a; b]
    /\ (0 < count f)%Z
    /\ support f = div (of_Z (count f)) (of_Z total)
    /\ geb (of_Z (count f)) msc = true.
Proof.
  intros Hin.
  pose proof (frequent_items_NoDup transactions minSupport) as Hnd.
  fold items in Hnd.
  assert (Hall : forall c', In c' (all_pairs items) -> sort c' = c' /\ c' <> []).
  { intros c' Hc'. apply strict_pair_plain_sort.
    exact (all_pairs_strict _ _ Hnd Hc'). }
  apply level_In in Hin as (c & t & Hc & Ht & E & Hi & Hcount & Hs & G);
    [|exact Hcf|intros c' Hc'; apply Hall, Hc'].
  destruct (all_pairs_distinct _ _ Hnd Hc) as (a & b & Ha & Hb & Hne & L & ->).
  destruct (Hall _ Hc) as [Hsort Hnn].
  assert (Hp : plain [a; b]).
  { apply (plain_in_basket t); try assumption.
    intros x Hx. exact (Hcf t x Ht Hx). }
  rewrite Hsort in Hi.
  rewrite (bumps_candidate_keys _ _ _ Hcf (all_pairs_NoDup _ Hnd) Hall Hc Hp)
    in Hcount.
  exists a, b. repeat split; try assumption.
  rewrite Hcount. apply (basket_count_pos _ _ t Ht).
  now apply contains_all_incl.
Qed.

(** The pairs that enter the join of level 3: distinct, each a strict pair
    found in some basket. *)
Lemma frequent_pairs_spec :
  NoDup (frequent_pairs transactions minSupport)
  /\ forall s, In s (frequent_pairs transactions minSupport) -> strict_pair s.
Proof.
  unfold frequent_pairs. cbv zeta. fold total. fold msc. fold items.
  pose proof (frequent_items_NoDup transactions minSupport) as Hnd.
  fold items in Hnd.
  rewrite frequent_entries_itemsets, map_map, count_candidates_flat.
  assert (Hkey : forall k,
            In k (frequent_keys msc
                    (fold_left bump (candidate_keys transactions
                                       (all_pairs items)) [])) ->
            exists c, In c (all_pairs items) /\ k = join c
                      /\ sort (split k) = c).
  { intros k Hk. apply frequent_keys_In in Hk as [Hk _].
    apply candidate_keys_In in Hk as (t & c & Ht & Hc & E & ->).
    destruct (strict_pair_plain_sort c (all_pairs_strict _ _ Hnd Hc))
      as [Hs Hn].
    exists c. rewrite Hs. repeat split; [exact Hc|].
    rewrite split_join; [exact Hs|exact Hn|].
    intros x Hx. apply (Hcf t x Ht).
    apply (proj1 (contains_all_incl _ _) E), Hx. }
  split.
  - apply NoDup_map_in_inj; [|apply frequent_keys_NoDup].
    intros k k' Hk Hk' E.
    destruct (Hkey k Hk) as (c & _ & -> & Ec).
    destruct (Hkey k' Hk') as (c' & _ & -> & Ec').
    congruence.
  - intros s Hs. apply in_map_iff in Hs as [k [<- Hk]].
    destruct (Hkey k Hk) as (c & Hc & _ & ->).
    exact (all_pairs_strict _ _ Hnd Hc).
Qed.

(** A record of level 3: three different identifiers in canonical order,
    found together in some basket, counted by the baskets with all three. *)
Lemma level3_In f :
  In f (fst (level transactions msc total 3
               (combine_all 3 (frequent_pairs transactions minSupport)))) ->
  canonical (itemset f)
  /\ List.length (itemset f) = 3
  /\ count f = basket_count transactions (itemset f)
  /\ (0 < count f)%Z
  /\ support f = div (of_Z (count f)) (of_Z total)
  /\ geb (of_Z (count f)) msc = true.
Proof.
  intros Hin.
  destruct frequent_pairs_spec as [Hnd Hstrict].
  set (sets := frequent_pairs transactions minSupport) in *.
  assert (Hall : forall c', In c' (combine_all 3 sets) ->
                            sort c' = c' /\ c' <> []).
  { intros c' Hc'. split; [|exact (combine_all_not_nil _ _ _ Hc')].
    apply combine_all_In in Hc' as (s1 & s2 & x & _ & _ & _ & _ & ->).
    apply sort_idempotent. }
  apply level_In in Hin as (c & t & Hc & Ht & E & Hi & Hcount & Hs & G);
    [|exact Hcf|intros c' Hc'; apply Hall, Hc'].
  destruct (Hall _ Hc) as [Hsort Hnn].
  assert (Hp : plain c).
  { apply (plain_in_basket t); try assumption.
    intros x Hx. exact (Hcf t x Ht Hx). }
  rewrite Hsort in Hi.
  rewrite (bumps_candidate_keys _ _ _ Hcf (combine3_NoDup _ Hnd Hstrict)
             Hall Hc Hp) in Hcount.
  rewrite Hi. repeat split; try assumption.
  - rewrite <- Hsort. apply sort_canonical.
  - apply (combine3_In _ _ Hstrict) in Hc as (a & b & x & _ & _ & -> & _).
    now rewrite sort_length.
  - rewrite Hcount. apply (basket_count_pos _ _ t Ht).
    now apply contains_all_incl.
Qed.

(** X1: [aprioriAlgorithm] on baskets that are sets of identifiers without
    commas: every itemset it returns has its members in canonical order,
    its count is the number of baskets with all members, its support is the
    count over the number of baskets, the count is at least
    ceil(min_support * baskets), and it has one, two or three members. *)
Theorem aprioriAlgorithm_sound
    (fis : list FrequentItemset) (f : FrequentItemset) :
  baskets transactions ->
  aprioriAlgorithm transactions minSupport = Some fis ->
  In f fis ->
  canonical (itemset f)
  /\ count f = basket_count transactions (itemset f)
  /\ support f = div (of_Z (count f)) (of_Z total)
  /\ geb (of_Z (count f)) msc = true
  /\ 1 <= List.length (itemset f) <= 3.
Proof.
  intros Hb H Hin.
  destruct (aprioriAlgorithm_In _ _ _ _ H Hin) as [H1|[H2|H3]].
  - apply apriori_singles_In in H1 as (x & Hi & Hx & Hc & Hs & G).
    rewrite Hi. repeat split; try assumption; try (simpl; lia).
    + repeat constructor.
    + rewrite Hc. now apply bumps_concat.
  - apply level2_In in H2
      as (a & b & _ & _ & _ & L & Hi & Hc & _ & Hs & G).
    rewrite Hi. repeat split; try assumption; try (simpl; lia).
    repeat constructor. exact L.
  - apply level3_In in H3 as (Hcan & Hl & Hc & _ & Hs & G).
    repeat split; try assumption; lia.
Qed.

End WithoutCommas.

Lemma aprioriAlgorithm_sound_witness :
  canonical ["Bread"; "Butter"; "Milk"]
  /\ 1%Z = basket_count one_basket ["Bread"; "Butter"; "Milk"].
Proof.
  destruct (aprioriAlgorithm_sound one_basket one_half one_basket_comma_free
              one_basket_itemsets
              (mkFrequentItemset ["Bread"; "Butter"; "Milk"] (Fin 1) 1)
              one_basket_baskets one_basket_run)
    as (Hc & Hn & _).
  - simpl. tauto.
  - split; [exact Hc|exact Hn].
Defined.

(** ** What [fpGrowthAlgorithm] returns *)

(** The frequency order of [fpGrowthAlgorithm] moves entries, nothing else. *)
Lemma insert_by_count_perm e l : Permutation (insert_by_count e l) (e :: l).
Proof.
  induction l as [|e' l IH]; simpl.
  - apply Permutation_refl.
  - destruct (snd e' - snd e <=? 0)%Z.
    + apply Permutation_refl.
    + eapply perm_trans; [apply perm_skip, IH | apply perm_swap].
Qed.

Lemma sort_by_count_perm l : Permutation (sort_by_count l) l.
Proof.
  induction l as [|e l IH]; simpl.
  - constructor.
  - eapply perm_trans; [apply insert_by_count_perm | apply perm_skip, IH].
Qed.

Lemma insert_by_count_hd e l a :
  HdRel (fun x y => (snd y <= snd x)%Z) a l -> (snd e <= snd a)%Z ->
  HdRel (fun x y => (snd y <= snd x)%Z) a (insert_by_count e l).
Proof.
  intros Hl He. destruct l as [|e' l]; simpl.
  - now constructor.
  - destruct (snd e' - snd e <=? 0)%Z; constructor.
    + exact He.
    + now inversion Hl.
Qed.

(** The frequency order is descending by count. *)
Lemma sort_by_count_descending l :
  Sorted (fun x y => (snd y <= snd x)%Z) (sort_by_count l).
Proof.
  induction l as [|e l IH]; simpl; [constructor|].
  induction IH as [|e' l' Hs IH Hd]; simpl.
  - repeat constructor.
  - destruct (Z.leb_spec (snd e' - snd e) 0) as [L|L].
    + constructor; [now constructor|]. constructor. lia.
    + constructor; [exact IH|].
      apply insert_by_count_hd; [exact Hd|lia].
Qed.

Lemma sortedItems_In transactions msc x c :
  In (x, c) (sortedItems transactions msc) <->
  In x (List.concat transactions)
  /\ c = bumps (List.concat transactions) x
  /\ geb (of_Z c) msc = true.
Proof.
  unfold sortedItems. rewrite filter_In.
  assert (P : In (x, c) (sort_by_count (count_items transactions))
              <-> In x (List.concat transactions)
                  /\ c = bumps (List.concat transactions) x).
  { rewrite <- fold_bump_entries, <- count_items_flat.
    split; apply Permutation_in;
      [|apply Permutation_sym]; apply sort_by_count_perm. }
  rewrite P. tauto.
Qed.

Lemma pair_entries_In transactions msc total items f :
  In f (pair_entries transactions msc total items) ->
  exists a b,
    In a items /\ In b items
    /\ f = mkFrequentItemset (sort [a; b])
             (div (of_Z (basket_count transactions [a; b])) (of_Z total))
             (basket_count transactions [a; b])
    /\ geb (of_Z (basket_count transactions [a; b])) msc = true.
Proof.
  induction items as [|a rest IH]; simpl; [contradiction|].
  rewrite in_app_iff, in_flat_map. intros [[b [Hb Hf]]|Hf].
  - unfold pair_entry in Hf.
    destruct (geb _ msc) eqn:G; [|contradiction].
    destruct Hf as [<-|[]]. exists a, b. auto.
  - destruct (IH Hf) as (a' & b' & Ha & Hb & H). exists a', b'. auto.
Qed.

(** What [fpGrowthAlgorithm] returns: singletons of counted identifiers and
    pairs of them. *)
Lemma fpGrowthAlgorithm_In transactions minSupport f :
  In f (fpGrowthAlgorithm transactions minSupport) ->
  let total := Z.of_nat (List.length transactions) in
  let msc := minSupportCount minSupport total in
  (exists x,
      In x (List.concat transactions)
      /\ f = mkFrequentItemset [x]
               (div (of_Z (bumps (List.concat transactions) x)) (of_Z total))
               (bumps (List.concat transactions) x)
      /\ geb (of_Z (count f)) msc = true)
  \/ (exists a b,
        In a (List.concat transactions) /\ In b (List.concat transactions)
        /\ f = mkFrequentItemset (sort [a; b])
                 (div (of_Z (basket_count transactions [a; b])) (of_Z total))
                 (basket_count transactions [a; b])
        /\ geb (of_Z (count f)) msc = true).
Proof.
  unfold fpGrowthAlgorithm. cbv zeta. rewrite in_app_iff.
  intros [H|H].
  - left. apply in_map_iff in H as [[x c] [<- H]].
    apply sortedItems_In in H as (Hx & -> & G). exists x. auto.
  - right. apply pair_entries_In in H as (a & b & Ha & Hb & -> & G).
    apply in_map_iff in Ha as [[a' ca] [<- Ha]].
    apply in_map_iff in Hb as [[b' cb] [<- Hb]].
    apply sortedItems_In in Ha as (Ha & _).
    apply sortedItems_In in Hb as (Hb & _).
    exists a', b'. auto.
Qed.

(** X2: [fpGrowthAlgorithm] on any list of baskets that are sets: every itemset
    it returns has its members in canonical order, its count is the number
    of baskets with all members, its support is the count over the number
    of baskets, the count is at least ceil(min_support * baskets), and it
    has one or two members. *)
Theorem fpGrowthAlgorithm_sound
    (transactions : list (list string)) (minSupport : number)
    (f : FrequentItemset) :
  baskets transactions ->
  In f (fpGrowthAlgorithm transactions minSupport) ->
  let total := Z.of_nat (List.length transactions) in
  canonical (itemset f)
  /\ count f = basket_count transactions (itemset f)
  /\ support f = div (of_Z (count f)) (of_Z total)
  /\ geb (of_Z (count f)) (minSupportCount minSupport total) = true
  /\ 1 <= List.length (itemset f) <= 2.
Proof.
  intros Hb Hin total.
  apply fpGrowthAlgorithm_In in Hin.
  destruct Hin as [(x & Hx & -> & G)|(a & b & Ha & Hb' & -> & G)];
    cbn [itemset support count] in *.
  - repeat split; try assumption; try (simpl; lia).
    + repeat constructor.
    + now apply bumps_concat.
  - repeat split; try assumption.
    + apply sort_canonical.
    + now rewrite basket_count_sort.
    + rewrite sort_length. simpl. lia.
    + rewrite sort_length. simpl. lia.
Qed.

Lemma fpGrowthAlgorithm_sound_witness :
  canonical ["Butter"; "Milk"]
  /\ 1%Z = basket_count one_basket ["Butter"; "Milk"].
Proof.
  destruct (fpGrowthAlgorithm_sound one_basket one_half
              (mkFrequentItemset ["Butter"; "Milk"] (Fin 1) 1)
              one_basket_baskets)
    as (Hc & Hn & _).
  - vm_compute. tauto.
  - split; [exact Hc|exact Hn].
Defined.

(** ** The two miners side by side *)

Lemma Permutation_filter {A : Type} (p : A -> bool) (l l' : list A) :
  Permutation l l' -> Permutation (filter p l) (filter p l').
Proof.
  induction 1 as [|x l l' H IH|x y l|l l' l'' H1 IH1 H2 IH2]; simpl.
  - constructor.
  - destruct (p x); [apply perm_skip|]; exact IH.
  - destruct (p x), (p y); try apply Permutation_refl. apply perm_swap.
  - eapply perm_trans; eassumption.
Qed.

Lemma filter_all {A : Type} (p : A -> bool) (l : list A) :
  (forall x, In x l -> p x = true) -> filter p l = l.
Proof.
  induction l as [|a l IH]; simpl; intro H; [reflexivity|].
  rewrite (H a (or_introl eq_refl)), IH; auto.
Qed.

Lemma filter_none {A : Type} (p : A -> bool) (l : list A) :
  (forall x, In x l -> p x = false) -> filter p l = [].
Proof.
  induction l as [|a l IH]; simpl; intro H; [reflexivity|].
  rewrite (H a (or_introl eq_refl)), IH; auto.
Qed.

Lemma with_itemset_same g f :
  g (itemset f) = itemset f -> with_itemset g f = f.
Proof. destruct f as [i s c]. unfold with_itemset. simpl. now intros ->. Qed.

(** Sorting arrays that are sorted already changes no record. *)
Lemma write_back_sorted fs k :
  (forall f, In f fs -> sort (itemset f) = itemset f) ->
  write_back fs (snd (generateCandidates (map itemset fs) k)) = fs.
Proof.
  intro H. unfold generateCandidates. cbn [snd].
  destruct (2 <=? List.length (map itemset fs)).
  - rewrite write_back_map. rewrite <- (map_id fs) at 2.
    apply map_ext_in. intros f Hf. apply with_itemset_same, H, Hf.
  - apply write_back_same.
Qed.

Lemma apriori_singles_written transactions msc total k :
  let singles := frequent_entries (fun item => [item]) msc total
                   (count_items transactions) in
  write_back singles (snd (generateCandidates (map itemset singles) k))
  = singles.
Proof.
  intro singles. apply write_back_sorted. intros f Hf.
  apply frequent_entries_In in Hf as (x & c & _ & _ & ->). reflexivity.
Qed.

(** The singletons of the two miners are the same records. *)
Lemma singles_permutation transactions minSupport :
  let total := Z.of_nat (List.length transactions) in
  let msc := minSupportCount minSupport total in
  Permutation
    (map (fun '(item, c) =>
            mkFrequentItemset [item] (div (of_Z c) (of_Z total)) c)
         (sortedItems transactions msc))
    (frequent_entries (fun item => [item]) msc total (count_items transactions)).
Proof.
  cbv zeta. rewrite frequent_entries_map_filter. unfold sortedItems.
  apply Permutation_map, Permutation_filter, sort_by_count_perm.
Qed.

Lemma sortedItems_items transactions minSupport :
  let msc := minSupportCount minSupport (Z.of_nat (List.length transactions)) in
  Permutation (map fst (sortedItems transactions msc))
              (frequent_items transactions minSupport).
Proof.
  cbv zeta. unfold sortedItems, frequent_items, frequent_keys.
  apply Permutation_map, Permutation_filter, sort_by_count_perm.
Qed.

Lemma basket_count_pos_inv transactions items :
  (0 < basket_count transactions items)%Z ->
  exists t, In t transactions /\ contains_all t items = true.
Proof.
  unfold basket_count. intro H.
  destruct (filter (fun t => contains_all t items) transactions)
    as [|t l] eqn:E; [simpl in H; lia|].
  assert (Hin : In t (filter (fun t => contains_all t items) transactions))
    by (rewrite E; now left).
  apply filter_In in Hin. now exists t.
Qed.

(** With min_support in (0,1] and at least one basket the threshold is at
    least one basket. *)
Lemma minSupportCount_pos minSupport (n c : Z) :
  in_unit minSupport -> (0 < n)%Z ->
  geb (of_Z c) (minSupportCount minSupport n) = true -> (0 < c)%Z.
Proof.
  intros (q & -> & Hq & _) Hn.
  unfold minSupportCount, mul, of_Z, ceil, geb.
  rewrite Qle_bool_iff, <- Zle_Qle. intro H.
  assert (Hpos : (0 < Qred (q * inject_Z n))%Q).
  { rewrite Qred_correct. apply Qmult_lt_0_compat; [exact Hq|].
    now apply inject_Z_pos. }
  pose proof (Qle_ceiling (Qred (q * inject_Z n))) as Hc.
  assert (Hz : (0 < inject_Z (Qceiling (Qred (q * inject_Z n))))%Q)
    by (eapply Qlt_le_trans; eassumption).
  apply (proj1 (inject_Z_pos _)) in Hz. lia.
Qed.

Lemma pair_record_swap transactions a b :
  pair_record transactions a b = pair_record transactions b a.
Proof.
  unfold pair_record.
  rewrite (sort_pair_swap a b).
  rewrite (basket_count_perm transactions [a; b] [b; a]) by apply perm_swap.
  reflexivity.
Qed.

Lemma pair_entry_In transactions msc a b f :
  In f (pair_entry transactions msc (Z.of_nat (List.length transactions)) a b)
  <-> f = pair_record transactions a b
      /\ geb (of_Z (basket_count transactions [a; b])) msc = true.
Proof.
  unfold pair_entry, pair_record. cbv zeta.
  destruct (geb _ msc); simpl; intuition congruence.
Qed.

(** The pairs of [fpGrowthAlgorithm]: every two different frequent
    identifiers whose common baskets reach the threshold, once. *)
Lemma pair_entries_spec transactions msc items f :
  NoDup items ->
  In f (pair_entries transactions msc
          (Z.of_nat (List.length transactions)) items)
  <-> exists a b,
        In a items /\ In b items /\ a <> b
        /\ f = pair_record transactions a b
        /\ geb (of_Z (basket_count transactions [a; b])) msc = true.
Proof.
  induction 1 as [|x rest Hn Hnd IH]; cbn [pair_entries].
  - split; [intros []|intros (a & b & [] & _)].
  - rewrite in_app_iff, in_flat_map, IH. split.
    + intros [[y [Hy Hf]]|(a & b & Ha & Hb & R)].
      * apply pair_entry_In in Hf as [-> G].
        exists x, y. repeat split; simpl; auto. intros ->. contradiction.
      * exists a, b. simpl. auto.
    + intros (a & b & [<-|Ha] & [<-|Hb] & Hne & -> & G).
      * contradiction.
      * left. exists b. split; [exact Hb|]. now apply pair_entry_In.
      * left. exists a. split; [exact Ha|]. apply pair_entry_In.
        split; [apply pair_record_swap|].
        now rewrite (basket_count_perm _ [x; a] [a; x]) by apply perm_swap.
      * right. exists a, b. auto.
Qed.

Lemma pair_record_inj transactions a b a' b' :
  pair_record transactions a b = pair_record transactions a' b' ->
  (a = a' /\ b = b') \/ (a = b' /\ b = a').
Proof.
  unfold pair_record. intro E. injection E as E _ _.
  now apply sort_pair_inj.
Qed.

Lemma pair_entries_NoDup transactions msc items :
  NoDup items ->
  NoDup (pair_entries transactions msc
           (Z.of_nat (List.length transactions)) items).
Proof.
  induction 1 as [|x rest Hn Hnd IH]; cbn [pair_entries]; [constructor|].
  apply NoDup_app.
  - clear IH. induction Hnd as [|y rest Hy Hnd IH]; cbn [flat_map];
      [constructor|].
    apply NoDup_app.
    + unfold pair_entry. destruct (geb _ msc); repeat constructor.
      intros [].
    + apply IH. intro H. apply Hn. now right.
    + intros f Hf Hf'. apply pair_entry_In in Hf as [-> _].
      apply in_flat_map in Hf' as [z [Hz Hf']].
      apply pair_entry_In in Hf' as [E _].
      apply pair_record_inj in E as [[_ E]|[_ E]].
      * subst z. contradiction.
      * apply Hn. left. exact E.
  - exact IH.
  - intros f Hf Hf'. apply in_flat_map in Hf as [y [Hy Hf]].
    apply pair_entry_In in Hf as [-> _].
    apply (pair_entries_spec _ _ _ _ Hnd) in Hf'
      as (a & b & Ha & Hb & _ & E & _).
    apply pair_record_inj in E as [[-> _]|[-> _]]; contradiction.
Qed.

Lemma aprioriAlgorithm_three_levels transactions minSupport :
  let total := Z.of_nat (List.length transactions) in
  let msc := minSupportCount minSupport total in
  aprioriAlgorithm transactions minSupport
  = Some (frequent_entries (fun item => [item]) msc total
            (count_items transactions)
          ++ fst (level transactions msc total 2
                    (all_pairs (frequent_items transactions minSupport)))
          ++ fst (level transactions msc total 3
                    (combine_all 3 (frequent_pairs transactions minSupport)))).
Proof.
  cbv zeta. rewrite aprioriAlgorithm_levels.
  pose proof (apriori_levels_unfold transactions minSupport) as U.
  pose proof (level2_candidates transactions minSupport) as E2.
  pose proof (level3_candidates transactions minSupport) as E3.
  cbv zeta in U, E2, E3.
  rewrite U, E2, E3, apriori_singles_written. reflexivity.
Qed.

Lemma frequent_items_occur transactions minSupport a :
  In a (frequent_items transactions minSupport) ->
  (0 < Z.of_nat (List.length transactions))%Z.
Proof.
  intro H. apply frequent_items_In in H as [H _].
  destruct transactions; [contradiction|simpl; lia].
Qed.

Section Agreement.
Variable transactions : list (list string).
Variable minSupport : number.
Hypothesis Hcf : comma_free transactions.
Hypothesis Hunit : in_unit minSupport.

Let total : Z := Z.of_nat (List.length transactions).
Let msc : number := minSupportCount minSupport total.
Let items : list string := frequent_items transactions minSupport.

(** The records of level 2 as [aprioriAlgorithm] returns them. *)
Lemma level2_records :
  let l2 := fst (level transactions msc total 2 (all_pairs items)) in
  NoDup l2
  /\ forall f, In f l2 <->
       exists a b,
         In a items /\ In b items /\ a <> b
         /\ f = pair_record transactions a b
         /\ (0 < basket_count transactions [a; b])%Z
         /\ geb (of_Z (basket_count transactions [a; b])) msc = true.
Proof.
  intros l2.
  pose proof (frequent_items_NoDup transactions minSupport) as Hnd.
  fold items in Hnd.
  set (raw := frequent_entries split msc total
                (count_candidates transactions (all_pairs items))).
  assert (Hall : forall c', In c' (all_pairs items) -> sort c' = c' /\ c' <> []).
  { intros c' Hc'. apply strict_pair_plain_sort.
    exact (all_pairs_strict _ _ Hnd Hc'). }
  assert (Hraw : forall f, In f raw ->
            exists c t, In c (all_pairs items) /\ In t transactions
                        /\ contains_all t c = true /\ itemset f = c).
  { intros f Hf. apply frequent_entries_In in Hf as (key & n & Hkey & _ & ->).
    rewrite count_candidates_flat in Hkey.
    apply fold_bump_entries in Hkey as [Hkey _].
    apply candidate_keys_In in Hkey as (t & c & Ht & Hc & E & ->).
    destruct (Hall c Hc) as [Hs Hn].
    exists c, t. repeat split; try assumption. cbn [itemset].
    rewrite Hs. apply split_join; [exact Hn|].
    intros x Hx. apply (Hcf t x Ht).
    apply (proj1 (contains_all_incl _ _) E), Hx. }
  assert (El2 : l2 = raw).
  { unfold l2. rewrite level_fst. cbv zeta. fold raw.
    apply write_back_sorted. intros f Hf.
    destruct (Hraw f Hf) as (c & _ & Hc & _ & _ & ->). apply Hall, Hc. }
  split.
  - rewrite El2. apply (NoDup_map_inv itemset), (NoDup_map_inv sort).
    exact (proj1 (frequent_pairs_spec transactions minSupport Hcf)).
  - intro f. split.
    + intro Hf. apply level2_In in Hf
        as (a & b & Ha & Hb & Hne & L & Hi & Hc & Hpos & Hs & G);
        [|exact Hcf].
      exists a, b. repeat split; try assumption; try congruence.
      * destruct f as [i s c]. cbn [itemset support count] in *.
        unfold pair_record. rewrite sort_pair, L. congruence.
      * rewrite <- Hc. exact G.
    + intros (a & b & Ha & Hb & Hne & -> & Hpos & G).
      rewrite El2. unfold raw. apply frequent_entries_In.
      apply basket_count_pos_inv in Hpos as [t [Ht E]].
      assert (Hc : In (sort [a; b]) (all_pairs items))
        by now apply all_pairs_complete.
      destruct (Hall _ Hc) as [Hs Hn].
      assert (E' : contains_all t (sort [a; b]) = true)
        by (rewrite (contains_all_perm t _ [a; b]); [exact E|apply sort_perm]).
      assert (Hp : plain (sort [a; b])).
      { apply (plain_in_basket t); try assumption.
        intros x Hx. exact (Hcf t x Ht Hx). }
      assert (Hcount :
                bumps (candidate_keys transactions (all_pairs items))
                      (join (sort (sort [a; b])))
                = basket_count transactions [a; b]).
      { rewrite (bumps_candidate_keys _ _ _ Hcf (all_pairs_NoDup _ Hnd)
                   Hall Hc Hp).
        apply basket_count_sort. }
      exists (join (sort (sort [a; b]))), (basket_count transactions [a; b]).
      split; [|split; [exact G|]].
      * rewrite count_candidates_flat. apply fold_bump_entries.
        split; [|now rewrite Hcount].
        apply candidate_keys_In. exists t, (sort [a; b]). auto.
      * unfold pair_record. f_equal. rewrite Hs.
        symmetry. apply split_join; [exact Hn|apply Hp].
Qed.

(** The pairs of the two miners are the same records when the threshold is
    at least one basket. *)
Lemma pairs_permutation :
  Permutation
    (pair_entries transactions msc total
       (map fst (sortedItems transactions msc)))
    (fst (level transactions msc total 2
            (all_pairs (frequent_items transactions minSupport)))).
Proof.
  pose proof (sortedItems_items transactions minSupport) as Hperm.
  cbv zeta in Hperm. fold total msc in Hperm.
  assert (Hnd : NoDup (map fst (sortedItems transactions msc))).
  { eapply Permutation_NoDup; [apply Permutation_sym, Hperm|].
    apply frequent_items_NoDup. }
  destruct level2_records as [Hnd2 Hin2].
  unfold items in Hnd2, Hin2.
  apply NoDup_Permutation;
    [apply pair_entries_NoDup, Hnd | exact Hnd2 |].
  intro f. rewrite Hin2. unfold total at 1.
  rewrite (pair_entries_spec _ _ _ _ Hnd).
  split; intros (a & b & Ha & Hb & Hne & Hf & R); exists a, b.
  - assert (Ha' : In a (frequent_items transactions minSupport))
      by (eapply Permutation_in; eassumption).
    assert (Hb' : In b (frequent_items transactions minSupport))
      by (eapply Permutation_in; eassumption).
    repeat split; try assumption.
    apply (minSupportCount_pos minSupport total); try assumption.
    exact (frequent_items_occur _ _ _ Ha').
  - destruct R as [_ G].
    repeat split; try assumption;
      (eapply Permutation_in; [apply Permutation_sym, Hperm|assumption]).
Qed.

(** X3: the two miners on identifiers without commas: with min_support in
    (0,1] the itemsets of [fpGrowthAlgorithm] are, up to order, the itemsets
    of at most two members of [aprioriAlgorithm], records and all. *)
Theorem miners_agree_up_to_pairs (fis : list FrequentItemset) :
  aprioriAlgorithm transactions minSupport = Some fis ->
  Permutation (fpGrowthAlgorithm transactions minSupport) (at_most_pairs fis).
Proof.
  intros H.
  pose proof (aprioriAlgorithm_three_levels transactions minSupport) as E.
  cbv zeta in E. rewrite E in H.
  assert (Hfis : Some fis = Some fis) by reflexivity.
  rewrite <- H in Hfis at 1. clear H.
  apply (f_equal (fun o => match o with Some l => l | None => fis end)) in Hfis.
  cbv beta iota in Hfis. rewrite <- Hfis. clear Hfis fis E.
  unfold at_most_pairs. rewrite !filter_app.
  rewrite (filter_all _ (frequent_entries _ _ _ _)).
  2:{ intros f Hf. apply frequent_entries_In in Hf as (x & c & _ & _ & ->).
      reflexivity. }
  rewrite (filter_all _ (fst (level _ _ _ 2 _))).
  2:{ intros f Hf. apply level2_In in Hf as (a & b & _ & _ & _ & _ & -> & _);
        [reflexivity|exact Hcf]. }
  rewrite (filter_none _ (fst (level _ _ _ 3 _))).
  2:{ intros f Hf. apply level3_In in Hf as (_ & -> & _);
        [reflexivity|exact Hcf]. }
  rewrite app_nil_r. unfold fpGrowthAlgorithm. cbv zeta.
  apply Permutation_app.
  - apply singles_permutation.
  - apply pairs_permutation.
Qed.

End Agreement.

Lemma miners_agree_up_to_pairs_witness :
  Permutation (fpGrowthAlgorithm one_basket one_half)
              (at_most_pairs one_basket_itemsets).
Proof.
  exact (miners_agree_up_to_pairs one_basket one_half
           one_basket_comma_free one_half_in_unit
           one_basket_itemsets one_basket_run).
Defined.

(** ** Identifiers with a comma *)

(** C1 at a failing input: for the one basket {"a,b", "c"} the Apriori miner
    returns the itemset a, b, c with count 1 and support 1, and no basket
    contains a, b and c; for the one basket {"b,a", "c"} it returns the
    members b, a, c, which are not in canonical order. *)
Theorem apriori_comma_count :
  aprioriAlgorithm comma_basket one_half
  = Some [ mkFrequentItemset ["a,b"] (Fin 1) 1;
           mkFrequentItemset ["c"] (Fin 1) 1;
           mkFrequentItemset ["a"; "b"; "c"] (Fin 1) 1 ]
  /\ basket_count comma_basket ["a"; "b"; "c"] = 0%Z
  /\ aprioriAlgorithm comma_unordered one_half
     = Some [ mkFrequentItemset ["b,a"] (Fin 1) 1;
              mkFrequentItemset ["c"] (Fin 1) 1;
              mkFrequentItemset ["b"; "a"; "c"] (Fin 1) 1 ]
  /\ ~ canonical ["b"; "a"; "c"].
Proof.
  repeat split; try (vm_compute; reflexivity).
  intro H. inversion H as [|? ? _ Hd]; subst.
  inversion Hd as [|? ? L]; subst.
  vm_compute in L. discriminate.
Qed.

(** C3 at a failing input: for the baskets {"x,y", "z"} and {"x", "y", "z"}
    the Apriori miner returns an itemset of four members. *)
Theorem apriori_comma_size :
  exists fis f,
    aprioriAlgorithm comma_two one_half = Some fis
    /\ In f fis
    /\ itemset f = ["x"; "y"; "z"; "z"]
    /\ List.length (itemset f) = 4.
Proof.
  eexists. exists (mkFrequentItemset ["x"; "y"; "z"; "z"] (Fin (1 # 2)) 1).
  split; [vm_compute; reflexivity|].
  split; [|split; reflexivity].
  simpl. tauto.
Qed.

(** C9 at a failing input: for the one basket {"a,b", "c"} and min_support
    0.5 the FP-Growth miner returns three itemsets, the pair {"a,b", "c"}
    among them, and the Apriori miner returns two itemsets of at most two
    members. *)
Theorem fpGrowth_comma_differs :
  in_unit one_half
  /\ exists fis,
       aprioriAlgorithm comma_basket one_half = Some fis
       /\ at_most_pairs fis
          = [ mkFrequentItemset ["a,b"] (Fin 1) 1;
              mkFrequentItemset ["c"] (Fin 1) 1 ]
       /\ fpGrowthAlgorithm comma_basket one_half
          = [ mkFrequentItemset ["a,b"] (Fin 1) 1;
              mkFrequentItemset ["c"] (Fin 1) 1;
              mkFrequentItemset ["a,b"; "c"] (Fin 1) 1 ]
       /\ ~ Permutation (fpGrowthAlgorithm comma_basket one_half)
                        (at_most_pairs fis).
Proof.
  split.
  - exists (1 # 2). repeat split; unfold Qlt, Qle; simpl; lia.
  - eexists. split; [vm_compute; reflexivity|].
    split; [vm_compute; reflexivity|].
    split; [vm_compute; reflexivity|].
    intro H. apply Permutation_length in H. vm_compute in H. discriminate.
Qed.

(** ** The test basket *)

(** C4, as the code has it: on the single basket {Bread, Milk, Butter} with
    min_support 0.5 the Apriori miner returns the three singletons, the
    three pairs and the triple {Bread, Butter, Milk}, each with support 1
    and count 1, in this order, and nothing else. *)
Theorem apriori_one_basket :
  aprioriAlgorithm one_basket one_half
  = Some [ mkFrequentItemset ["Bread"] (Fin 1) 1;
           mkFrequentItemset ["Milk"] (Fin 1) 1;
           mkFrequentItemset ["Butter"] (Fin 1) 1;
           mkFrequentItemset ["Bread"; "Milk"] (Fin 1) 1;
           mkFrequentItemset ["Bread"; "Butter"] (Fin 1) 1;
           mkFrequentItemset ["Butter"; "Milk"] (Fin 1) 1;
           mkFrequentItemset ["Bread"; "Butter"; "Milk"] (Fin 1) 1 ].
Proof. vm_compute. reflexivity. Qed.

(** The answer on the test basket is not made of singletons and pairs
    alone. *)
Lemma apriori_one_basket_not_pairs_only :
  ~ (exists fis,
        aprioriAlgorithm one_basket one_half = Some fis
        /\ forall f, In f fis -> List.length (itemset f) <= 2).
Proof.
  intros [fis [H Hall]].
  rewrite one_basket_run in H. injection H as <-.
  specialize (Hall (mkFrequentItemset ["Bread"; "Butter"; "Milk"] (Fin 1) 1)).
  simpl in Hall.
  assert (3 <= 2) by (apply Hall; intuition).
  lia.
Qed.

(** ** The rule generator *)

(** What one emitted rule says about the itemset it is cut from. *)
Lemma rule_of_mask_spec transactions mc total f i r :
  In r (rule_of_mask transactions mc total f i) ->
  Rule.antecedent r <> [] /\ Rule.consequent r <> []
  /\ canonical (Rule.antecedent r) /\ canonical (Rule.consequent r)
  /\ Permutation (Rule.antecedent r ++ Rule.consequent r) (itemset f)
  /\ Rule.support r = support f
  /\ Rule.confidence r
     = div (support f)
           (div (of_Z (basket_count transactions (Rule.antecedent r)))
                (of_Z total))
  /\ geb (Rule.confidence r) mc = true
  /\ Rule.lift r = div (Rule.confidence r) (div (of_Z (count f)) (of_Z total)).
Proof.
  unfold rule_of_mask.
  destruct (split_by_mask i 0 (itemset f)) as [a c] eqn:E.
  destruct (is_empty a) eqn:Ea; [intros []|].
  destruct (is_empty c) eqn:Ec; [intros []|].
  cbn [orb].
  destruct (geb _ mc) eqn:G; [|intros []].
  intros [<-|[]]. cbn [Rule.antecedent Rule.consequent Rule.support
                       Rule.confidence Rule.lift].
  apply is_empty_false in Ea, Ec.
  repeat split.
  - now apply sort_not_nil.
  - now apply sort_not_nil.
  - apply sort_canonical.
  - apply sort_canonical.
  - eapply perm_trans; [|apply (split_by_mask_perm _ _ _ _ _ E)].
    apply Permutation_app; apply sort_perm.
  - now rewrite basket_count_sort.
  - exact G.
Qed.

(** C2, as the code has it: the generator cuts the member list of an
    itemset by position and looks at no member.  When no itemset it is
    given holds an identifier twice, every rule that
    [generateAssociationRules] emits comes from one of these itemsets:
    antecedent and consequent are non-empty, disjoint and in canonical
    order, together they are the members of that itemset (their sorted
    union is its sorted member list), the rule's support is the itemset's,
    its confidence is the itemset's support divided by the antecedent's
    support and reaches min_confidence, and its lift is the confidence
    divided by count / totalBaskets. *)
Theorem generateAssociationRules_sound
    (frequentItemsets : list FrequentItemset) (minConfidence : number)
    (transactions : list (list string)) (r : AssociationRule) :
  (forall f, In f frequentItemsets -> NoDup (itemset f)) ->
  In r (generateAssociationRules frequentItemsets minConfidence transactions) ->
  exists f,
    In f frequentItemsets
    /\ Rule.antecedent r <> [] /\ Rule.consequent r <> []
    /\ (forall x, In x (Rule.antecedent r) -> ~ In x (Rule.consequent r))
    /\ canonical (Rule.antecedent r) /\ canonical (Rule.consequent r)
    /\ Permutation (Rule.antecedent r ++ Rule.consequent r) (itemset f)
    /\ sort (Rule.antecedent r ++ Rule.consequent r) = sort (itemset f)
    /\ Rule.support r = support f
    /\ Rule.confidence r
       = div (support f)
             (div (of_Z (basket_count transactions (Rule.antecedent r)))
                  (of_Z (Z.of_nat (List.length transactions))))
    /\ geb (Rule.confidence r) minConfidence = true
    /\ Rule.lift r
       = div (Rule.confidence r)
             (div (of_Z (count f))
                  (of_Z (Z.of_nat (List.length transactions)))).
Proof.
  intros Hnd Hin. unfold generateAssociationRules in Hin.
  apply in_flat_map in Hin as [f [Hf Hin]].
  apply filter_In in Hf as [Hf _].
  unfold rules_of_itemset in Hin.
  apply in_flat_map in Hin as [i [_ Hin]].
  apply rule_of_mask_spec in Hin
    as (Ha & Hc & Hsa & Hsc & Hperm & Hs & Hconf & Hge & Hl).
  exists f. repeat (split; [assumption|]).
  split; [|repeat (split; [assumption|]);
           split; [apply sort_of_perm, Hperm|];
           repeat (split; [assumption|]); assumption].
  intro x. apply NoDup_app_disjoint.
  eapply Permutation_NoDup; [apply Permutation_sym, Hperm|].
  apply Hnd, Hf.
Qed.

Lemma generateAssociationRules_sound_witness :
  exists f,
    In f [mkFrequentItemset ["Bread"; "Milk"] (Fin 1) 2]
    /\ Rule.antecedent (mkAssociationRule ["Bread"] ["Milk"] (Fin 1) (Fin 1) (Fin 1))
       <> [].
Proof.
  destruct (generateAssociationRules_sound
              [mkFrequentItemset ["Bread"; "Milk"] (Fin 1) 2] one_half
              [["Bread"; "Milk"; "Butter"]; ["Bread"; "Milk"]]
              (mkAssociationRule ["Bread"] ["Milk"] (Fin 1) (Fin 1) (Fin 1)))
    as [f [Hf [Ha _]]].
  - intros f [<-|[]]. simpl.
    repeat constructor; simpl; intuition discriminate.
  - vm_compute. left. reflexivity.
  - exists f. split; assumption.
Defined.

(** C2 as it is stated, for every list of itemsets, fails where a member
    list holds an identifier twice: of the itemset x, y, z, z that
    [aprioriAlgorithm] returns for the baskets {"x,y", "z"} and
    {"x", "y", "z"}, the generator emits the rule z -> x, y, z, whose two
    sides share z. *)
Lemma repeated_member_rule_overlaps :
  exists fis r,
    aprioriAlgorithm comma_two one_half = Some fis
    /\ In (mkFrequentItemset ["x"; "y"; "z"; "z"] (Fin (1 # 2)) 1) fis
    /\ In r (generateAssociationRules fis one_half comma_two)
    /\ Rule.antecedent r = ["z"]
    /\ Rule.consequent r = ["x"; "y"; "z"]
    /\ ~ (forall x, In x (Rule.antecedent r) -> ~ In x (Rule.consequent r)).
Proof.
  eexists.
  exists (mkAssociationRule ["z"] ["x"; "y"; "z"] (Fin (1 # 2)) (Fin (1 # 2))
                            (Fin 1)).
  split; [vm_compute; reflexivity|].
  split; [simpl; tauto|].
  split; [vm_compute; repeat (first [left; reflexivity | right])|].
  split; [reflexivity|]. split; [reflexivity|].
  intro H. apply (H "z"); simpl; tauto.
Qed.

(** ** The lift *)

(** The arithmetic of the lift: with count [c], [n] baskets and an
    antecedent found in [a] of them, (c/n) / (a/n) / (c/n) is n / a. *)
Lemma lift_arithmetic (c n a : Q) :
  (0 < n)%Q -> ~ (c == 0)%Q -> (0 <= a)%Q ->
  let s := div (Fin c) (Fin n) in
  div (div s (div (Fin a) (Fin n))) s = div (Fin n) (Fin a).
Proof.
  intros Hn Hc Ha s.
  assert (Hn0 : ~ (n == 0)%Q) by (intro E; rewrite E in Hn; discriminate).
  unfold s. rewrite !(div_fin _ n Hn0).
  assert (Hs : ~ (Qred (c / n) == 0)%Q).
  { rewrite Qred_correct. intro E. apply Hc, (Qdiv_eq0 c n Hn0 E). }
  destruct (Qeq_dec a 0) as [Ea|Ea].
  - assert (Ez : (Qred (a / n) == 0)%Q).
    { rewrite Qred_correct, Ea. unfold Qdiv. ring. }
    rewrite (div_fin_zero _ _ Ez), (div_fin_zero _ _ Ea), (sgn_pos n Hn).
    destruct (Q_dec (Qred (c / n)) 0) as [[L|G]|E]; [| |contradiction].
    + rewrite (sgn_neg _ L). cbn [inf_of div].
      now rewrite (Qle_bool_false _ _ L).
    + rewrite (sgn_pos _ G). cbn [inf_of div].
      assert (Hle : Qle_bool 0 (Qred (c / n)) = true)
        by (apply Qle_bool_iff, Qlt_le_weak, G).
      now rewrite Hle.
  - assert (Hz : ~ (Qred (a / n) == 0)%Q).
    { rewrite Qred_correct. intro E. apply Ea, (Qdiv_eq0 a n Hn0 E). }
    rewrite (div_fin _ _ Hz), (div_fin _ _ Hs), (div_fin _ _ Ea).
    f_equal. apply Qred_complete.
    rewrite !Qred_correct. field. repeat split; assumption.
Qed.

Lemma basket_count_bounds transactions items :
  (0 <= basket_count transactions items <= Z.of_nat (List.length transactions))%Z.
Proof.
  unfold basket_count. split; [lia|].
  apply inj_le, filter_length_le.
Qed.

Lemma geb_one_of_ratio (n a : Z) :
  (0 < n)%Z -> (0 <= a <= n)%Z -> geb (div (of_Z n) (of_Z a)) (Fin 1) = true.
Proof.
  intros Hn Ha. unfold of_Z.
  destruct (Z.eq_dec a 0) as [->|Hne].
  - rewrite div_fin_zero by reflexivity.
    rewrite sgn_pos by (apply inject_Z_pos; exact Hn). reflexivity.
  - rewrite div_fin by (rewrite inject_Z_eq0; exact Hne).
    cbn [geb]. apply Qle_bool_iff. rewrite Qred_correct.
    apply Qle_shift_div_l.
    + apply inject_Z_pos. lia.
    + rewrite Qmult_1_l. rewrite <- Zle_Qle. lia.
Qed.

(** An itemset of count 0 passes no positive threshold: its confidence is
    0, or NaN when the antecedent occurs nowhere. *)
Lemma zero_count_emits_nothing (n a : Z) (q : Q) :
  (0 < n)%Z -> (0 < q)%Q ->
  geb (div (div (of_Z 0) (of_Z n)) (div (of_Z a) (of_Z n))) (Fin q) = false.
Proof.
  intros Hn Hq. unfold of_Z.
  assert (Hn0 : ~ (inject_Z n == 0)%Q) by (rewrite inject_Z_eq0; lia).
  rewrite !(div_fin _ _ Hn0).
  assert (Hs : (Qred (inject_Z 0 / inject_Z n) == 0)%Q).
  { rewrite Qred_correct. unfold Qdiv. ring. }
  destruct (Qeq_dec (Qred (inject_Z a / inject_Z n)) 0) as [Ea|Ea].
  - rewrite (div_fin_zero _ _ Ea).
    assert (Hsgn : sgn (Qred (inject_Z 0 / inject_Z n)) = Eq)
      by (unfold sgn; now apply Qeq_alt).
    rewrite Hsgn. reflexivity.
  - rewrite (div_fin _ _ Ea). cbn [geb].
    apply Qle_bool_false. rewrite Qred_correct, Hs.
    unfold Qdiv. rewrite Qmult_0_l. exact Hq.
Qed.

(** C10, as the code has it: over a non-empty basket list, for an itemset
    whose support is count / totalBaskets, when min_confidence is positive
    or the count is not zero, every emitted rule has a lift of at least 1
    (the infinite lift of an antecedent that no basket holds included).
    The lift is the quotient of the confidence by count / totalBaskets;
    the statement is an order, which the rounding of the three quotients
    keeps ([rounded_lift_at_least_one] below): the antecedent's support is
    at most 1, so the confidence is not below the itemset's support. *)
Theorem lift_at_least_one
    (transactions : list (list string)) (minConfidence : number)
    (f : FrequentItemset) (r : AssociationRule) :
  transactions <> [] ->
  count f <> 0%Z \/ (exists q, minConfidence = Fin q /\ (0 < q)%Q) ->
  support f = div (of_Z (count f)) (of_Z (Z.of_nat (List.length transactions))) ->
  In r (generateAssociationRules [f] minConfidence transactions) ->
  Rule.lift r
  = div (Rule.confidence r)
        (div (of_Z (count f)) (of_Z (Z.of_nat (List.length transactions))))
  /\ geb (Rule.lift r) (Fin 1) = true.
Proof.
  intros Hne Hc Hs Hin.
  set (n := Z.of_nat (List.length transactions)) in *.
  assert (Hn : (0 < n)%Z).
  { unfold n. destruct transactions; [contradiction|simpl; lia]. }
  unfold generateAssociationRules in Hin.
  apply in_flat_map in Hin as [f' [Hf Hin]].
  apply filter_In in Hf as [[<-|[]] _].
  apply in_flat_map in Hin as [i [_ Hin]].
  apply rule_of_mask_spec in Hin as (_ & _ & _ & _ & _ & _ & Hconf & Hge & Hl).
  fold n in Hconf, Hl.
  split; [exact Hl|].
  assert (Hc' : count f <> 0%Z).
  { destruct Hc as [Hc|(q & -> & Hq)]; [exact Hc|].
    intro E. rewrite Hconf, Hs, E in Hge.
    rewrite (zero_count_emits_nothing n _ q Hn Hq) in Hge. discriminate. }
  pose proof (basket_count_bounds transactions (Rule.antecedent r)) as Hb.
  fold n in Hb.
  assert (E : Rule.lift r
              = div (of_Z n)
                    (of_Z (basket_count transactions (Rule.antecedent r)))).
  { rewrite Hl, Hconf, Hs. unfold of_Z. apply lift_arithmetic.
    - apply inject_Z_pos, Hn.
    - rewrite inject_Z_eq0. exact Hc'.
    - rewrite <- (Zle_Qle 0). lia. }
  rewrite E. apply geb_one_of_ratio; assumption.
Qed.

Lemma lift_at_least_one_witness :
  Rule.lift (mkAssociationRule ["Butter"] ["Bread"] (Fin (1 # 2)) (Fin 1) (Fin 2))
  = div (Fin 1) (div (of_Z 1) (of_Z 2))
  /\ geb (Fin 2) (Fin 1) = true.
Proof.
  apply (lift_at_least_one
           [["Bread"; "Milk"; "Butter"]; ["Bread"; "Milk"]] one_half
           (mkFrequentItemset ["Bread"; "Butter"] (Fin (1 # 2)) 1)
           (mkAssociationRule ["Butter"] ["Bread"] (Fin (1 # 2)) (Fin 1) (Fin 2))).
  - discriminate.
  - right. exists (1 # 2). split; [reflexivity|]. unfold Qlt. simpl. lia.
  - reflexivity.
  - vm_compute. right. left. reflexivity.
Defined.

(** The three quotients of the program are rounded: for an itemset found in
    3 of 5 baskets whose antecedent is found in 4, the confidence is the
    double below 3/4 and the lift the double below 5/4, not the quotients
    of the counts. *)
Lemma rule_quotients_are_rounded :
  Binary64.confidence_and_lift 3 4 5
  = (SpecFloat.S754_finite false 6755399441055743 (-53),
     SpecFloat.S754_finite false 5629499534213119 (-52))
  /\ Binary64.div (Binary64.of_Z 3) (Binary64.of_Z 4)
     = SpecFloat.S754_finite false 6755399441055744 (-53)
  /\ Binary64.div (Binary64.of_Z 5) (Binary64.of_Z 4)
     = SpecFloat.S754_finite false 5629499534213120 (-52)
  /\ snd (Binary64.confidence_and_lift 3 4 5)
     <> Binary64.div (Binary64.of_Z 5) (Binary64.of_Z 4)
  /\ SpecFloat.SFleb (Binary64.of_Z 1)
                     (snd (Binary64.confidence_and_lift 3 4 5)) = true.
Proof.
  repeat split; try (vm_compute; reflexivity).
  vm_compute. discriminate.
Qed.

(** What rounding keeps.  For every rounding that is monotone, leaves a
    rounded number as it is and leaves 1 as it is (rounding to the nearest
    double is such a rounding), when the two rounded frequencies are
    positive (no underflow): the confidence is not below the itemset's
    support, the lift is at least 1, and the confidence is at most 1 when
    the itemset occurs no more often than the antecedent. *)
Section Rounding.
Variable fl : Q -> Q.
Hypothesis fl_monotone : forall x y, (x <= y)%Q -> (fl x <= fl y)%Q.
Hypothesis fl_fixed : forall x, (fl (fl x) == fl x)%Q.
Hypothesis fl_one : (fl 1 == 1)%Q.

Variables count antecedentCount total : Z.
Hypothesis Htotal : (0 < total)%Z.
Hypothesis Hpart : (antecedentCount <= total)%Z.
Hypothesis Hsupport : (0 < fl (inject_Z count / inject_Z total))%Q.
Hypothesis Hantecedent :
  (0 < fl (inject_Z antecedentCount / inject_Z total))%Q.

Lemma rounded_antecedent_support_at_most_one :
  (fl (inject_Z antecedentCount / inject_Z total) <= 1)%Q.
Proof.
  rewrite <- fl_one. apply fl_monotone.
  apply Qle_shift_div_r.
  - unfold Qlt; simpl; lia.
  - rewrite Qmult_1_l, <- Zle_Qle. exact Hpart.
Qed.

Lemma rounded_confidence_not_below_support :
  (fl (inject_Z count / inject_Z total)
   <= rounded_confidence fl count antecedentCount total)%Q.
Proof.
  unfold rounded_confidence.
  set (s := fl (inject_Z count / inject_Z total)%Q) in *.
  set (a := fl (inject_Z antecedentCount / inject_Z total)%Q) in *.
  assert (Hs : (s == fl s)%Q) by (unfold s; symmetry; apply fl_fixed).
  rewrite Hs at 1. apply fl_monotone.
  apply Qle_shift_div_l; [exact Hantecedent|].
  rewrite <- (Qmult_1_r s) at 2.
  apply Qmult_le_l; [exact Hsupport|].
  apply rounded_antecedent_support_at_most_one.
Qed.

Lemma rounded_lift_at_least_one :
  (1 <= rounded_lift fl count antecedentCount total)%Q.
Proof.
  unfold rounded_lift. rewrite <- fl_one at 1. apply fl_monotone.
  apply Qle_shift_div_l; [exact Hsupport|].
  rewrite Qmult_1_l. apply rounded_confidence_not_below_support.
Qed.

Lemma rounded_confidence_at_most_one :
  (count <= antecedentCount)%Z ->
  (rounded_confidence fl count antecedentCount total <= 1)%Q.
Proof.
  intro Hle. unfold rounded_confidence.
  rewrite <- fl_one. apply fl_monotone.
  apply Qle_shift_div_r; [exact Hantecedent|].
  rewrite Qmult_1_l. apply fl_monotone.
  apply Qle_shift_div_l; [unfold Qlt; simpl; lia|].
  unfold Qdiv. rewrite <- Qmult_assoc, (Qmult_comm (/ _)), Qmult_inv_r,
    Qmult_1_r.
  - rewrite <- Zle_Qle. exact Hle.
  - unfold Qeq; simpl; lia.
Qed.

End Rounding.

(** For an itemset of count 0 the lift of an emitted rule is NaN: the pair
    that [fpGrowthAlgorithm] finds in two disjoint baskets at min_support 0
    satisfies support = count / totalBaskets, and at min_confidence 0 its
    rule a -> b is emitted with a lift that is neither 2 / 1 nor >= 1. *)
Lemma zero_count_lift_is_nan :
  In apart_pair (fpGrowthAlgorithm apart (Fin 0))
  /\ support apart_pair
     = div (of_Z (count apart_pair)) (of_Z (Z.of_nat (List.length apart)))
  /\ exists r,
       In r (generateAssociationRules [apart_pair] (Fin 0) apart)
       /\ Rule.antecedent r = ["a"]
       /\ Rule.lift r = NaN
       /\ Rule.lift r
          <> div (of_Z (Z.of_nat (List.length apart)))
                 (of_Z (basket_count apart (Rule.antecedent r)))
       /\ geb (Rule.lift r) (Fin 1) = false.
Proof.
  split; [vm_compute; intuition|].
  split; [reflexivity|].
  exists (mkAssociationRule ["a"] ["b"] (Fin 0) (Fin 0) NaN).
  split; [vm_compute; intuition|].
  split; [reflexivity|].
  split; [reflexivity|].
  split; [vm_compute; discriminate|reflexivity].
Qed.

(** ** The antecedent of an emitted rule occurs *)

Lemma fpGrowth_splits_occur transactions minSupport f :
  In f (fpGrowthAlgorithm transactions minSupport) ->
  splits_occur transactions f
  /\ support f
     = div (of_Z (count f)) (of_Z (Z.of_nat (List.length transactions))).
Proof.
  intro H. apply fpGrowthAlgorithm_In in H.
  destruct H as [(x & Hx & -> & _)|(a & b & Ha & Hb & -> & _)];
    (split; [|reflexivity]); intros l1 l2 H1 H2 Hp; cbn [itemset] in Hp.
  - apply Permutation_length in Hp. rewrite length_app in Hp.
    destruct l1; [contradiction|]. destruct l2; [contradiction|].
    simpl in Hp. lia.
  - assert (Hp' : Permutation (l1 ++ l2) [a; b])
      by (eapply perm_trans; [exact Hp | apply sort_perm]).
    pose proof (Permutation_length Hp') as Hl. rewrite length_app in Hl.
    destruct l1 as [|y [|? ?]]; [contradiction| |];
      (destruct l2; [contradiction|]); simpl in Hl; try lia.
    assert (Hy : In y [a; b])
      by (eapply Permutation_in; [exact Hp' | now left]).
    assert (Hy' : In y (List.concat transactions))
      by (destruct Hy as [<-|[<-|[]]]; assumption).
    apply in_concat_baskets in Hy' as [t [Ht Hy']].
    exists t. split; [exact Ht|]. intros z [<-|[]]. exact Hy'.
Qed.

Lemma apriori_splits_occur transactions minSupport fis f :
  comma_free transactions ->
  aprioriAlgorithm transactions minSupport = Some fis ->
  In f fis ->
  splits_occur transactions f
  /\ support f
     = div (of_Z (count f)) (of_Z (Z.of_nat (List.length transactions))).
Proof.
  intros Hcf H Hin.
  destruct (apriori_itemset_occurs _ _ _ _ Hcf H Hin) as [[t [Ht Hi]] Hs].
  split; [|exact Hs]. intros a c _ _ Hp.
  exists t. split; [exact Ht|]. intros x Hx. apply Hi.
  eapply Permutation_in; [exact Hp|]. apply in_or_app. now left.
Qed.

(** When the antecedent of every split occurs, nothing is divided by zero
    and the confidence of an emitted rule is a finite number. *)
Lemma rules_divide_by_positive fis mc transactions r :
  (forall f, In f fis ->
     splits_occur transactions f
     /\ support f
        = div (of_Z (count f)) (of_Z (Z.of_nat (List.length transactions)))) ->
  In r (generateAssociationRules fis mc transactions) ->
  (0 < basket_count transactions (Rule.antecedent r))%Z
  /\ is_finite (Rule.confidence r) = true.
Proof.
  intros Hall Hin. unfold generateAssociationRules in Hin.
  apply in_flat_map in Hin as [f [Hf Hin]].
  apply filter_In in Hf as [Hf _].
  apply in_flat_map in Hin as [i [_ Hin]].
  apply rule_of_mask_spec in Hin as (Ha & Hc & _ & _ & Hp & _ & Hconf & _).
  destruct (Hall f Hf) as [Hocc Hs].
  destruct (Hocc _ _ Ha Hc Hp) as [t [Ht Hi]].
  pose proof (basket_count_pos _ _ _ Ht Hi) as Hpos.
  split; [exact Hpos|].
  assert (Hn : (0 < Z.of_nat (List.length transactions))%Z).
  { destruct transactions; [contradiction|simpl; lia]. }
  rewrite Hconf, Hs. unfold of_Z.
  assert (Hn0 : ~ (inject_Z (Z.of_nat (List.length transactions)) == 0)%Q)
    by (rewrite inject_Z_eq0; lia).
  rewrite !(div_fin _ _ Hn0). rewrite div_fin; [reflexivity|].
  rewrite Qred_correct. intro E. apply Qdiv_eq0 in E; [|exact Hn0].
  apply (proj1 (inject_Z_eq0 _)) in E. lia.
Qed.

(** C6, as the code has it: the generator has no guard, it divides; but for
    the itemsets that [fpGrowthAlgorithm] returns for the same baskets, and
    for those that [aprioriAlgorithm] returns for them when no identifier
    contains a comma, the antecedent of every emitted rule occurs in at
    least one basket, so its support is not zero and the confidence is a
    finite number. *)
Theorem antecedent_support_positive
    (transactions : list (list string)) (minSupport minConfidence : number) :
  (forall r,
      In r (generateAssociationRules
              (fpGrowthAlgorithm transactions minSupport)
              minConfidence transactions) ->
      (0 < basket_count transactions (Rule.antecedent r))%Z
      /\ is_finite (Rule.confidence r) = true)
  /\ (comma_free transactions ->
      forall fis r,
        aprioriAlgorithm transactions minSupport = Some fis ->
        In r (generateAssociationRules fis minConfidence transactions) ->
        (0 < basket_count transactions (Rule.antecedent r))%Z
        /\ is_finite (Rule.confidence r) = true).
Proof.
  split.
  - intro r. apply rules_divide_by_positive.
    intros f. apply fpGrowth_splits_occur.
  - intros Hcf fis r H. apply rules_divide_by_positive.
    intros f. now apply (apriori_splits_occur _ minSupport fis).
Qed.

Lemma antecedent_support_positive_witness :
  (0 < basket_count one_basket ["Bread"])%Z /\ is_finite (Fin 1) = true.
Proof.
  apply (proj2 (antecedent_support_positive one_basket one_half one_half)
               one_basket_comma_free _
               (mkAssociationRule ["Bread"] ["Milk"] (Fin 1) (Fin 1) (Fin 1))
               one_basket_run).
  vm_compute. left. reflexivity.
Defined.

(** With a comma in an identifier the itemsets of [aprioriAlgorithm] give
    the generator an antecedent that no basket contains: the division by its
    zero support is made, and the rule is emitted with an infinite
    confidence. *)
Lemma comma_rule_divides_by_zero :
  exists fis r,
    aprioriAlgorithm comma_basket one_half = Some fis
    /\ In r (generateAssociationRules fis one_half comma_basket)
    /\ Rule.antecedent r = ["a"]
    /\ basket_count comma_basket (Rule.antecedent r) = 0%Z
    /\ Rule.confidence r = PosInf.
Proof.
  eexists. exists (mkAssociationRule ["a"] ["b"; "c"] (Fin 1) PosInf PosInf).
  split; [vm_compute; reflexivity|].
  split; [vm_compute; left; reflexivity|].
  repeat split.
Qed.

(** ** The empty basket list *)

Lemma flat_map_all_nil {A B : Type} (f : A -> list B) (l : list A) :
  (forall x, In x l -> f x = []) -> flat_map f l = [].
Proof.
  induction l as [|a l IH]; intro H; simpl.
  - reflexivity.
  - rewrite (H a), IH; auto with datatypes.
Qed.

Lemma div_nan_r a : div a NaN = NaN.
Proof. destruct a; reflexivity. Qed.

Lemma rule_of_mask_no_baskets mc f i : rule_of_mask [] mc 0 f i = [].
Proof.
  unfold rule_of_mask.
  destruct (split_by_mask i 0 (itemset f)) as [a c].
  destruct (is_empty a || is_empty c); [reflexivity|].
  change (div (of_Z (basket_count [] a)) (of_Z 0)) with NaN.
  rewrite div_nan_r. reflexivity.
Qed.

(** C7: on the empty basket list both miners return the empty list, and the
    rule generator returns the empty list, for every min_support and
    min_confidence; the miners never divide, and the generator emits
    nothing whatever itemsets it is given, since its 0/0 is NaN and passes
    no threshold. *)
Theorem empty_basket_list (minSupport minConfidence : number) :
  aprioriAlgorithm [] minSupport = Some []
  /\ fpGrowthAlgorithm [] minSupport = []
  /\ generateAssociationRules [] minConfidence [] = []
  /\ forall fis, generateAssociationRules fis minConfidence [] = [].
Proof.
  repeat split.
  intro fis. unfold generateAssociationRules.
  apply flat_map_all_nil. intros f _.
  apply flat_map_all_nil. intros i _.
  apply rule_of_mask_no_baskets.
Qed.

(** ** The validation boundary *)

Lemma z_number_min_max_unit x :
  z_number_min_max 0 1 x = true <-> in_closed_unit x.
Proof.
  unfold z_number_min_max, in_closed_unit.
  destruct x as [q| | |]; simpl.
  - rewrite andb_true_iff, !Qle_bool_iff. split.
    + intros [H0 H1]. exists q. auto.
    + intros [q' [E [H0 H1]]]. injection E as ->. auto.
  - split; [discriminate | intros [q [E _]]; discriminate].
  - split; [discriminate | intros [q [E _]]; discriminate].
  - split; [discriminate | intros [q [E _]]; discriminate].
Qed.

Lemma schema_rejects raw :
  ~ (in_closed_unit (raw_min_support raw)
     /\ in_closed_unit (raw_min_confidence raw)) ->
  miningParametersSchema raw = None.
Proof.
  intro H. unfold miningParametersSchema.
  destruct (z_number_min_max 0 1 (raw_min_support raw)) eqn:E1;
    [|reflexivity].
  destruct (z_number_min_max 0 1 (raw_min_confidence raw)) eqn:E2;
    [|reflexivity].
  exfalso. apply H. split; apply z_number_min_max_unit; assumption.
Qed.

Lemma schema_accepts raw a :
  in_closed_unit (raw_min_support raw) ->
  in_closed_unit (raw_min_confidence raw) ->
  miningAlgorithmSchema (raw_algorithm raw) = Some a ->
  miningParametersSchema raw
  = Some (mkMiningParameters (raw_min_support raw) (raw_min_confidence raw) a).
Proof.
  intros H1 H2 Ha. unfold miningParametersSchema.
  apply z_number_min_max_unit in H1, H2.
  rewrite H1, H2, Ha. reflexivity.
Qed.

(** C5, as the code has it: a min_support or min_confidence outside the
    closed interval [0,1] stops each of the three mining procedures at the
    schema, before the handler runs; values inside [0,1], 0 included, with
    a known algorithm name reach the handler. *)
Theorem validation_boundary (raw : RawParameters) (ctx : Context) (w : World) :
  (~ (in_closed_unit (raw_min_support raw)
      /\ in_closed_unit (raw_min_confidence raw)) ->
   appRouter.runAprioriMining raw ctx w = ValidationFailure
   /\ appRouter.runFPGrowthMining raw ctx w = ValidationFailure
   /\ appRouter.compareMiningResults raw ctx w = ValidationFailure)
  /\ (forall a,
        in_closed_unit (raw_min_support raw) ->
        in_closed_unit (raw_min_confidence raw) ->
        miningAlgorithmSchema (raw_algorithm raw) = Some a ->
        let p := mkMiningParameters (raw_min_support raw)
                                    (raw_min_confidence raw) a in
        appRouter.runAprioriMining raw ctx w
        = Handled (runAprioriMining p (userId ctx) w)
        /\ appRouter.runFPGrowthMining raw ctx w
           = Handled (runFPGrowthMining p (userId ctx) w)
        /\ appRouter.compareMiningResults raw ctx w
           = Handled (compareMiningResults p (userId ctx) w)).
Proof.
  split.
  - intro H.
    unfold appRouter.runAprioriMining, appRouter.runFPGrowthMining,
      appRouter.compareMiningResults, procedure.
    rewrite (schema_rejects raw H). auto.
  - intros a H1 H2 Ha p.
    unfold appRouter.runAprioriMining, appRouter.runFPGrowthMining,
      appRouter.compareMiningResults, procedure.
    rewrite (schema_accepts raw a H1 H2 Ha). auto.
Qed.

Lemma validation_boundary_witness :
  appRouter.runAprioriMining (mkRawParameters (Fin 2) one_half "apriori")
                             sample_context sample_world
  = ValidationFailure.
Proof.
  apply (validation_boundary (mkRawParameters (Fin 2) one_half "apriori")
                             sample_context sample_world).
  intros [[q [E [_ H]]] _]. injection E as <-.
  revert H. unfold Qle. simpl. lia.
Defined.

(** A min_support of 0 passes the schema and the Apriori handler runs. *)
Lemma zero_support_is_accepted :
  miningParametersSchema (mkRawParameters (Fin 0) one_half "apriori")
  = Some (mkMiningParameters (Fin 0) one_half apriori)
  /\ appRouter.runAprioriMining (mkRawParameters (Fin 0) one_half "apriori")
                                sample_context sample_world
     <> ValidationFailure.
Proof.
  split; [reflexivity|]. vm_compute. discriminate.
Qed.

(** ** The timed runs and the comparison *)

(** The loops of the rule generator end for what the miners return: a
    pair at most from [fpGrowthAlgorithm], three members at most from
    [aprioriAlgorithm] when no identifier holds a comma. *)
Lemma fpGrowth_rules_end transactions minSupport :
  generateAssociationRules_ends (fpGrowthAlgorithm transactions minSupport)
  = true.
Proof.
  apply forallb_forall. intros f Hf. apply Nat.leb_le.
  apply fpGrowthAlgorithm_In in Hf. cbv zeta in Hf.
  destruct Hf as [(x & _ & -> & _)|(a & b & _ & _ & -> & _)].
  - cbn [itemset List.length]. lia.
  - cbn [itemset]. rewrite sort_length. cbn [List.length]. lia.
Qed.

Lemma apriori_rules_end transactions minSupport fis :
  comma_free transactions ->
  aprioriAlgorithm transactions minSupport = Some fis ->
  generateAssociationRules_ends fis = true.
Proof.
  intros Hcf H. apply forallb_forall. intros f Hf. apply Nat.leb_le.
  destruct (aprioriAlgorithm_In _ _ _ _ H Hf) as [H1|[H2|H3]].
  - apply apriori_singles_In in H1 as (x & Hi & _). rewrite Hi.
    cbn [List.length]. lia.
  - apply (level2_In _ _ Hcf) in H2 as (a & b & _ & _ & _ & _ & Hi & _).
    rewrite Hi. cbn [List.length]. lia.
  - apply (level3_In _ _ Hcf) in H3 as (_ & Hl & _). lia.
Qed.

(** A timed run, case by case. *)
Lemma run_mining_cases alg miner p uid w :
  run_mining alg miner p uid w
  = if db_up w then
      match miner (mined_baskets w) (min_support p) with
      | Some fis =>
          if generateAssociationRules_ends fis then
            if fits_integer uid && fits_integer (next_id w) then
              Returned (result_of_run alg p uid w fis)
                       (after_run w (result_of_run alg p uid w fis))
            else Threw (after_reading (after_reading w))
          else Unfinished
      | None => Unfinished
      end
    else Threw (after_reading w).
Proof.
  unfold run_mining, bind, now, getTransactionData, bind, select_joined,
    finished, insert_result, ret.
  cbn [db_up joined_rows clock ticks mining_results next_id db_time].
  destruct (db_up w) eqn:Hup;
    [|unfold after_reading; rewrite Hup; reflexivity].
  cbv beta iota.
  assert (E : map snd (map (fun '(tid, items) => (tid, dedupe [] items))
                         (group_rows (joined_rows w)))
              = mined_baskets w).
  { unfold mined_baskets. rewrite map_map. apply map_ext. now intros [t l]. }
  rewrite E.
  destruct (miner (mined_baskets w) (min_support p)) as [fis|]; [|reflexivity].
  cbv beta iota.
  destruct (generateAssociationRules_ends fis); [|reflexivity].
  cbv beta iota.
  cbn [db_up joined_rows clock ticks mining_results next_id db_time
       id created_at andb].
  destruct (fits_integer uid && fits_integer (next_id w));
    unfold result_of_run, after_run, after_reading;
    cbn [db_up joined_rows clock ticks mining_results next_id db_time];
    rewrite ?Hup; reflexivity.
Qed.

(** What a timed run that returned has done. *)
Lemma run_mining_inv alg miner p uid w r w' :
  run_mining alg miner p uid w = Returned r w' ->
  db_up w = true
  /\ fits_integer uid = true /\ fits_integer (next_id w) = true
  /\ exists fis,
       miner (mined_baskets w) (min_support p) = Some fis
       /\ generateAssociationRules_ends fis = true
       /\ r = result_of_run alg p uid w fis
       /\ w' = after_run w r.
Proof.
  rewrite run_mining_cases.
  destruct (db_up w); [|discriminate].
  destruct (miner (mined_baskets w) (min_support p)) as [fis|];
    [|discriminate].
  destruct (generateAssociationRules_ends fis) eqn:He; [|discriminate].
  destruct (fits_integer uid) eqn:Fu; [|discriminate].
  destruct (fits_integer (next_id w)) eqn:Fn; [|discriminate].
  cbn [andb]. intro H. injection H as <- <-.
  repeat split. exists fis. auto.
Qed.

Lemma run_mining_returns alg miner p uid w fis :
  db_up w = true ->
  fits_integer uid = true -> fits_integer (next_id w) = true ->
  miner (mined_baskets w) (min_support p) = Some fis ->
  generateAssociationRules_ends fis = true ->
  run_mining alg miner p uid w
  = Returned (result_of_run alg p uid w fis)
             (after_run w (result_of_run alg p uid w fis)).
Proof.
  intros Hup Fu Fn Hm He.
  now rewrite run_mining_cases, Hup, Hm, He, Fu, Fn.
Qed.

(** While the database answers, for item names without commas and a user
    and serial numbers that fit their columns, the comparison returns. *)
Lemma compareMiningResults_returns p uid w :
  db_up w = true ->
  comma_free (mined_baskets w) ->
  fits_integer uid = true ->
  fits_integer (next_id w) = true -> fits_integer (next_id w + 1) = true ->
  exists cmp w', compareMiningResults p uid w = Returned cmp w'.
Proof.
  intros Hup Hcf Fu Fn Fn'. unfold compareMiningResults, bind at 1.
  destruct (aprioriAlgorithm (mined_baskets w) (min_support p))
    as [fis|] eqn:Ha.
  2:{ rewrite aprioriAlgorithm_levels in Ha. discriminate. }
  unfold runAprioriMining.
  rewrite (run_mining_returns apriori aprioriAlgorithm p uid w fis
             Hup Fu Fn Ha (apriori_rules_end _ _ _ Hcf Ha)).
  unfold bind at 1. unfold runFPGrowthMining.
  rewrite (run_mining_returns fp_growth
             (fun t s => Some (fpGrowthAlgorithm t s)) p uid
             (after_run w (result_of_run apriori p uid w fis))
             (fpGrowthAlgorithm (mined_baskets w) (min_support p))
             Hup Fu Fn' eq_refl (fpGrowth_rules_end _ _)).
  eexists. eexists. reflexivity.
Qed.

(** C8: a comparison that is returned retains the result of the Apriori run
    and the result of the FP-Growth run that followed it; its metrics are
    the FP-Growth time, itemset count and rule count minus those of Apriori;
    [faster_algorithm] is apriori exactly when the Apriori time is strictly
    the smaller one, so a tie names fp_growth. *)
Theorem comparison_metrics_spec p uid w cmp w' :
  compareMiningResults p uid w = Returned cmp w' ->
  exists ra rf m w1,
    runAprioriMining p uid w = Returned ra w1
    /\ runFPGrowthMining p uid w1 = Returned rf w'
    /\ apriori_result cmp = Some ra
    /\ fp_growth_result cmp = Some rf
    /\ comparison_metrics cmp = Some m
    /\ execution_time_difference m
       = (execution_time_ms rf - execution_time_ms ra)%Z
    /\ itemsets_count_difference m
       = (Z.of_nat (List.length (frequent_itemsets rf))
          - Z.of_nat (List.length (frequent_itemsets ra)))%Z
    /\ rules_count_difference m
       = (Z.of_nat (List.length (association_rules rf))
          - Z.of_nat (List.length (association_rules ra)))%Z
    /\ (faster_algorithm m = apriori
        <-> (execution_time_ms ra < execution_time_ms rf)%Z)
    /\ (execution_time_ms ra = execution_time_ms rf ->
        faster_algorithm m = fp_growth).
Proof.
  unfold compareMiningResults, bind, ret.
  destruct (runAprioriMining p uid w) as [ra w1| |] eqn:Ha; try discriminate.
  destruct (runFPGrowthMining p uid w1) as [rf w2| |] eqn:Hf;
    try discriminate.
  intro H. injection H as <- <-.
  exists ra, rf. eexists. exists w1.
  split; [reflexivity|]. split; [exact Hf|].
  repeat (split; [reflexivity|]).
  cbn [faster_algorithm].
  destruct (Z.ltb_spec (execution_time_ms ra) (execution_time_ms rf)) as [L|L].
  - split; [split; [intros _; exact L | reflexivity] | lia].
  - split; [split; [discriminate | lia] | reflexivity].
Qed.

Lemma comparison_metrics_spec_witness :
  exists cmp w' m,
    compareMiningResults sample_parameters 7 sample_world = Returned cmp w'
    /\ comparison_metrics cmp = Some m
    /\ execution_time_difference m = 0%Z
    /\ faster_algorithm m = fp_growth.
Proof.
  assert (E : compareMiningResults sample_parameters 7 sample_world
              = sample_outcome) by (vm_compute; reflexivity).
  unfold sample_outcome in E.
  destruct (comparison_metrics_spec _ _ _ _ _ E)
    as (ra & rf & m & w1 & _ & _ & _ & _ & Hm & _).
  cbn [comparison_metrics] in Hm. injection Hm as <-.
  eexists. eexists. eexists.
  split; [exact E|].
  split; [reflexivity|].
  split; reflexivity.
Defined.

(** ** The baskets that the handlers mine are sets *)

Lemma dedupe_spec seen items :
  NoDup (dedupe seen items)
  /\ forall x, In x (dedupe seen items) -> In x items /\ ~ In x seen.
Proof.
  revert seen. induction items as [|x rest IH]; intro seen; simpl.
  - split; [constructor|intros x []].
  - destruct (includes seen x) eqn:E.
    + destruct (IH seen) as [Hnd Hin]. split; [exact Hnd|].
      intros y Hy. destruct (Hin y Hy). auto.
    + destruct (IH (x :: seen)) as [Hnd Hin].
      assert (Hx : ~ In x seen)
        by (intro H; apply includes_In in H; congruence).
      split.
      * constructor; [|exact Hnd].
        intro H. destruct (Hin x H) as [_ Hn]. apply Hn. now left.
      * intros y [<-|Hy]; [auto|].
        destruct (Hin y Hy) as [H1 H2]. split; [auto|].
        intro H. apply H2. now right.
Qed.

Lemma getTransactionData_baskets w data w' :
  getTransactionData w = Returned data w' -> baskets (map snd data).
Proof.
  unfold getTransactionData, bind, select_joined, ret.
  destruct (db_up w); [|discriminate].
  intro H. injection H as <- _.
  intros t Ht. rewrite map_map in Ht.
  apply in_map_iff in Ht as [[tid items] [<- _]].
  apply dedupe_spec.
Qed.

(** ** What [aprioriAlgorithm] does not miss *)

Lemma contains_all_sub t s s' :
  incl s' s -> contains_all t s = true -> contains_all t s' = true.
Proof.
  rewrite !contains_all_incl. intros H1 H2 x Hx. apply H2, H1, Hx.
Qed.

(** Fewer members, more baskets. *)
Lemma basket_count_anti transactions s s' :
  incl s' s ->
  (basket_count transactions s <= basket_count transactions s')%Z.
Proof.
  intro Hi. induction transactions as [|t ts IH]; [reflexivity|].
  rewrite !basket_count_cons.
  destruct (contains_all t s) eqn:E.
  - rewrite (contains_all_sub t s s' Hi E). lia.
  - destruct (contains_all t s'); lia.
Qed.

Lemma geb_of_Z_mono (c c' : Z) (m : number) :
  (c <= c')%Z -> geb (of_Z c) m = true -> geb (of_Z c') m = true.
Proof.
  intros Hle. unfold geb, of_Z. destruct m as [q| | |]; try congruence.
  rewrite !Qle_bool_iff. intro H.
  eapply Qle_trans; [exact H|]. now rewrite <- Zle_Qle.
Qed.

(** The members of a set that occurs often enough are frequent. *)
Lemma frequent_member transactions minSupport s x :
  baskets transactions ->
  (0 < basket_count transactions s)%Z ->
  geb (of_Z (basket_count transactions s))
      (minSupportCount minSupport (Z.of_nat (List.length transactions))) = true ->
  In x s ->
  In x (frequent_items transactions minSupport).
Proof.
  intros Hb Hpos G Hx. apply frequent_items_In.
  assert (Hi : incl [x] s) by (intros y [<-|[]]; exact Hx).
  pose proof (basket_count_anti transactions s [x] Hi) as Hle.
  split.
  - apply basket_count_pos_inv in Hpos as [t [Ht E]].
    apply in_concat_baskets. exists t. split; [exact Ht|].
    apply (proj1 (contains_all_incl _ _) E), Hx.
  - rewrite bumps_concat by exact Hb.
    exact (geb_of_Z_mono _ _ _ Hle G).
Qed.

(** The records of a level are the records of its count map: what
    [generateCandidates] sorts in place was in order already. *)
Lemma level_records transactions msc total k cands :
  comma_free transactions ->
  (forall c, In c cands -> sort c = c /\ c <> []) ->
  fst (level transactions msc total k cands)
  = frequent_entries split msc total (count_candidates transactions cands).
Proof.
  intros Hcf Hall. rewrite level_fst. cbv zeta.
  apply write_back_sorted. intros f Hf.
  apply frequent_entries_In in Hf as (key & n & Hkey & _ & ->).
  rewrite count_candidates_flat in Hkey.
  apply fold_bump_entries in Hkey as [Hkey _].
  apply candidate_keys_In in Hkey as (t & c & Ht & Hc & E & ->).
  destruct (Hall c Hc) as [Hs Hn]. cbn [itemset].
  rewrite Hs, split_join; [exact Hs|exact Hn|].
  intros x Hx. apply (Hcf t x Ht).
  apply (proj1 (contains_all_incl _ _) E), Hx.
Qed.

(** A candidate that some basket contains and that reaches the threshold
    is a record of its level, with the number of its baskets. *)
Lemma level_complete transactions msc k cands c :
  comma_free transactions ->
  NoDup cands ->
  (forall c', In c' cands -> sort c' = c' /\ c' <> []) ->
  In c cands ->
  (0 < basket_count transactions c)%Z ->
  geb (of_Z (basket_count transactions c)) msc = true ->
  In (mkFrequentItemset c
        (div (of_Z (basket_count transactions c))
             (of_Z (Z.of_nat (List.length transactions))))
        (basket_count transactions c))
     (fst (level transactions msc (Z.of_nat (List.length transactions)) k cands)).
Proof.
  intros Hcf Hnd Hall Hc Hpos G.
  rewrite (level_records _ _ _ _ _ Hcf Hall).
  destruct (Hall c Hc) as [Hs Hn].
  apply basket_count_pos_inv in Hpos as [t [Ht E]].
  assert (Hp : plain c).
  { apply (plain_in_basket t); try assumption.
    intros x Hx. exact (Hcf t x Ht Hx). }
  pose proof (bumps_candidate_keys _ _ _ Hcf Hnd Hall Hc Hp) as Hcount.
  apply frequent_entries_In.
  exists (join (sort c)), (basket_count transactions c).
  split; [|split; [exact G|]].
  - rewrite count_candidates_flat. apply fold_bump_entries.
    split; [|now rewrite Hcount].
    apply candidate_keys_In. exists t, c. auto.
  - f_equal. rewrite Hs. symmetry. apply split_join; [exact Hn|apply Hp].
Qed.

(** The pairs that enter the join of level 3 are the member lists of the
    records of level 2. *)
Lemma frequent_pairs_In transactions minSupport s :
  comma_free transactions ->
  In s (frequent_pairs transactions minSupport) <->
  exists f,
    In f (fst (level transactions
                 (minSupportCount minSupport (Z.of_nat (List.length transactions)))
                 (Z.of_nat (List.length transactions)) 2
                 (all_pairs (frequent_items transactions minSupport))))
    /\ itemset f = s.
Proof.
  intro Hcf.
  pose proof (frequent_items_NoDup transactions minSupport) as Hnd.
  assert (Hall : forall c', In c' (all_pairs (frequent_items transactions minSupport)) ->
                            sort c' = c' /\ c' <> []).
  { intros c' Hc'. apply strict_pair_plain_sort.
    exact (all_pairs_strict _ _ Hnd Hc'). }
  rewrite (level_records _ _ _ _ _ Hcf Hall).
  assert (Hsorted : forall f,
            In f (frequent_entries split
                    (minSupportCount minSupport
                       (Z.of_nat (List.length transactions)))
                    (Z.of_nat (List.length transactions))
                    (count_candidates transactions
                       (all_pairs (frequent_items transactions minSupport)))) ->
            sort (itemset f) = itemset f).
  { intros f Hf.
    apply frequent_entries_In in Hf as (key & n & Hkey & _ & ->).
    rewrite count_candidates_flat in Hkey.
    apply fold_bump_entries in Hkey as [Hkey _].
    apply candidate_keys_In in Hkey as (t & c & Ht & Hc & E & ->).
    destruct (Hall c Hc) as [Hsc Hn]. cbn [itemset].
    rewrite Hsc, split_join; [exact Hsc|exact Hn|].
    intros x Hx. apply (Hcf t x Ht).
    apply (proj1 (contains_all_incl _ _) E), Hx. }
  unfold frequent_pairs. cbv zeta. rewrite in_map_iff. split.
  - intros [i [<- Hi]]. apply in_map_iff in Hi as [f [<- Hf]].
    exists f. split; [exact Hf|]. symmetry. apply Hsorted, Hf.
  - intros [f [Hf <-]]. exists (itemset f).
    split; [apply Hsorted, Hf|apply (in_map itemset), Hf].
Qed.

Lemma combine_pair_shared a b x :
  combine_pair 3 [a; b] [a; x] = [sort [a; b; x]].
Proof.
  unfold combine_pair, canCombine, last_member.
  cbn [seq Nat.sub forallb nth_error option_string_eqb List.length app].
  rewrite String.eqb_refl. reflexivity.
Qed.

(** The join of level 3 forms every triple whose two pairs with the least
    member are there. *)
Lemma combine3_complete sets a b x :
  In [a; b] sets -> In [a; x] sets -> b <> x ->
  In (sort [a; b; x]) (combine_all 3 sets).
Proof.
  induction sets as [|s rest IH]; [contradiction|].
  cbn [combine_all]. rewrite in_app_iff, in_flat_map.
  intros [->|Hb] [E|Hx] Hne.
  - injection E as E. now subst x.
  - left. exists [a; x]. split; [exact Hx|].
    rewrite combine_pair_shared. now left.
  - subst s. left. exists [a; b]. split; [exact Hb|].
    rewrite combine_pair_shared. left.
    apply sort_of_perm. constructor. apply perm_swap.
  - right. now apply IH.
Qed.

Section Completeness.
Variable transactions : list (list string).
Variable minSupport : number.
Hypothesis Hcf : comma_free transactions.
Hypothesis Hb : baskets transactions.

Let total : Z := Z.of_nat (List.length transactions).
Let msc : number := minSupportCount minSupport total.
Let items : list string := frequent_items transactions minSupport.

(** The record that both miners build for a member list. *)
Let record (s : list string) : FrequentItemset :=
  mkFrequentItemset s (div (of_Z (basket_count transactions s)) (of_Z total))
                    (basket_count transactions s).

Lemma apriori_single_complete x :
  (0 < basket_count transactions [x])%Z ->
  geb (of_Z (basket_count transactions [x])) msc = true ->
  In (record [x])
     (frequent_entries (fun item => [item]) msc total (count_items transactions)).
Proof.
  intros Hpos G.
  assert (Hx : In x items).
  { apply (frequent_member _ _ [x]); try assumption. now left. }
  apply frequent_items_In in Hx as [Hx _].
  apply frequent_entries_In.
  exists x, (basket_count transactions [x]).
  split; [|split; [exact G|reflexivity]].
  rewrite count_items_flat. apply fold_bump_entries.
  split; [exact Hx|]. symmetry. now apply bumps_concat.
Qed.

Lemma apriori_pair_complete a b :
  a <> b -> String.leb a b = true ->
  (0 < basket_count transactions [a; b])%Z ->
  geb (of_Z (basket_count transactions [a; b])) msc = true ->
  In (record [a; b])
     (fst (level transactions msc total 2 (all_pairs items))).
Proof.
  intros Hne L Hpos G.
  pose proof (frequent_items_NoDup transactions minSupport) as Hnd.
  fold items in Hnd.
  assert (Ha : In a items)
    by (apply (frequent_member _ _ [a; b]); simpl; auto).
  assert (Hb' : In b items)
    by (apply (frequent_member _ _ [a; b]); simpl; auto).
  assert (Hc : In [a; b] (all_pairs items)).
  { pose proof (all_pairs_complete items a b Ha Hb' Hne) as H.
    now rewrite sort_pair, L in H. }
  apply level_complete; try assumption.
  - now apply all_pairs_NoDup.
  - intros c' Hc'. apply strict_pair_plain_sort.
    exact (all_pairs_strict _ _ Hnd Hc').
Qed.

Lemma apriori_triple_complete a b c :
  a <> b -> b <> c -> String.leb a b = true -> String.leb b c = true ->
  (0 < basket_count transactions [a; b; c])%Z ->
  geb (of_Z (basket_count transactions [a; b; c])) msc = true ->
  In (record [a; b; c])
     (fst (level transactions msc total 3
             (combine_all 3 (frequent_pairs transactions minSupport)))).
Proof.
  intros Hab Hbc Lab Lbc Hpos G.
  assert (Lac : String.leb a c = true) by (eapply leb_trans; eassumption).
  assert (Hac : a <> c).
  { intros ->. apply Hab. now apply String.leb_antisym. }
  destruct (frequent_pairs_spec transactions minSupport Hcf) as [Hnd Hstrict].
  assert (Hpair : forall x y, In x [a; b; c] -> In y [a; b; c] ->
            x <> y -> String.leb x y = true ->
            In [x; y] (frequent_pairs transactions minSupport)).
  { intros x y Hx Hy Hne L.
    assert (Hi : incl [x; y] [a; b; c])
      by (intros z [<-|[<-|[]]]; assumption).
    pose proof (basket_count_anti transactions _ _ Hi) as Hle.
    apply (frequent_pairs_In _ _ _ Hcf).
    exists (record [x; y]). split; [|reflexivity].
    apply apriori_pair_complete; try assumption; [lia|].
    exact (geb_of_Z_mono _ _ _ Hle G). }
  assert (Hc : In [a; b; c]
                  (combine_all 3 (frequent_pairs transactions minSupport))).
  { assert (E : sort [a; b; c] = [a; b; c]).
    { apply sort_of_canonical. repeat constructor; assumption. }
    rewrite <- E. apply combine3_complete; [| |exact Hbc];
      apply Hpair; simpl; auto. }
  apply level_complete; try assumption.
  - now apply combine3_NoDup.
  - intros c' Hc'. split; [|exact (combine_all_not_nil _ _ _ Hc')].
    apply combine_all_In in Hc' as (s1 & s2 & x & _ & _ & _ & _ & ->).
    apply sort_idempotent.
Qed.

End Completeness.

(** The member lists that [aprioriAlgorithm] cannot miss, level by level. *)
Lemma apriori_levels_complete transactions minSupport s :
  comma_free transactions -> baskets transactions ->
  canonical s -> NoDup s -> 1 <= List.length s <= 3 ->
  (0 < basket_count transactions s)%Z ->
  geb (of_Z (basket_count transactions s))
      (minSupportCount minSupport (Z.of_nat (List.length transactions))) = true ->
  let total := Z.of_nat (List.length transactions) in
  let msc := minSupportCount minSupport total in
  In (mkFrequentItemset s
        (div (of_Z (basket_count transactions s)) (of_Z total))
        (basket_count transactions s))
     (frequent_entries (fun item => [item]) msc total (count_items transactions)
      ++ fst (level transactions msc total 2
                (all_pairs (frequent_items transactions minSupport)))
      ++ fst (level transactions msc total 3
                (combine_all 3 (frequent_pairs transactions minSupport)))).
Proof.
  intros Hcf Hb Hcan Hnd Hlen Hpos G total msc.
  rewrite !in_app_iff.
  destruct s as [|a [|b [|c [|d s]]]]; simpl in Hlen; try lia.
  - left. now apply apriori_single_complete.
  - right. left.
    inversion Hcan as [|? ? _ Hhd]; subst. inversion Hhd; subst.
    inversion Hnd as [|? ? Hn _]; subst.
    apply apriori_pair_complete; try assumption.
    intros ->. apply Hn. now left.
  - right. right.
    inversion Hcan as [|? ? Hcan' Hhd]; subst. inversion Hhd; subst.
    inversion Hcan' as [|? ? _ Hhd']; subst. inversion Hhd'; subst.
    inversion Hnd as [|? ? Hn Hnd']; subst.
    inversion Hnd' as [|? ? Hn' _]; subst.
    apply apriori_triple_complete; try assumption.
    + intros ->. apply Hn. now left.
    + intros ->. apply Hn'. now left.
Qed.

(** X4: on baskets that are sets of identifiers without commas,
    [aprioriAlgorithm] misses nothing up to three members: every set of
    one, two or three identifiers that lies in at least one basket and in
    at least ceil(min_support * baskets) of them is returned, in canonical
    order, with the number of its baskets as count and that number over the
    number of baskets as support. *)
Theorem aprioriAlgorithm_complete
    (transactions : list (list string)) (minSupport : number)
    (fis : list FrequentItemset) (s : list string) :
  comma_free transactions -> baskets transactions ->
  aprioriAlgorithm transactions minSupport = Some fis ->
  canonical s -> NoDup s -> 1 <= List.length s <= 3 ->
  (0 < basket_count transactions s)%Z ->
  geb (of_Z (basket_count transactions s))
      (minSupportCount minSupport (Z.of_nat (List.length transactions))) = true ->
  In (mkFrequentItemset s
        (div (of_Z (basket_count transactions s))
             (of_Z (Z.of_nat (List.length transactions))))
        (basket_count transactions s))
     fis.
Proof.
  intros Hcf Hb H Hcan Hnd Hlen Hpos G.
  pose proof (aprioriAlgorithm_three_levels transactions minSupport) as E.
  cbv zeta in E. rewrite E in H.
  assert (Hfis : Some fis = Some fis) by reflexivity.
  rewrite <- H in Hfis at 1.
  apply (f_equal (fun o => match o with Some l => l | None => fis end)) in Hfis.
  cbv beta iota in Hfis. rewrite <- Hfis.
  now apply apriori_levels_complete.
Qed.

Lemma aprioriAlgorithm_complete_witness :
  In (mkFrequentItemset ["Bread"; "Butter"; "Milk"] (Fin 1) 1)
     one_basket_itemsets.
Proof.
  apply (aprioriAlgorithm_complete one_basket one_half one_basket_itemsets
           ["Bread"; "Butter"; "Milk"]
           one_basket_comma_free one_basket_baskets one_basket_run).
  - repeat constructor.
  - repeat constructor; simpl; intuition discriminate.
  - simpl. lia.
  - reflexivity.
  - reflexivity.
Defined.

(** What a record of one of the three levels says. *)
Lemma apriori_levels_sound transactions minSupport f :
  comma_free transactions -> baskets transactions ->
  let total := Z.of_nat (List.length transactions) in
  let msc := minSupportCount minSupport total in
  In f (frequent_entries (fun item => [item]) msc total (count_items transactions)
        ++ fst (level transactions msc total 2
                  (all_pairs (frequent_items transactions minSupport)))
        ++ fst (level transactions msc total 3
                  (combine_all 3 (frequent_pairs transactions minSupport)))) ->
  canonical (itemset f)
  /\ 1 <= List.length (itemset f) <= 3
  /\ count f = basket_count transactions (itemset f)
  /\ (0 < count f)%Z
  /\ geb (of_Z (count f)) msc = true.
Proof.
  intros Hcf Hb total msc. rewrite !in_app_iff. intros [H1|[H2|H3]].
  - apply frequent_entries_In in H1 as (x & n & Hx & G & ->).
    rewrite count_items_flat in Hx.
    apply fold_bump_entries in Hx as [Hx ->].
    cbn [itemset count].
    split; [repeat constructor|].
    split; [simpl; lia|].
    split; [now apply bumps_concat|].
    split; [now apply count_occ_pos_In|exact G].
  - apply level2_In in H2
      as (a & b & _ & _ & _ & L & Hi & Hc & Hpos & _ & G); [|exact Hcf].
    rewrite Hi.
    split; [repeat constructor; exact L|].
    split; [simpl; lia|].
    split; [exact Hc|].
    split; assumption.
  - apply level3_In in H3 as (Hcan & Hl & Hc & Hpos & _ & G); [|exact Hcf].
    split; [exact Hcan|].
    split; [lia|].
    split; [exact Hc|].
    split; assumption.
Qed.

(** X5: the itemsets of [aprioriAlgorithm] are closed downwards, on baskets
    that are sets of identifiers without commas: with an itemset every
    non-empty subset of its members is returned too, and the subset's count
    is at least the count of the itemset. *)
Theorem aprioriAlgorithm_downward_closed
    (transactions : list (list string)) (minSupport : number)
    (fis : list FrequentItemset) (f : FrequentItemset) (s : list string) :
  comma_free transactions -> baskets transactions ->
  aprioriAlgorithm transactions minSupport = Some fis ->
  In f fis ->
  s <> [] -> NoDup s -> incl s (itemset f) ->
  exists g, In g fis /\ itemset g = sort s /\ (count f <= count g)%Z.
Proof.
  intros Hcf Hb H Hin Hne Hnd Hi.
  pose proof (aprioriAlgorithm_three_levels transactions minSupport) as E.
  cbv zeta in E. rewrite E in H.
  assert (Hfis : Some fis = Some fis) by reflexivity.
  rewrite <- H in Hfis at 1.
  apply (f_equal (fun o => match o with Some l => l | None => fis end)) in Hfis.
  cbv beta iota in Hfis. rewrite <- Hfis in Hin |- *. clear Hfis H E.
  apply apriori_levels_sound in Hin as (_ & Hlen & Hc & Hpos & G);
    try assumption.
  pose proof (basket_count_anti transactions _ _ Hi) as Hle.
  rewrite <- Hc in Hle. rewrite <- (basket_count_sort _ s) in Hle.
  exists (mkFrequentItemset (sort s)
            (div (of_Z (basket_count transactions (sort s)))
                 (of_Z (Z.of_nat (List.length transactions))))
            (basket_count transactions (sort s))).
  split; [|split; [reflexivity|exact Hle]].
  apply (apriori_levels_complete transactions minSupport (sort s));
    try assumption.
  - apply sort_canonical.
  - eapply Permutation_NoDup; [apply Permutation_sym, sort_perm|exact Hnd].
  - rewrite sort_length. split.
    + destruct s; [contradiction|simpl; lia].
    + pose proof (NoDup_incl_length Hnd Hi). lia.
  - lia.
  - exact (geb_of_Z_mono _ _ _ Hle G).
Qed.

Lemma aprioriAlgorithm_downward_closed_witness :
  exists g, In g one_basket_itemsets
            /\ itemset g = ["Butter"; "Milk"] /\ (1 <= count g)%Z.
Proof.
  apply (aprioriAlgorithm_downward_closed one_basket one_half
           one_basket_itemsets
           (mkFrequentItemset ["Bread"; "Butter"; "Milk"] (Fin 1) 1)
           ["Milk"; "Butter"]
           one_basket_comma_free one_basket_baskets one_basket_run).
  - simpl. tauto.
  - discriminate.
  - repeat constructor; simpl; intuition discriminate.
  - intros x [<-|[<-|[]]]; simpl; tauto.
Defined.

(** ** No itemset twice *)

Lemma split_not_nil s : split s <> [].
Proof.
  destruct s as [|c s]; simpl; [discriminate|].
  destruct (Ascii.eqb c ","%char); [discriminate|].
  destruct (split s); discriminate.
Qed.

Lemma join_cons_cons x y l :
  join (x :: y :: l) = (x ++ String ","%char (join (y :: l)))%string.
Proof. reflexivity. Qed.

(** Joining the pieces of a string with commas gives the string back. *)
Lemma join_split s : join (split s) = s.
Proof.
  induction s as [|c s IH]; [reflexivity|].
  cbn [split]. destruct (Ascii.eqb c ","%char) eqn:E.
  - apply Ascii.eqb_eq in E. subst c.
    destruct (split s) as [|p ps] eqn:Es; [now apply split_not_nil in Es|].
    rewrite join_cons_cons, IH. reflexivity.
  - destruct (split s) as [|p ps] eqn:Es; [now apply split_not_nil in Es|].
    destruct ps as [|q ps].
    + change (join [p]) with p in IH.
      change (join [String c p]) with (String c p). now rewrite IH.
    + rewrite join_cons_cons in IH |- *. simpl. now rewrite IH.
Qed.

Lemma split_inj s s' : split s = split s' -> s = s'.
Proof.
  intro E. rewrite <- (join_split s), <- (join_split s'). now rewrite E.
Qed.

Lemma NoDup_map_inj {A B : Type} (g : A -> B) (l : list A) :
  (forall x y, g x = g y -> x = y) -> NoDup l -> NoDup (map g l).
Proof. intros H. apply NoDup_map_in_inj. intros x y _ _. apply H. Qed.

(** The member lists of one level are pairwise different. *)
Lemma level_itemsets_NoDup transactions msc total k cands :
  comma_free transactions ->
  (forall c, In c cands -> sort c = c /\ c <> []) ->
  NoDup (map itemset (fst (level transactions msc total k cands))).
Proof.
  intros Hcf Hall. rewrite (level_records _ _ _ _ _ Hcf Hall).
  rewrite frequent_entries_itemsets, count_candidates_flat.
  apply NoDup_map_inj; [apply split_inj|apply frequent_keys_NoDup].
Qed.

Lemma NoDup_app_length {A : Type} (n : nat) (l1 l2 : list (list A)) :
  NoDup l1 -> NoDup l2 ->
  (forall s, In s l1 -> List.length s <= n) ->
  (forall s, In s l2 -> n < List.length s) ->
  NoDup (l1 ++ l2).
Proof.
  intros H1 H2 L1 L2. apply NoDup_app; try assumption.
  intros s Hs Hs'. specialize (L1 s Hs). specialize (L2 s Hs'). lia.
Qed.

Lemma sortedItems_NoDup transactions minSupport :
  NoDup (map fst (sortedItems transactions
                    (minSupportCount minSupport
                       (Z.of_nat (List.length transactions))))).
Proof.
  eapply Permutation_NoDup;
    [apply Permutation_sym, (sortedItems_items transactions minSupport)|].
  apply frequent_items_NoDup.
Qed.

(** X6: neither miner returns a member list twice: [fpGrowthAlgorithm] on
    every input, [aprioriAlgorithm] when no identifier contains a comma. *)
Theorem miners_return_each_itemset_once
    (transactions : list (list string)) (minSupport : number) :
  NoDup (map itemset (fpGrowthAlgorithm transactions minSupport))
  /\ (comma_free transactions ->
      forall fis,
        aprioriAlgorithm transactions minSupport = Some fis ->
        NoDup (map itemset fis)).
Proof.
  split.
  - unfold fpGrowthAlgorithm. cbv zeta. rewrite map_app.
    pose proof (sortedItems_NoDup transactions minSupport) as Hnd.
    set (total := Z.of_nat (List.length transactions)) in *.
    set (msc := minSupportCount minSupport total) in *.
    apply (NoDup_app_length 1).
    + rewrite map_map.
      rewrite (map_ext _ (fun e => [fst e])) by (now intros [x c]).
      rewrite <- (map_map fst (fun x => [x])).
      apply NoDup_map_inj; [|exact Hnd]. intros x y E. now injection E.
    + apply NoDup_map_in_inj; [|apply pair_entries_NoDup, Hnd].
      intros f g Hf Hg E.
      apply (pair_entries_spec _ _ _ _ Hnd) in Hf
        as (a & b & _ & _ & _ & -> & _).
      apply (pair_entries_spec _ _ _ _ Hnd) in Hg
        as (a' & b' & _ & _ & _ & -> & _).
      unfold pair_record in E. cbn [itemset] in E.
      apply sort_pair_inj in E as [[-> ->]|[-> ->]];
        [reflexivity|apply pair_record_swap].
    + intros s Hs. apply in_map_iff in Hs as [f [<- Hf]].
      apply in_map_iff in Hf as [[x c] [<- _]]. simpl. lia.
    + intros s Hs. apply in_map_iff in Hs as [f [<- Hf]].
      apply pair_entries_In in Hf as (a & b & _ & _ & -> & _).
      cbn [itemset]. rewrite sort_length. simpl. lia.
  - intros Hcf fis H.
    pose proof (aprioriAlgorithm_three_levels transactions minSupport) as E.
    cbv zeta in E. rewrite E in H.
    assert (Hfis : Some fis = Some fis) by reflexivity.
    rewrite <- H in Hfis at 1.
    apply (f_equal (fun o => match o with Some l => l | None => fis end))
      in Hfis.
    cbv beta iota in Hfis. rewrite <- Hfis. clear Hfis H E.
    set (total := Z.of_nat (List.length transactions)).
    set (msc := minSupportCount minSupport total).
    pose proof (frequent_items_NoDup transactions minSupport) as Hnd.
    destruct (frequent_pairs_spec transactions minSupport Hcf)
      as [Hnd2 Hstrict].
    rewrite !map_app.
    apply (NoDup_app_length 1); [|apply (NoDup_app_length 2)|..].
    + rewrite frequent_entries_itemsets.
      apply NoDup_map_inj; [intros x y E; now injection E|].
      unfold frequent_keys. apply NoDup_map_fst_filter.
      rewrite count_items_flat.
      apply (fold_bump_spec _ [] (NoDup_nil _)).
    + apply level_itemsets_NoDup; [exact Hcf|].
      intros c Hc. apply strict_pair_plain_sort.
      exact (all_pairs_strict _ _ Hnd Hc).
    + apply level_itemsets_NoDup; [exact Hcf|].
      intros c Hc. split; [|exact (combine_all_not_nil _ _ _ Hc)].
      apply combine_all_In in Hc as (s1 & s2 & x & _ & _ & _ & _ & ->).
      apply sort_idempotent.
    + intros s Hs. apply in_map_iff in Hs as [f [<- Hf]].
      apply level2_In in Hf as (a & b & _ & _ & _ & _ & -> & _);
        [simpl; lia|exact Hcf].
    + intros s Hs. apply in_map_iff in Hs as [f [<- Hf]].
      apply level3_In in Hf as (_ & -> & _); [lia|exact Hcf].
    + intros s Hs. apply in_map_iff in Hs as [f [<- Hf]].
      apply frequent_entries_In in Hf as (x & c & _ & _ & ->). simpl. lia.
    + intros s Hs. apply in_app_iff in Hs as [Hs|Hs];
        apply in_map_iff in Hs as [f [<- Hf]].
      * apply level2_In in Hf as (a & b & _ & _ & _ & _ & -> & _);
          [simpl; lia|exact Hcf].
      * apply level3_In in Hf as (_ & -> & _); [lia|exact Hcf].
Qed.

(** ** What [fpGrowthAlgorithm] does not miss, and its order *)

(** X7: [fpGrowthAlgorithm] on baskets that are sets misses no identifier
    and no pair: every identifier that occurs in at least
    ceil(min_support * baskets) baskets is returned as a singleton, and every
    two different identifiers that occur are returned as a pair when the
    number of baskets with both reaches that threshold, also when that
    number is 0 and the threshold is not positive. *)
Theorem fpGrowthAlgorithm_complete
    (transactions : list (list string)) (minSupport : number) :
  baskets transactions ->
  let total := Z.of_nat (List.length transactions) in
  let msc := minSupportCount minSupport total in
  (forall x,
      In x (List.concat transactions) ->
      geb (of_Z (basket_count transactions [x])) msc = true ->
      In (mkFrequentItemset [x]
            (div (of_Z (basket_count transactions [x])) (of_Z total))
            (basket_count transactions [x]))
         (fpGrowthAlgorithm transactions minSupport))
  /\ (forall a b,
        In a (List.concat transactions) -> In b (List.concat transactions) ->
        a <> b ->
        geb (of_Z (basket_count transactions [a; b])) msc = true ->
        In (mkFrequentItemset (sort [a; b])
              (div (of_Z (basket_count transactions [a; b])) (of_Z total))
              (basket_count transactions [a; b]))
           (fpGrowthAlgorithm transactions minSupport)).
Proof.
  intros Hb total msc.
  assert (Hsingle : forall x,
            In x (List.concat transactions) ->
            geb (of_Z (basket_count transactions [x])) msc = true ->
            In (x, basket_count transactions [x])
               (sortedItems transactions msc)).
  { intros x Hx G. apply sortedItems_In.
    split; [exact Hx|]. split; [|exact G].
    symmetry. now apply bumps_concat. }
  unfold fpGrowthAlgorithm. cbv zeta. fold total. fold msc. split.
  - intros x Hx G. apply in_or_app. left.
    apply in_map_iff. exists (x, basket_count transactions [x]).
    split; [reflexivity|now apply Hsingle].
  - intros a b Ha Hb' Hne G. apply in_or_app. right.
    apply (pair_entries_spec _ _ _ _ (sortedItems_NoDup transactions minSupport)).
    exists a, b.
    assert (Hin : forall x, In x [a; b] -> In x (List.concat transactions) ->
                    In x (map fst (sortedItems transactions msc))).
    { intros x Hx Hocc. apply in_map_iff.
      exists (x, basket_count transactions [x]). split; [reflexivity|].
      apply Hsingle; [exact Hocc|].
      apply (geb_of_Z_mono (basket_count transactions [a; b])); [|exact G].
      apply basket_count_anti. intros y [<-|[]]. exact Hx. }
    split; [apply Hin; simpl; auto|].
    split; [apply Hin; simpl; auto|].
    split; [exact Hne|]. split; [reflexivity|exact G].
Qed.

Lemma fpGrowthAlgorithm_complete_witness :
  In (mkFrequentItemset ["a"; "b"] (Fin 0) 0)
     (fpGrowthAlgorithm apart (Fin 0)).
Proof.
  apply (proj2 (fpGrowthAlgorithm_complete apart (Fin 0)
                  ltac:(intros t [<-|[<-|[]]]; repeat constructor; simpl; tauto))
               "a" "b").
  - simpl. tauto.
  - simpl. tauto.
  - discriminate.
  - reflexivity.
Defined.

Lemma StronglySorted_filter {A : Type} (R : A -> A -> Prop) (p : A -> bool) l :
  StronglySorted R l -> StronglySorted R (filter p l).
Proof.
  induction 1 as [|x l Hs IH Hall]; simpl; [constructor|].
  destruct (p x); [|exact IH]. constructor; [exact IH|].
  rewrite Forall_forall in *. intros y Hy. apply Hall.
  apply filter_In in Hy. tauto.
Qed.

Lemma StronglySorted_map {A B : Type} (R : B -> B -> Prop) (g : A -> B) l :
  StronglySorted (fun x y => R (g x) (g y)) l -> StronglySorted R (map g l).
Proof.
  induction 1 as [|x l Hs IH Hall]; simpl; constructor; [exact IH|].
  rewrite Forall_forall in *. intros y Hy.
  apply in_map_iff in Hy as [z [<- Hz]]. now apply Hall.
Qed.

(** X8: the order of what [fpGrowthAlgorithm] returns: the singletons come
    first, from the most frequent identifier down (none has a smaller count
    than one after it), and the pairs follow. *)
Theorem fpGrowthAlgorithm_order
    (transactions : list (list string)) (minSupport : number) :
  exists singles pairs,
    fpGrowthAlgorithm transactions minSupport = singles ++ pairs
    /\ (forall f, In f singles -> List.length (itemset f) = 1)
    /\ (forall f, In f pairs -> List.length (itemset f) = 2)
    /\ StronglySorted (fun f g => (count g <= count f)%Z) singles.
Proof.
  unfold fpGrowthAlgorithm. cbv zeta.
  set (total := Z.of_nat (List.length transactions)).
  set (msc := minSupportCount minSupport total).
  eexists. eexists. split; [reflexivity|]. split; [|split].
  - intros f Hf. apply in_map_iff in Hf as [[x c] [<- _]]. reflexivity.
  - intros f Hf. apply pair_entries_In in Hf as (a & b & _ & _ & -> & _).
    cbn [itemset]. now rewrite sort_length.
  - apply StronglySorted_map.
    assert (H : StronglySorted (fun x y : string * Z => (snd y <= snd x)%Z)
                  (sortedItems transactions msc)).
    { unfold sortedItems. apply StronglySorted_filter.
      apply Sorted_StronglySorted; [|apply sort_by_count_descending].
      intros x y z. lia. }
    eapply StronglySorted_ind with (P := fun l => StronglySorted _ l);
      [| |exact H].
    + constructor.
    + intros [x c] l _ IH Hall. constructor; [exact IH|].
      rewrite Forall_forall in *. intros [y d] Hy. exact (Hall _ Hy).
Qed.

(** ** The confidence of an emitted rule *)

(** (c/n) / (a/n) passes a threshold only when a is not 0, and then it is
    c / a, at most 1 when c is at most a. *)
Lemma confidence_ratio (c a n : Z) (mc : number) :
  (0 < n)%Z -> (0 <= c <= a)%Z ->
  geb (div (div (of_Z c) (of_Z n)) (div (of_Z a) (of_Z n))) mc = true ->
  (0 < a)%Z
  /\ div (div (of_Z c) (of_Z n)) (div (of_Z a) (of_Z n)) = div (of_Z c) (of_Z a)
  /\ geb (Fin 1) (div (of_Z c) (of_Z a)) = true.
Proof.
  intros Hn Hc. unfold of_Z.
  assert (Hn0 : ~ (inject_Z n == 0)%Q) by (rewrite inject_Z_eq0; lia).
  rewrite !(div_fin _ _ Hn0).
  destruct (Z.eq_dec a 0) as [->|Ha].
  - assert (E : c = 0%Z) by lia. subst c.
    assert (Ez : (Qred (inject_Z 0 / inject_Z n) == 0)%Q).
    { rewrite Qred_correct. unfold Qdiv. ring. }
    rewrite (div_fin_zero _ _ Ez).
    assert (Hsgn : sgn (Qred (inject_Z 0 / inject_Z n)) = Eq)
      by (unfold sgn; now apply Qeq_alt).
    rewrite Hsgn. cbn [inf_of geb]. discriminate.
  - intros _.
    assert (Ha0 : ~ (inject_Z a == 0)%Q) by (rewrite inject_Z_eq0; lia).
    assert (Hz : ~ (Qred (inject_Z a / inject_Z n) == 0)%Q).
    { rewrite Qred_correct. intro E. apply Ha0, (Qdiv_eq0 _ _ Hn0 E). }
    rewrite (div_fin _ _ Hz), (div_fin _ _ Ha0).
    split; [lia|]. split.
    + f_equal. apply Qred_complete. rewrite !Qred_correct.
      field. split; assumption.
    + cbn [geb]. apply Qle_bool_iff. rewrite Qred_correct.
      apply Qle_shift_div_r.
      * apply inject_Z_pos. lia.
      * rewrite Qmult_1_l. rewrite <- Zle_Qle. lia.
Qed.

(** X9: the confidence of an emitted rule is a frequency among the baskets
    that hold its antecedent.  When every itemset handed to
    [generateAssociationRules] carries the number of its baskets as count
    and that number over the number of baskets as support, every rule it
    emits has an antecedent that occurs in some basket; its confidence is
    a number from 0 to 1; it is 1 exactly when every basket that holds the
    antecedent holds the consequent too (as many baskets hold both sides
    as hold the antecedent), and 0 exactly when no basket holds both
    sides.  All of this is order and equality with 0 and 1, which the
    rounding of the two frequencies and of their quotient keeps (for the
    bound 1, [rounded_confidence_at_most_one]). *)
Theorem confidence_in_unit_interval
    (frequentItemsets : list FrequentItemset) (minConfidence : number)
    (transactions : list (list string)) (r : AssociationRule) :
  (forall f, In f frequentItemsets ->
     count f = basket_count transactions (itemset f)
     /\ support f
        = div (of_Z (count f)) (of_Z (Z.of_nat (List.length transactions)))) ->
  In r (generateAssociationRules frequentItemsets minConfidence transactions) ->
  (0 < basket_count transactions (Rule.antecedent r))%Z
  /\ geb (Rule.confidence r) (Fin 0) = true
  /\ geb (Fin 1) (Rule.confidence r) = true
  /\ (Rule.confidence r = Fin 1
      <-> basket_count transactions (Rule.antecedent r ++ Rule.consequent r)
          = basket_count transactions (Rule.antecedent r))
  /\ (Rule.confidence r = Fin 0
      <-> basket_count transactions (Rule.antecedent r ++ Rule.consequent r)
          = 0%Z).
Proof.
  intros Hall Hin. unfold generateAssociationRules in Hin.
  apply in_flat_map in Hin as [f [Hf Hin]].
  apply filter_In in Hf as [Hf _].
  apply in_flat_map in Hin as [i [_ Hin]].
  destruct transactions as [|t0 ts] eqn:Et.
  { now rewrite rule_of_mask_no_baskets in Hin. }
  rewrite <- Et in *.
  apply rule_of_mask_spec in Hin as (_ & _ & _ & _ & Hp & _ & Hconf & Hge & _).
  destruct (Hall f Hf) as [Hc Hs].
  rewrite (basket_count_perm _ _ _ Hp), <- Hc.
  rewrite Hconf, Hs in Hge |- *.
  set (n := Z.of_nat (List.length transactions)) in *.
  assert (Hn : (0 < n)%Z) by (unfold n; rewrite Et; simpl; lia).
  assert (Hle : (0 <= count f
                 <= basket_count transactions (Rule.antecedent r))%Z).
  { rewrite Hc. split; [apply basket_count_bounds|].
    apply basket_count_anti. intros x Hx.
    eapply Permutation_in; [exact Hp|]. apply in_or_app. now left. }
  destruct (confidence_ratio _ _ n minConfidence Hn Hle Hge) as (Hpos & E & H1).
  rewrite E. clear E Hge Hconf.
  set (a := basket_count transactions (Rule.antecedent r)) in *.
  set (c := count f) in *.
  assert (Ha0 : ~ (inject_Z a == 0)%Q) by (rewrite inject_Z_eq0; lia).
  assert (Hapos : (0 < inject_Z a)%Q) by (apply inject_Z_pos; exact Hpos).
  assert (Ediv : div (of_Z c) (of_Z a)
                 = Fin (Qred (inject_Z c / inject_Z a)))
    by (unfold of_Z; apply div_fin; exact Ha0).
  rewrite Ediv in *.
  assert (Hq : forall q0 : Q,
             Qred (inject_Z c / inject_Z a) = q0 ->
             (inject_Z c / inject_Z a == q0)%Q).
  { intros q0 <-. symmetry. apply Qred_correct. }
  split; [exact Hpos|]. split; [|split; [exact H1|split]].
  - cbn [geb]. apply Qle_bool_iff. rewrite Qred_correct.
    apply Qle_shift_div_l; [exact Hapos|].
    rewrite Qmult_0_l, <- (Zle_Qle 0). lia.
  - split.
    + intro Eq. injection Eq as Eq. apply Hq in Eq.
      assert (Eca : (inject_Z c == inject_Z a)%Q).
      { setoid_replace (inject_Z c)
          with ((inject_Z c / inject_Z a) * inject_Z a)%Q
          by (field; exact Ha0).
        rewrite Eq. ring. }
      unfold Qeq in Eca. simpl in Eca. lia.
    + intro Eq. rewrite Eq. apply (f_equal Fin).
      transitivity (Qred 1); [|reflexivity].
      apply Qred_complete. field. exact Ha0.
  - split.
    + intro Eq. injection Eq as Eq. apply Hq in Eq.
      apply (Qdiv_eq0 _ _ Ha0) in Eq.
      now apply (proj1 (inject_Z_eq0 _)) in Eq.
    + intro Eq. rewrite Eq. apply (f_equal Fin).
      transitivity (Qred 0); [|reflexivity].
      apply Qred_complete. field. exact Ha0.
Qed.

Lemma confidence_in_unit_interval_witness :
  (0 < basket_count [["Bread"; "Milk"; "Butter"]; ["Bread"; "Milk"]] ["Bread"])%Z
  /\ geb (Fin (1 # 2)) (Fin 0) = true
  /\ geb (Fin 1) (Fin (1 # 2)) = true.
Proof.
  destruct (confidence_in_unit_interval
              [mkFrequentItemset ["Bread"; "Butter"] (Fin (1 # 2)) 1] one_half
              [["Bread"; "Milk"; "Butter"]; ["Bread"; "Milk"]]
              (mkAssociationRule ["Bread"] ["Butter"] (Fin (1 # 2)) (Fin (1 # 2))
                                 (Fin 1)))
    as (H1 & H2 & H3 & _).
  - intros f [<-|[]]. split; reflexivity.
  - vm_compute. left. reflexivity.
  - auto.
Defined.

(** ** The rule generator tries every split *)

Lemma mask_of_testbit p items k :
  N.testbit (mask_of p items) (N.of_nat k)
  = match nth_error items k with Some x => p x | None => false end.
Proof.
  revert k. induction items as [|x rest IH]; intro k.
  - cbn [mask_of]. rewrite N.bits_0. now destruct k.
  - cbn [mask_of]. destruct k as [|k].
    + now rewrite N.testbit_0_r.
    + rewrite Nat2N.inj_succ, N.testbit_succ_r. apply IH.
Qed.

Lemma mask_of_lt p items :
  (mask_of p items < 2 ^ N.of_nat (List.length items))%N.
Proof.
  induction items as [|x rest IH]; cbn [mask_of List.length].
  - simpl. lia.
  - rewrite Nat2N.inj_succ, N.pow_succ_r'. destruct (p x); simpl N.b2n; lia.
Qed.

Lemma mask_of_pos p items x :
  In x items -> p x = true -> (0 < mask_of p items)%N.
Proof.
  induction items as [|y rest IH]; [contradiction|].
  cbn [mask_of]. intros [->|Hx] Hp.
  - rewrite Hp. simpl N.b2n. lia.
  - specialize (IH Hx Hp). lia.
Qed.

Lemma mask_of_not_full p items x :
  In x items -> p x = false ->
  (mask_of p items < 2 ^ N.of_nat (List.length items) - 1)%N.
Proof.
  induction items as [|y rest IH]; [contradiction|].
  cbn [mask_of List.length]. rewrite Nat2N.inj_succ, N.pow_succ_r'.
  pose proof (mask_of_lt p rest) as Hlt.
  intros [->|Hx] Hp.
  - rewrite Hp. simpl N.b2n. lia.
  - specialize (IH Hx Hp). destruct (p y); simpl N.b2n; lia.
Qed.

(** When the bits of [i] from position [j] on say [p] of the members, the
    loop over j cuts the members by [p]. *)
Lemma split_by_mask_filter p i j items :
  (forall k x, nth_error items k = Some x -> mask_bit i (j + k) = p x) ->
  split_by_mask i j items
  = (filter p items, filter (fun x => negb (p x)) items).
Proof.
  revert j. induction items as [|x rest IH]; intros j H; [reflexivity|].
  cbn [split_by_mask filter].
  rewrite (IH (S j)).
  - pose proof (H 0 x eq_refl) as H0. rewrite Nat.add_0_r in H0.
    rewrite H0. now destruct (p x).
  - intros k y Hk. rewrite <- (H (S k) y Hk). f_equal. lia.
Qed.

Lemma split_by_mask_of p items :
  List.length items <= 32 ->
  split_by_mask (mask_of p items) 0 items
  = (filter p items, filter (fun x => negb (p x)) items).
Proof.
  intro Hlen. apply split_by_mask_filter. intros k x Hk.
  assert (Hlt : k < List.length items)
    by (apply nth_error_Some; congruence).
  unfold mask_bit. cbn [Nat.add].
  rewrite Nat.mod_small by lia.
  rewrite mask_of_testbit, Hk. reflexivity.
Qed.

Lemma masks_In n (i : N) :
  (0 < i < 2 ^ N.of_nat n - 1)%N -> In i (masks n).
Proof.
  intro H. unfold masks. rewrite <- (N2Nat.id i).
  apply in_map, in_seq.
  assert (E : N.to_nat (2 ^ N.of_nat n) = 2 ^ n).
  { rewrite N2Nat.inj_pow, Nat2N.id. reflexivity. }
  lia.
Qed.

(** Cutting a duplicate-free member list by membership in one part of a
    partition gives the two parts back, up to order. *)
Lemma filter_partition (a c items : list string) :
  NoDup items -> Permutation (a ++ c) items ->
  Permutation (filter (includes a) items) a
  /\ Permutation (filter (fun x => negb (includes a x)) items) c.
Proof.
  intros Hnd Hp.
  assert (Hac : NoDup (a ++ c))
    by (eapply Permutation_NoDup; [apply Permutation_sym, Hp|exact Hnd]).
  split; apply NoDup_Permutation.
  - now apply NoDup_filter.
  - exact (NoDup_app_remove_r _ _ Hac).
  - intro x. rewrite filter_In, includes_In. split; [tauto|].
    intro Hx. split; [|exact Hx].
    eapply Permutation_in; [exact Hp|]. apply in_or_app. now left.
  - now apply NoDup_filter.
  - exact (NoDup_app_remove_l _ _ Hac).
  - intro x. rewrite filter_In, negb_true_iff. split.
    + intros [Hx Hn].
      assert (Hx' : In x (a ++ c))
        by (eapply Permutation_in; [apply Permutation_sym, Hp|exact Hx]).
      apply in_app_or in Hx' as [Hx'|Hx']; [|exact Hx'].
      apply includes_In in Hx'. congruence.
    + intro Hx. split.
      * eapply Permutation_in; [exact Hp|]. apply in_or_app. now right.
      * destruct (includes a x) eqn:E; [|reflexivity].
        apply includes_In in E.
        exfalso. exact (NoDup_app_disjoint _ _ _ Hac E Hx).
Qed.

(** X10: [generateAssociationRules] tries every split.  For an itemset of
    at most 32 different members that it is given, and every way of cutting
    the members into a non-empty antecedent and a non-empty consequent, the
    rule of that split is emitted when its confidence reaches
    min_confidence. *)
Theorem generateAssociationRules_complete
    (frequentItemsets : list FrequentItemset) (minConfidence : number)
    (transactions : list (list string))
    (f : FrequentItemset) (a c : list string) :
  In f frequentItemsets ->
  NoDup (itemset f) -> List.length (itemset f) <= 32 ->
  a <> [] -> c <> [] -> Permutation (a ++ c) (itemset f) ->
  let total := Z.of_nat (List.length transactions) in
  let confidence :=
    div (support f) (div (of_Z (basket_count transactions a)) (of_Z total)) in
  geb confidence minConfidence = true ->
  In (mkAssociationRule (sort a) (sort c) (support f) confidence
        (div confidence (div (of_Z (count f)) (of_Z total))))
     (generateAssociationRules frequentItemsets minConfidence transactions).
Proof.
  intros Hf Hnd Hlen Ha Hc Hp total confidence G.
  destruct (filter_partition a c (itemset f) Hnd Hp) as [Pa Pc].
  assert (Hl : List.length (itemset f) = List.length a + List.length c)
    by (rewrite <- (Permutation_length Hp); apply length_app).
  unfold generateAssociationRules. apply in_flat_map. exists f. split.
  { apply filter_In. split; [exact Hf|]. apply Nat.leb_le.
    destruct a; [contradiction|]. destruct c; [contradiction|].
    simpl in Hl. lia. }
  unfold rules_of_itemset. apply in_flat_map.
  exists (mask_of (includes a) (itemset f)). split.
  { apply masks_In. split.
    - destruct a as [|x a']; [contradiction|].
      apply (mask_of_pos _ _ x).
      + eapply Permutation_in; [exact Hp|]. now left.
      + apply includes_In. now left.
    - destruct c as [|y c']; [contradiction|].
      apply (mask_of_not_full _ _ y).
      + eapply Permutation_in; [exact Hp|]. apply in_or_app. right. now left.
      + destruct (includes a y) eqn:E; [|reflexivity].
        apply includes_In in E. exfalso.
        assert (Hac : NoDup (a ++ y :: c'))
          by (eapply Permutation_NoDup; [apply Permutation_sym, Hp|exact Hnd]).
        apply (NoDup_app_disjoint _ _ _ Hac E). now left. }
  unfold rule_of_mask. rewrite (split_by_mask_of _ _ Hlen).
  assert (Hea : is_empty (filter (includes a) (itemset f)) = false).
  { apply is_empty_false. intro E. rewrite E in Pa.
    apply Permutation_nil in Pa. contradiction. }
  assert (Hec : is_empty (filter (fun x => negb (includes a x)) (itemset f))
                = false).
  { apply is_empty_false. intro E. rewrite E in Pc.
    apply Permutation_nil in Pc. contradiction. }
  rewrite Hea, Hec. cbn [orb].
  rewrite (basket_count_perm _ _ _ Pa). fold total. fold confidence.
  rewrite G. rewrite (sort_of_perm _ _ Pa), (sort_of_perm _ _ Pc).
  now left.
Qed.

Lemma generateAssociationRules_complete_witness :
  In (mkAssociationRule ["Butter"] ["Bread"] (Fin (1 # 2)) (Fin 1) (Fin 2))
     (generateAssociationRules
        [mkFrequentItemset ["Bread"; "Butter"] (Fin (1 # 2)) 1] one_half
        [["Bread"; "Milk"; "Butter"]; ["Bread"; "Milk"]]).
Proof.
  apply (generateAssociationRules_complete
           [mkFrequentItemset ["Bread"; "Butter"] (Fin (1 # 2)) 1] one_half
           [["Bread"; "Milk"; "Butter"]; ["Bread"; "Milk"]]
           (mkFrequentItemset ["Bread"; "Butter"] (Fin (1 # 2)) 1)
           ["Butter"] ["Bread"]).
  - now left.
  - repeat constructor; simpl; intuition discriminate.
  - simpl. lia.
  - discriminate.
  - discriminate.
  - apply perm_swap.
  - reflexivity.
Defined.

(** ** The baskets that [getTransactionData] builds *)

Lemma push_items_keys m tid items :
  map fst (push_items m tid items)
  = if existsb (Z.eqb tid) (map fst m) then map fst m else map fst m ++ [tid].
Proof.
  induction m as [|[tid' l] m IH]; [reflexivity|].
  cbn [push_items map fst existsb].
  destruct (tid =? tid')%Z; [reflexivity|].
  cbn [map fst orb]. rewrite IH.
  now destruct (existsb (Z.eqb tid) (map fst m)).
Qed.

Lemma existsb_Zeqb tid l : existsb (Z.eqb tid) l = true <-> In tid l.
Proof.
  rewrite existsb_exists. split.
  - intros [x [Hx E]]. apply Z.eqb_eq in E. now subst.
  - intro H. exists tid. split; [exact H|apply Z.eqb_refl].
Qed.

Lemma push_items_NoDup m tid items :
  NoDup (map fst m) -> NoDup (map fst (push_items m tid items)).
Proof.
  intro H. rewrite push_items_keys.
  destruct (existsb (Z.eqb tid) (map fst m)) eqn:E; [exact H|].
  apply NoDup_app; [exact H|repeat constructor; intros []|].
  intros x Hx [<-|[]]. apply existsb_Zeqb in Hx. congruence.
Qed.

Lemma push_items_key_In m tid items t :
  In t (map fst (push_items m tid items)) <-> In t (map fst m) \/ t = tid.
Proof.
  rewrite push_items_keys.
  destruct (existsb (Z.eqb tid) (map fst m)) eqn:E.
  - apply existsb_Zeqb in E. split; [tauto|]. intros [H| ->]; assumption.
  - rewrite in_app_iff. simpl. intuition.
Qed.

(** The members that one transaction has collected after a push. *)
Lemma push_items_In m tid items t l :
  NoDup (map fst m) ->
  In (t, l) (push_items m tid items) ->
  (t <> tid /\ In (t, l) m)
  \/ (t = tid /\ exists l0, l = l0 ++ items
                            /\ (In (t, l0) m
                                \/ (l0 = [] /\ ~ In t (map fst m)))).
Proof.
  induction m as [|[tid' l'] m IH]; intros Hnd.
  - simpl. intros [E|[]]. injection E as <- <-.
    right. split; [reflexivity|]. exists []. auto.
  - inversion Hnd as [|? ? Hn Hnd']; subst.
    cbn [push_items]. destruct (Z.eqb_spec tid tid') as [->|Hne].
    + intros [E|H].
      * injection E as <- <-. right. split; [reflexivity|].
        exists l'. split; [reflexivity|]. left. now left.
      * left. split; [|now right].
        intros ->. apply Hn. apply (in_map fst) in H. exact H.
    + intros [E|H].
      * injection E as <- <-. left. split; [congruence|now left].
      * destruct (IH Hnd' H) as [[H1 H2]|[-> (l0 & -> & [H2|[-> H2]])]].
        -- left. split; [exact H1|now right].
        -- right. split; [reflexivity|]. exists l0.
           split; [reflexivity|]. left. now right.
        -- right. split; [reflexivity|]. exists [].
           split; [reflexivity|]. right. split; [reflexivity|].
           simpl. intros [E|E]; [congruence|contradiction].
Qed.

Lemma entry_unique (m : list (Z * list string)) t l l' :
  NoDup (map fst m) -> In (t, l) m -> In (t, l') m -> l = l'.
Proof.
  induction m as [|[t0 l0] m IH]; [contradiction|].
  intros Hnd H H'. inversion Hnd as [|? ? Hn Hnd']; subst.
  destruct H as [E|H], H' as [E'|H'].
  - congruence.
  - exfalso. apply Hn. injection E as -> _.
    apply (in_map fst) in H'. exact H'.
  - exfalso. apply Hn. injection E' as -> _.
    apply (in_map fst) in H. exact H.
  - now apply IH.
Qed.

Lemma repeat_In {A : Type} (x y : A) n : In y (repeat x n) <-> y = x /\ 0 < n.
Proof.
  induction n as [|n IH]; simpl.
  - split; [intros []|lia].
  - rewrite IH. split.
    + intros [<-|[-> _]]; split; auto; lia.
    + intros [-> _]. now left.
Qed.

(** The map of [getTransactionData] after the loop over the rows: one entry
    for every transaction with a row, holding the names of its rows of
    positive quantity. *)
Lemma group_rows_spec rows :
  let m := group_rows rows in
  NoDup (map fst m)
  /\ (forall tid, In tid (map fst m)
                  <-> exists r, In r rows /\ transaction_id r = tid)
  /\ (forall tid items x,
         In (tid, items) m ->
         (In x items
          <-> exists r, In r rows /\ transaction_id r = tid
                        /\ item_name r = x /\ (0 < quantity r)%Z)).
Proof.
  unfold group_rows.
  assert (G : forall rows m0,
            NoDup (map fst m0) ->
            let m := fold_left
                       (fun m r => push_items m (transaction_id r)
                                     (repeat (item_name r) (Z.to_nat (quantity r))))
                       rows m0 in
            NoDup (map fst m)
            /\ (forall tid, In tid (map fst m)
                  <-> In tid (map fst m0)
                      \/ exists r, In r rows /\ transaction_id r = tid)
            /\ (forall tid items x,
                  In (tid, items) m ->
                  (In x items
                   <-> (exists l0, In (tid, l0) m0 /\ In x l0)
                       \/ exists r, In r rows /\ transaction_id r = tid
                                    /\ item_name r = x /\ (0 < quantity r)%Z))).
  { clear rows. induction rows as [|r rows IH]; intros m0 Hnd m.
    - subst m. cbn [fold_left]. split; [exact Hnd|]. split.
      + intro tid. split; [tauto|]. intros [H|[r [[] _]]]. exact H.
      + intros tid items x Hin. split.
        * intro Hx. left. now exists items.
        * intros [[l0 [Hl0 Hx]]|[r [[] _]]].
          now rewrite (entry_unique _ _ _ _ Hnd Hin Hl0).
    - subst m. cbn [fold_left].
      set (m1 := push_items m0 (transaction_id r)
                   (repeat (item_name r) (Z.to_nat (quantity r)))).
      assert (Hnd1 : NoDup (map fst m1)) by now apply push_items_NoDup.
      destruct (IH m1 Hnd1) as (N & K & M). cbv zeta in N, K, M.
      split; [exact N|]. split.
      + intro tid. rewrite K. unfold m1. rewrite push_items_key_In.
        split.
        * intros [[H| ->]|[r' [Hr' E]]]; auto.
          -- right. exists r. simpl. auto.
          -- right. exists r'. simpl. auto.
        * intros [H|[r' [[<-|Hr'] E]]]; auto.
          right. now exists r'.
      + intros tid items x Hin. rewrite (M tid items x Hin). split.
        * intros [[l0 [Hl0 Hx]]|[r' [Hr' R]]].
          -- apply (push_items_In _ _ _ _ _ Hnd) in Hl0
               as [[Hne H]|[-> (l1 & -> & [H|[-> H]])]].
             ++ left. now exists l0.
             ++ apply in_app_or in Hx as [Hx|Hx].
                ** left. now exists l1.
                ** apply repeat_In in Hx as [-> Hq].
                   right. exists r. simpl. repeat split; auto. lia.
             ++ apply repeat_In in Hx as [-> Hq].
                right. exists r. simpl. repeat split; auto. lia.
          -- right. exists r'. simpl. tauto.
        * intros [[l0 [Hl0 Hx]]|[r' [[<-|Hr'] (E & <- & Hq)]]].
          -- left.
             destruct (Z.eq_dec tid (transaction_id r)) as [->|Hne].
             ++ assert (Hk : In (transaction_id r) (map fst m1)).
                { unfold m1. rewrite push_items_key_In. now right. }
                apply in_map_iff in Hk as [[t l1] [Et Hk]].
                simpl in Et. subst t. exists l1. split; [exact Hk|].
                apply (push_items_In _ _ _ _ _ Hnd) in Hk
                  as [[Hne _]|[_ (l2 & -> & [H|[_ H]])]];
                  [congruence| |].
                ** apply in_or_app. left.
                   now rewrite (entry_unique _ _ _ _ Hnd H Hl0).
                ** exfalso. apply H. apply (in_map fst) in Hl0. exact Hl0.
             ++ exists l0. split; [|exact Hx].
                clear - Hl0 Hne. unfold m1.
                induction m0 as [|[t l] m0 IHm]; [contradiction|].
                cbn [push_items].
                destruct (Z.eqb_spec (transaction_id r) t) as [E1|Hne'].
                ** destruct Hl0 as [E|Hl0]; [congruence|now right].
                ** destruct Hl0 as [E|Hl0]; [now left|right; now apply IHm].
          -- left.
             assert (Hk : In (transaction_id r) (map fst m1)).
             { unfold m1. rewrite push_items_key_In. now right. }
             apply in_map_iff in Hk as [[t l1] [Et Hk]].
             simpl in Et. subst t. rewrite <- E. exists l1.
             split; [exact Hk|].
             apply (push_items_In _ _ _ _ _ Hnd) in Hk
               as [[Hne _]|[_ (l2 & -> & _)]]; [congruence|].
             apply in_or_app. right. apply repeat_In. split; [reflexivity|lia].
          -- right. exists r'. tauto. }
  destruct (G rows [] (NoDup_nil _)) as (N & K & M).
  cbv zeta in N, K, M.
  split; [exact N|]. split.
  - intro tid. rewrite K. simpl. split; [intros [[]|H]; exact H|auto].
  - intros tid items x Hin. rewrite (M tid items x Hin). split.
    + intros [[l0 [[] _]]|H]. exact H.
    + auto.
Qed.

Lemma dedupe_In seen items x :
  In x (dedupe seen items) <-> In x items /\ ~ In x seen.
Proof.
  split; [apply dedupe_spec|].
  revert seen. induction items as [|y rest IH]; intros seen [Hx Hn].
  - contradiction.
  - cbn [dedupe]. destruct (includes seen y) eqn:E.
    + apply IH. split; [|exact Hn].
      destruct Hx as [->|Hx]; [|exact Hx].
      apply includes_In in E. contradiction.
    + destruct (string_dec y x) as [->|Hne]; [now left|].
      right. apply IH. split.
      * destruct Hx as [E'|Hx]; [contradiction|exact Hx].
      * intros [E'|H]; [contradiction|exact (Hn H)].
Qed.

(** X11: what [getTransactionData] builds.  When the store is down it
    throws.  Otherwise it returns, leaving the store as it was, one basket
    for every transaction that has a joined row, each transaction once; a
    basket has no identifier twice, and it holds exactly the item names of
    its transaction's rows whose quantity is positive (a transaction whose
    rows all have quantity 0 or less gets an empty basket). *)
Theorem getTransactionData_spec (w : World) :
  (db_up w = false -> getTransactionData w = Threw w)
  /\ (db_up w = true ->
      exists data,
        getTransactionData w = Returned data w
        /\ map snd data = mined_baskets w
        /\ NoDup (map fst data)
        /\ (forall tid,
              In tid (map fst data)
              <-> exists r, In r (joined_rows w) /\ transaction_id r = tid)
        /\ (forall tid items,
              In (tid, items) data ->
              NoDup items
              /\ forall x,
                   In x items
                   <-> exists r, In r (joined_rows w)
                                 /\ transaction_id r = tid
                                 /\ item_name r = x /\ (0 < quantity r)%Z)).
Proof.
  unfold getTransactionData, bind, select_joined, ret. split; intro Hup;
    rewrite Hup; [reflexivity|].
  destruct (group_rows_spec (joined_rows w)) as (N & K & M).
  cbv zeta in N, K, M.
  eexists. split; [reflexivity|].
  assert (Ekeys : map fst (map (fun '(tid, items) => (tid, dedupe [] items))
                             (group_rows (joined_rows w)))
                  = map fst (group_rows (joined_rows w))).
  { rewrite map_map. apply map_ext. now intros [tid items]. }
  split; [|split; [|split]].
  - unfold mined_baskets. rewrite map_map. apply map_ext. now intros [tid items].
  - now rewrite Ekeys.
  - intro tid. rewrite Ekeys. apply K.
  - intros tid items Hin.
    apply in_map_iff in Hin as [[tid' l] [E Hin]]. injection E as <- <-.
    split; [apply dedupe_spec|].
    intro x. rewrite dedupe_In, <- (M tid' l x Hin). simpl. tauto.
Qed.

(** ** What a timed run leaves in the store *)

Lemma run_mining_down alg miner p uid w :
  db_up w = false ->
  run_mining alg miner p uid w = Threw (after_reading w).
Proof.
  intro Hup. now rewrite run_mining_cases, Hup.
Qed.

Lemma mined_baskets_comma_free w :
  (forall r, In r (joined_rows w) -> (0 < quantity r)%Z ->
             no_comma (item_name r) = true) ->
  comma_free (mined_baskets w).
Proof.
  intros H t x Ht Hx.
  apply in_map_iff in Ht as [[tid l] [<- Hin]]. cbn [snd] in Hx.
  apply dedupe_In in Hx as [Hx _].
  destruct (group_rows_spec (joined_rows w)) as (_ & _ & M).
  apply (M tid l x Hin) in Hx as (r & Hr & _ & <- & Hq).
  now apply H.
Qed.

(** X12: what the two timed runs leave behind.  Let the store answer and
    the run be short enough for the real column of its time.  When the
    caller's identifier and the next serial number fit their integer
    columns, [runFPGrowthMining] returns, with the itemsets of its miner on
    the baskets of [getTransactionData], the rules generated from them,
    the identifier the store gave, the caller's user and parameters, and
    the difference of the two clock readings as execution time; the row it
    stores is the result it returns, appended to the rows that were there,
    and the transactions are untouched.  When one of the two numbers does
    not fit, it throws after the mining and stores nothing.
    [runAprioriMining] does the same with its own miner when no item name
    holds a comma: its itemsets then have at most three members (with
    commas one of them can have 54 members or more, for which the loop of
    the rule generator does not end).  When the store is down both throw
    after the first clock reading and store nothing. *)
Theorem mining_run_stores_its_result
    (p : MiningParameters) (uid : Z) (w : World) :
  (db_up w = true ->
   fits_integer uid = true -> fits_integer (next_id w) = true ->
   short_run w ->
   runFPGrowthMining p uid w
   = (let fis' := fpGrowthAlgorithm (mined_baskets w) (min_support p) in
      Returned (result_of_run fp_growth p uid w fis')
               (after_run w (result_of_run fp_growth p uid w fis')))
   /\ (comma_free (mined_baskets w) ->
       exists fis,
         aprioriAlgorithm (mined_baskets w) (min_support p) = Some fis
         /\ runAprioriMining p uid w
            = Returned (result_of_run apriori p uid w fis)
                       (after_run w (result_of_run apriori p uid w fis))))
  /\ (db_up w = true ->
      fits_integer uid && fits_integer (next_id w) = false ->
      runFPGrowthMining p uid w = Threw (after_reading (after_reading w))
      /\ (comma_free (mined_baskets w) ->
          runAprioriMining p uid w = Threw (after_reading (after_reading w))))
  /\ (db_up w = false ->
      runAprioriMining p uid w = Threw (after_reading w)
      /\ runFPGrowthMining p uid w = Threw (after_reading w)).
Proof.
  split; [|split].
  - intros Hup Fu Fn _. split.
    + cbv zeta. apply run_mining_returns; try assumption; [reflexivity|].
      apply fpGrowth_rules_end.
    + intro Hcf.
      destruct (aprioriAlgorithm (mined_baskets w) (min_support p))
        as [fis|] eqn:Ha.
      2:{ rewrite aprioriAlgorithm_levels in Ha. discriminate. }
      exists fis. split; [reflexivity|].
      apply run_mining_returns; try assumption.
      exact (apriori_rules_end _ _ _ Hcf Ha).
  - intros Hup Hno. split.
    + unfold runFPGrowthMining.
      now rewrite run_mining_cases, Hup, fpGrowth_rules_end, Hno.
    + intro Hcf. unfold runAprioriMining. rewrite run_mining_cases, Hup.
      destruct (aprioriAlgorithm (mined_baskets w) (min_support p))
        as [fis|] eqn:Ha.
      2:{ rewrite aprioriAlgorithm_levels in Ha. discriminate. }
      now rewrite (apriori_rules_end _ _ _ Hcf Ha), Hno.
  - intro Hup. split; now apply run_mining_down.
Qed.

Lemma mining_run_stores_its_result_witness :
  exists fis,
    aprioriAlgorithm (mined_baskets sample_world) one_half = Some fis
    /\ runAprioriMining sample_parameters 7 sample_world
       = Returned (result_of_run apriori sample_parameters 7 sample_world fis)
                  (after_run sample_world
                     (result_of_run apriori sample_parameters 7 sample_world
                                    fis)).
Proof.
  refine (proj2 (proj1 (mining_run_stores_its_result sample_parameters 7
                          sample_world)
                       eq_refl eq_refl eq_refl _) _).
  - vm_compute. reflexivity.
  - apply mined_baskets_comma_free.
    intros r [<-|[<-|[<-|[]]]] _; reflexivity.
Defined.

Lemma mined_baskets_after_run w r :
  mined_baskets (after_run w r) = mined_baskets w.
Proof. reflexivity. Qed.

(** What a comparison that returned has done. *)
Lemma compareMiningResults_inv p uid w cmp w' :
  compareMiningResults p uid w = Returned cmp w' ->
  exists fis,
    aprioriAlgorithm (mined_baskets w) (min_support p) = Some fis
    /\ let ra := result_of_run apriori p uid w fis in
       let rf := result_of_run fp_growth p uid (after_run w ra)
                   (fpGrowthAlgorithm (mined_baskets w) (min_support p)) in
       cmp = mkMiningComparison (Some ra) (Some rf)
               (Some (mkComparisonMetrics
                        (execution_time_ms rf - execution_time_ms ra)
                        (Z.of_nat (List.length (frequent_itemsets rf))
                         - Z.of_nat (List.length (frequent_itemsets ra)))
                        (Z.of_nat (List.length (association_rules rf))
                         - Z.of_nat (List.length (association_rules ra)))
                        (if (execution_time_ms ra <? execution_time_ms rf)%Z
                         then apriori else fp_growth)))
       /\ w' = after_run (after_run w ra) rf.
Proof.
  unfold compareMiningResults, bind, ret.
  destruct (runAprioriMining p uid w) as [ra w1| |] eqn:Ra; try discriminate.
  destruct (runFPGrowthMining p uid w1) as [rf w2| |] eqn:Rf;
    try discriminate.
  intro H. injection H as <- <-.
  apply run_mining_inv in Ra as (_ & _ & _ & fis & Ha & _ & -> & ->).
  apply run_mining_inv in Rf as (_ & _ & _ & fis' & Hf & _ & -> & ->).
  rewrite mined_baskets_after_run in Hf. injection Hf as <-.
  exists fis. split; [exact Ha|]. cbv zeta. split; reflexivity.
Qed.

(** The comparison, while the store answers. *)
Lemma compareMiningResults_up p uid w :
  db_up w = true ->
  comma_free (mined_baskets w) ->
  fits_integer uid = true ->
  fits_integer (next_id w) = true -> fits_integer (next_id w + 1) = true ->
  exists fis,
    aprioriAlgorithm (mined_baskets w) (min_support p) = Some fis
    /\ let ra := result_of_run apriori p uid w fis in
       let rf := result_of_run fp_growth p uid (after_run w ra)
                   (fpGrowthAlgorithm (mined_baskets w) (min_support p)) in
       compareMiningResults p uid w
       = Returned
           (mkMiningComparison (Some ra) (Some rf)
              (Some (mkComparisonMetrics
                       (execution_time_ms rf - execution_time_ms ra)
                       (Z.of_nat (List.length (frequent_itemsets rf))
                        - Z.of_nat (List.length (frequent_itemsets ra)))
                       (Z.of_nat (List.length (association_rules rf))
                        - Z.of_nat (List.length (association_rules ra)))
                       (if (execution_time_ms ra <? execution_time_ms rf)%Z
                        then apriori else fp_growth))))
           (after_run (after_run w ra) rf).
Proof.
  intros Hup Hcf Fu Fn Fn'.
  destruct (compareMiningResults_returns p uid w Hup Hcf Fu Fn Fn')
    as (cmp & w' & R).
  destruct (compareMiningResults_inv _ _ _ _ _ R) as (fis & Ha & E).
  cbv zeta in E. destruct E as [-> ->].
  exists fis. split; [exact Ha|]. exact R.
Qed.

(** X13: the comparison stores both results.  Let the store answer, no
    item name hold a comma (so that the Apriori run ends), the caller's
    identifier and the next two serial numbers fit their integer columns
    and both runs be short enough for the real column of their time.  Then
    [compareMiningResults] returns; the Apriori run comes first and the
    FP-Growth run second, on the same baskets; the rows of the two results
    are appended to the store in that order, with consecutive identifiers.
    When the store is down it throws and stores nothing. *)
Theorem comparison_stores_both_results
    (p : MiningParameters) (uid : Z) (w : World) :
  (db_up w = true ->
   comma_free (mined_baskets w) ->
   fits_integer uid = true ->
   fits_integer (next_id w) = true -> fits_integer (next_id w + 1) = true ->
   short_run w -> short_run (after_reading (after_reading w)) ->
   exists fis cmp ra rf,
     aprioriAlgorithm (mined_baskets w) (min_support p) = Some fis
     /\ ra = result_of_run apriori p uid w fis
     /\ rf = result_of_run fp_growth p uid (after_run w ra)
               (fpGrowthAlgorithm (mined_baskets w) (min_support p))
     /\ compareMiningResults p uid w
        = Returned cmp (after_run (after_run w ra) rf)
     /\ apriori_result cmp = Some ra
     /\ fp_growth_result cmp = Some rf
     /\ mining_results (after_run (after_run w ra) rf)
        = mining_results w ++ [ra; rf]
     /\ id ra = next_id w /\ id rf = (next_id w + 1)%Z)
  /\ (db_up w = false ->
      compareMiningResults p uid w = Threw (after_reading w)).
Proof.
  split.
  - intros Hup Hcf Fu Fn Fn' _ _.
    destruct (compareMiningResults_up p uid w Hup Hcf Fu Fn Fn')
      as (fis & Ha & R).
    cbv zeta in R.
    exists fis. eexists. eexists. eexists.
    split; [exact Ha|]. split; [reflexivity|]. split; [reflexivity|].
    split; [exact R|].
    split; [reflexivity|]. split; [reflexivity|].
    split; [|split; reflexivity].
    cbn [after_run mining_results]. now rewrite <- app_assoc.
  - intro Hup. unfold compareMiningResults, bind.
    unfold runAprioriMining. now rewrite run_mining_down.
Qed.

Lemma comparison_stores_both_results_witness :
  exists cmp w',
    compareMiningResults sample_parameters 7 sample_world = Returned cmp w'
    /\ List.length (mining_results w') = 2.
Proof.
  destruct (proj1 (comparison_stores_both_results sample_parameters 7
                     sample_world) eq_refl)
    as (fis & cmp & ra & rf & _ & _ & _ & R & _ & _ & M & _).
  - apply mined_baskets_comma_free.
    intros r [<-|[<-|[<-|[]]]] _; reflexivity.
  - reflexivity.
  - reflexivity.
  - reflexivity.
  - vm_compute. reflexivity.
  - vm_compute. reflexivity.
  - exists cmp. eexists. split; [exact R|]. rewrite M. reflexivity.
Defined.

(** ** FP-Growth never finds more than Apriori *)

Lemma mined_baskets_sets w : baskets (mined_baskets w).
Proof.
  intros t Ht. apply in_map_iff in Ht as [e [<- _]]. apply dedupe_spec.
Qed.

Lemma generateAssociationRules_app l l' mc t :
  generateAssociationRules (l ++ l') mc t
  = generateAssociationRules l mc t ++ generateAssociationRules l' mc t.
Proof.
  unfold generateAssociationRules. now rewrite filter_app, flat_map_app.
Qed.

Lemma generateAssociationRules_perm l l' mc t :
  Permutation l l' ->
  Permutation (generateAssociationRules l mc t)
              (generateAssociationRules l' mc t).
Proof.
  intro H. unfold generateAssociationRules.
  apply Permutation_flat_map, Permutation_filter, H.
Qed.

(** With min_support in (0,1] and no comma in an identifier, the itemsets
    of [fpGrowthAlgorithm] are the first two levels of [aprioriAlgorithm]
    in another order. *)
Lemma fpGrowth_two_levels transactions minSupport :
  comma_free transactions -> in_unit minSupport ->
  let total := Z.of_nat (List.length transactions) in
  let msc := minSupportCount minSupport total in
  Permutation
    (fpGrowthAlgorithm transactions minSupport)
    (frequent_entries (fun item => [item]) msc total (count_items transactions)
     ++ fst (level transactions msc total 2
               (all_pairs (frequent_items transactions minSupport)))).
Proof.
  intros Hcf Hunit total msc. unfold fpGrowthAlgorithm. cbv zeta.
  apply Permutation_app.
  - apply singles_permutation.
  - now apply pairs_permutation.
Qed.

(** X14: in a comparison on identifiers without commas and with min_support
    in (0,1], FP-Growth never has more itemsets or more rules than Apriori:
    [itemsets_count_difference] and [rules_count_difference] are 0 or
    negative. *)
Theorem comparison_differences_not_positive
    (p : MiningParameters) (uid : Z) (w w' : World)
    (cmp : MiningComparison) (m : ComparisonMetrics) :
  (forall r, In r (joined_rows w) -> (0 < quantity r)%Z ->
             no_comma (item_name r) = true) ->
  in_unit (min_support p) ->
  compareMiningResults p uid w = Returned cmp w' ->
  comparison_metrics cmp = Some m ->
  (itemsets_count_difference m <= 0)%Z /\ (rules_count_difference m <= 0)%Z.
Proof.
  intros Hnames Hunit H Hm.
  destruct (compareMiningResults_inv _ _ _ _ _ H) as (fis & Ha & R).
  cbv zeta in R. destruct R as [-> _].
  cbn [comparison_metrics] in Hm. injection Hm as <-.
  cbn [itemsets_count_difference rules_count_difference result_of_run
       frequent_itemsets association_rules].
  rewrite mined_baskets_after_run.
  pose proof (mined_baskets_comma_free w Hnames) as Hcf.
  set (t := mined_baskets w) in *.
  pose proof (aprioriAlgorithm_three_levels t (min_support p)) as E.
  cbv zeta in E. rewrite E in Ha.
  assert (Hfis : Some fis = Some fis) by reflexivity.
  rewrite <- Ha in Hfis at 1.
  apply (f_equal (fun o => match o with Some l => l | None => fis end))
    in Hfis.
  cbv beta iota in Hfis. rewrite <- Hfis. clear Hfis Ha E.
  pose proof (fpGrowth_two_levels t (min_support p) Hcf Hunit) as P.
  cbv zeta in P.
  rewrite app_assoc, generateAssociationRules_app, !length_app.
  rewrite (Permutation_length P).
  rewrite (Permutation_length
             (generateAssociationRules_perm _ _ (min_confidence p) t P)).
  rewrite length_app. lia.
Qed.

Lemma comparison_differences_not_positive_witness :
  match sample_outcome with
  | Returned cmp _ =>
      match comparison_metrics cmp with
      | Some m =>
          (itemsets_count_difference m <= 0)%Z
          /\ (rules_count_difference m <= 0)%Z
      | None => False
      end
  | _ => False
  end.
Proof.
  assert (E : compareMiningResults sample_parameters 7 sample_world
              = sample_outcome) by (vm_compute; reflexivity).
  unfold sample_outcome in *.
  refine (comparison_differences_not_positive _ _ _ _ _ _ _ _ E eq_refl).
  - intros r [<-|[<-|[<-|[]]]] _; reflexivity.
  - exact one_half_in_unit.
Defined.

(** ** The algorithm field of the parameters *)

(** X15: the [algorithm] field of the parameters selects nothing.  Each of
    the three mining procedures of the router validates the field and then
    runs its own miner: two requests that differ in that field alone, both
    valid, get the same response, and the result of
    [appRouter.runAprioriMining] says apriori also when the field says
    fp_growth. *)
Theorem algorithm_field_is_ignored
    (raw raw' : RawParameters) (ctx : Context) (w : World) :
  raw_min_support raw = raw_min_support raw' ->
  raw_min_confidence raw = raw_min_confidence raw' ->
  miningAlgorithmSchema (raw_algorithm raw) <> None ->
  miningAlgorithmSchema (raw_algorithm raw') <> None ->
  appRouter.runAprioriMining raw ctx w = appRouter.runAprioriMining raw' ctx w
  /\ appRouter.runFPGrowthMining raw ctx w
     = appRouter.runFPGrowthMining raw' ctx w
  /\ appRouter.compareMiningResults raw ctx w
     = appRouter.compareMiningResults raw' ctx w
  /\ (forall r w',
        appRouter.runAprioriMining raw ctx w = Handled (Returned r w') ->
        result_algorithm r = apriori)
  /\ (forall r w',
        appRouter.runFPGrowthMining raw ctx w = Handled (Returned r w') ->
        result_algorithm r = fp_growth).
Proof.
  intros Hs Hc Ha Ha'.
  unfold appRouter.runAprioriMining, appRouter.runFPGrowthMining,
    appRouter.compareMiningResults, procedure, miningParametersSchema.
  rewrite <- Hs, <- Hc.
  destruct (z_number_min_max 0 1 (raw_min_support raw)
            && z_number_min_max 0 1 (raw_min_confidence raw)).
  2:{ repeat split; try reflexivity; intros; discriminate. }
  destruct (miningAlgorithmSchema (raw_algorithm raw)) as [a|];
    [|contradiction].
  destruct (miningAlgorithmSchema (raw_algorithm raw')) as [a'|];
    [|contradiction].
  split; [reflexivity|]. split; [reflexivity|]. split; [reflexivity|].
  split; intros r w' H; injection H as H.
  - unfold runAprioriMining in H.
    apply run_mining_inv in H as (_ & _ & _ & fis & _ & _ & -> & _).
    reflexivity.
  - unfold runFPGrowthMining in H.
    apply run_mining_inv in H as (_ & _ & _ & fis & _ & _ & -> & _).
    reflexivity.
Qed.

Lemma algorithm_field_is_ignored_witness :
  appRouter.runAprioriMining (mkRawParameters one_half one_half "apriori")
                             sample_context sample_world
  = appRouter.runAprioriMining (mkRawParameters one_half one_half "fp_growth")
                               sample_context sample_world.
Proof.
  apply (algorithm_field_is_ignored
           (mkRawParameters one_half one_half "apriori")
           (mkRawParameters one_half one_half "fp_growth")
           sample_context sample_world);
    try reflexivity; discriminate.
Defined.

(** ** Reading back what a run has stored *)






(** ** No number is lost in the store *)

Lemma is_finite_jsonb x : is_finite x = true -> exists q, x = Fin q /\ jsonb_number x = Some q.
Proof. destruct x; try discriminate. intros _. now exists q. Qed.

(** The itemsets of both miners, on identifiers without commas and with
    min_support in (0,1]: counted by their baskets, found in one at least. *)
Lemma mined_itemsets_accurate alg transactions minSupport fis f :
  comma_free transactions -> baskets transactions -> in_unit minSupport ->
  match alg with
  | apriori => aprioriAlgorithm transactions minSupport = Some fis
  | fp_growth => fpGrowthAlgorithm transactions minSupport = fis
  end ->
  In f fis ->
  count f = basket_count transactions (itemset f)
  /\ support f
     = div (of_Z (count f)) (of_Z (Z.of_nat (List.length transactions)))
  /\ (0 < count f)%Z.
Proof.
  intros Hcf Hb Hunit H Hin. destruct alg.
  - destruct (apriori_itemset_occurs _ _ _ _ Hcf H Hin) as [_ Hs].
    pose proof (aprioriAlgorithm_three_levels transactions minSupport) as E.
    cbv zeta in E. rewrite E in H.
    assert (Hfis : Some fis = Some fis) by reflexivity.
    rewrite <- H in Hfis at 1.
    apply (f_equal (fun o => match o with Some l => l | None => fis end))
      in Hfis.
    cbv beta iota in Hfis. rewrite <- Hfis in Hin.
    apply apriori_levels_sound in Hin as (_ & _ & Hc & Hpos & _);
      try assumption.
    auto.
  - subst fis.
    destruct (fpGrowth_splits_occur _ _ _ Hin) as [_ Hs].
    pose proof Hin as Hin'.
    apply fpGrowthAlgorithm_In in Hin'. cbv zeta in Hin'.
    assert (Hn : forall x, In x (List.concat transactions) ->
                   (0 < Z.of_nat (List.length transactions))%Z).
    { intros x Hx. destruct transactions; [contradiction|simpl; lia]. }
    destruct Hin' as [(x & Hx & -> & G)|(a & b & Ha & _ & -> & G)];
      cbn [itemset support count] in *.
    + split; [now apply bumps_concat|]. split; [reflexivity|].
      now apply count_occ_pos_In.
    + split; [now rewrite basket_count_sort|]. split; [reflexivity|].
      exact (minSupportCount_pos _ _ _ Hunit (Hn a Ha) G).
Qed.

(** X18: no number is lost in the store.  In a timed run over identifiers
    without commas, with min_support in (0,1], every support of an itemset
    and every support, confidence and lift of a rule of the result is a
    finite number, so the jsonb columns hold each of them as a number and
    none as null. *)
Theorem stored_numbers_are_numbers
    (p : MiningParameters) (uid : Z) (w w' : World) (r : MiningResult) :
  (forall row, In row (joined_rows w) -> (0 < quantity row)%Z ->
               no_comma (item_name row) = true) ->
  in_unit (min_support p) ->
  ran p uid w r w' ->
  (forall s, In s (stored_frequent_itemsets (stored_row r)) ->
             stored_support s <> None)
  /\ (forall s, In s (stored_association_rules (stored_row r)) ->
                stored_rule_support s <> None
                /\ stored_confidence s <> None
                /\ stored_lift s <> None).
Proof.
  intros Hnames Hunit H.
  pose proof (mined_baskets_comma_free w Hnames) as Hcf.
  pose proof (mined_baskets_sets w) as Hb.
  assert (Hacc : exists alg fis,
            r = result_of_run alg p uid w fis
            /\ match alg with
               | apriori =>
                   aprioriAlgorithm (mined_baskets w) (min_support p) = Some fis
               | fp_growth =>
                   fpGrowthAlgorithm (mined_baskets w) (min_support p) = fis
               end).
  { destruct H as [H|H];
      [unfold runAprioriMining in H|unfold runFPGrowthMining in H];
      apply run_mining_inv in H as (_ & _ & _ & fis & Ha & _ & -> & _).
    - now exists apriori, fis.
    - injection Ha as <-.
      now exists fp_growth,
                 (fpGrowthAlgorithm (mined_baskets w) (min_support p)). }
  destruct Hacc as (alg & fis & -> & Hm).
  set (t := mined_baskets w) in *.
  assert (Hall : forall f, In f fis ->
            count f = basket_count t (itemset f)
            /\ support f = div (of_Z (count f)) (of_Z (Z.of_nat (List.length t)))
            /\ (0 < count f)%Z).
  { intros f Hf.
    exact (mined_itemsets_accurate alg t _ fis f Hcf Hb Hunit Hm Hf). }
  assert (Hsup : forall f, In f fis -> exists q, support f = Fin q).
  { intros f Hf. destruct (Hall f Hf) as (Hc & Hs & Hpos).
    pose proof (basket_count_bounds t (itemset f)) as Hbd.
    rewrite Hs. unfold of_Z. rewrite div_fin; [eauto|].
    rewrite inject_Z_eq0. lia. }
  cbn [stored_row stored_frequent_itemsets stored_association_rules
       result_of_run frequent_itemsets association_rules].
  fold t. split.
  - intros s Hs. apply in_map_iff in Hs as [f [<- Hf]].
    destruct (Hsup f Hf) as [q E]. cbn [jsonb_itemset stored_support].
    rewrite E. discriminate.
  - intros s Hs. apply in_map_iff in Hs as [r0 [<- Hr0]].
    cbn [jsonb_rule stored_rule_support stored_confidence stored_lift].
    unfold generateAssociationRules in Hr0.
    apply in_flat_map in Hr0 as [f [Hf Hr0]].
    apply filter_In in Hf as [Hf _].
    apply in_flat_map in Hr0 as [i [_ Hr0]].
    apply rule_of_mask_spec in Hr0
      as (_ & _ & _ & _ & Hp & Hrs & Hconf & Hge & Hl).
    destruct (Hall f Hf) as (Hc & Hs & Hpos).
    destruct (Hsup f Hf) as [q Eq].
    pose proof (basket_count_bounds t (itemset f)) as Hbd.
    set (n := Z.of_nat (List.length t)) in *.
    assert (Hn : (0 < n)%Z) by lia.
    assert (Hle : (0 <= count f <= basket_count t (Rule.antecedent r0))%Z).
    { rewrite Hc. split; [apply basket_count_bounds|].
      apply basket_count_anti. intros x Hx.
      eapply Permutation_in; [exact Hp|]. apply in_or_app. now left. }
    rewrite Hconf, Hs in Hge.
    destruct (confidence_ratio _ _ n _ Hn Hle Hge) as (Hpa & E & _).
    assert (Ec : Rule.confidence r0
                 = Fin (Qred (inject_Z (count f)
                              / inject_Z (basket_count t (Rule.antecedent r0))))).
    { rewrite Hconf, Hs, E. unfold of_Z. apply div_fin.
      rewrite inject_Z_eq0. lia. }
    split; [rewrite Hrs, Eq; discriminate|].
    split; [rewrite Ec; discriminate|].
    rewrite Hl, Ec. unfold of_Z.
    rewrite (div_fin (inject_Z (count f)) (inject_Z n))
      by (rewrite inject_Z_eq0; lia).
    rewrite div_fin; [discriminate|].
    rewrite Qred_correct. intro Ez. apply Qdiv_eq0 in Ez.
    + apply (proj1 (inject_Z_eq0 _)) in Ez. lia.
    + rewrite inject_Z_eq0. lia.
Qed.

Lemma stored_numbers_are_numbers_witness :
  match runAprioriMining sample_parameters 7 sample_world with
  | Returned r _ =>
      forall s, In s (stored_frequent_itemsets (stored_row r)) ->
                stored_support s <> None
  | _ => False
  end.
Proof.
  destruct (runAprioriMining sample_parameters 7 sample_world)
    as [r w'| |] eqn:E; [|vm_compute in E; discriminate..].
  apply (stored_numbers_are_numbers sample_parameters 7 sample_world w' r).
  - intros row [<-|[<-|[<-|[]]]] _; reflexivity.
  - exact one_half_in_unit.
  - left. exact E.
Defined.

(** ** [parseCSVData] *)

Lemma trim_end_not_white c s :
  is_white_space c = false -> trim_end (String c s) = String c (trim_end s).
Proof.
  intro H. cbn [trim_end]. destruct (trim_end s); [now rewrite H|reflexivity].
Qed.

Lemma trim_start_idem s : trim_start (trim_start s) = trim_start s.
Proof.
  induction s as [|c s IH]; [reflexivity|].
  cbn [trim_start]. destruct (is_white_space c) eqn:E; [exact IH|].
  cbn [trim_start]. now rewrite E.
Qed.

Lemma trim_end_cons c s :
  trim_end (String c s)
  = match trim_end s with
    | EmptyString => if is_white_space c then EmptyString
                     else String c EmptyString
    | t => String c t
    end.
Proof. reflexivity. Qed.

Lemma trim_end_idem s : trim_end (trim_end s) = trim_end s.
Proof.
  induction s as [|c s IH]; [reflexivity|].
  rewrite trim_end_cons. destruct (trim_end s) as [|c' t] eqn:E.
  - destruct (is_white_space c) eqn:W; [reflexivity|].
    rewrite trim_end_cons. cbn [trim_end]. now rewrite W.
  - rewrite trim_end_cons, IH. reflexivity.
Qed.

(** What [trim_end] leaves starts as its argument does. *)
Lemma trim_end_head c s :
  is_white_space c = false ->
  exists t, trim_end (String c s) = String c t.
Proof. intro H. rewrite trim_end_not_white by exact H. eauto. Qed.

Lemma trim_start_fixed s :
  match s with
  | EmptyString => True
  | String c _ => is_white_space c = false
  end -> trim_start s = s.
Proof. destruct s as [|c s]; [reflexivity|]. cbn [trim_start]. now intros ->. Qed.

Lemma trim_start_head s :
  match trim_start s with
  | EmptyString => True
  | String c _ => is_white_space c = false
  end.
Proof.
  induction s as [|c s IH]; [exact I|].
  cbn [trim_start]. destruct (is_white_space c) eqn:E; [exact IH|exact E].
Qed.

(** [trim] strips all there is to strip. *)
Lemma trim_idem s : trim (trim s) = trim s.
Proof.
  unfold trim.
  assert (H : trim_start (trim_end (trim_start s)) = trim_end (trim_start s)).
  { apply trim_start_fixed.
    pose proof (trim_start_head s) as Hh.
    destruct (trim_start s) as [|c t]; [exact I|].
    destruct (trim_end_head c t Hh) as [t' ->]. exact Hh. }
  rewrite H. apply trim_end_idem.
Qed.

Lemma has_char_app c s t :
  has_char c (s ++ t) = has_char c s || has_char c t.
Proof.
  induction s as [|c' s IH]; [reflexivity|].
  cbn [append has_char]. now rewrite IH, orb_assoc.
Qed.

Lemma trim_start_has_char c s :
  has_char c s = false -> has_char c (trim_start s) = false.
Proof.
  induction s as [|c' s IH]; [reflexivity|].
  cbn [trim_start has_char]. intro H. apply orb_false_iff in H as [H1 H2].
  destruct (is_white_space c'); [now apply IH|].
  cbn [has_char]. now rewrite H1, H2.
Qed.

Lemma trim_end_has_char c s :
  has_char c s = false -> has_char c (trim_end s) = false.
Proof.
  induction s as [|c' s IH]; [reflexivity|].
  cbn [trim_end has_char]. intro H. apply orb_false_iff in H as [H1 H2].
  specialize (IH H2).
  destruct (trim_end s) as [|c'' t].
  - destruct (is_white_space c'); [reflexivity|].
    cbn [has_char]. now rewrite H1.
  - cbn [has_char] in *. now rewrite H1, IH.
Qed.

Lemma trim_has_char c s : has_char c s = false -> has_char c (trim s) = false.
Proof. intro H. now apply trim_end_has_char, trim_start_has_char. Qed.

(** The pieces of [split_lines] hold no line feed. *)
Lemma split_lines_no_feed s l :
  In l (split_lines s) -> has_char line_feed l = false.
Proof.
  revert l. induction s as [|c s IH]; intros l.
  - intros [<-|[]]. reflexivity.
  - cbn [split_lines]. destruct (Ascii.eqb c line_feed) eqn:E.
    + intros [<-|H]; [reflexivity|now apply IH].
    + destruct (split_lines s) as [|p ps].
      * intros [<-|[]]. cbn [has_char]. now rewrite E.
      * intros [<-|H].
        -- cbn [has_char]. rewrite E. apply IH. now left.
        -- apply IH. now right.
Qed.

(** What [scan_line] pushes: trimmed, without quotes, and without what
    the line and the field in progress do not have. *)
Lemma scan_line_values line : forall current inQuotes v,
  In v (scan_line line current inQuotes) ->
  trim v = v
  /\ (has_char double_quote current = false ->
      has_char double_quote v = false)
  /\ (forall c, has_char c line = false -> has_char c current = false ->
                has_char c v = false).
Proof.
  induction line as [|char rest IH]; intros current inQuotes v.
  - intros [<-|[]]. split; [apply trim_idem|].
    split; [apply trim_has_char|]. intros c _. apply trim_has_char.
  - cbn [scan_line]. destruct (Ascii.eqb char double_quote) eqn:Q.
    + intro H. destruct (IH _ _ _ H) as (T & D & C).
      split; [exact T|]. split; [exact D|].
      intros c Hc. cbn [has_char] in Hc.
      apply orb_false_iff in Hc as [_ Hc]. now apply C.
    + destruct (Ascii.eqb char ","%char && negb inQuotes).
      * intros [<-|H].
        -- split; [apply trim_idem|].
           split; [apply trim_has_char|]. intros c _. apply trim_has_char.
        -- destruct (IH _ _ _ H) as (T & D & C).
           split; [exact T|]. split; [intros _; now apply D|].
           intros c Hc _. cbn [has_char] in Hc.
           apply orb_false_iff in Hc as [_ Hc]. now apply C.
      * intro H. destruct (IH _ _ _ H) as (T & D & C).
        split; [exact T|]. split.
        -- intro Hd. apply D. rewrite has_char_app, Hd. cbn [has_char].
           now rewrite Q.
        -- intros c Hc Hcur. cbn [has_char] in Hc.
           apply orb_false_iff in Hc as [Hc1 Hc2].
           apply C; [exact Hc2|].
           rewrite has_char_app, Hcur. cbn [has_char]. now rewrite Hc1.
Qed.

Lemma scan_line_not_nil line current inQuotes :
  scan_line line current inQuotes <> [].
Proof.
  revert current inQuotes. induction line as [|char rest IH];
    intros current inQuotes; cbn [scan_line]; [discriminate|].
  destruct (Ascii.eqb char double_quote); [apply IH|].
  destruct (Ascii.eqb char ","%char && negb inQuotes); [discriminate|apply IH].
Qed.

(** X19: what [parseCSVData] never returns.  Whatever the text, every row
    has at least one value; every value is trimmed (trimming it again
    changes nothing), holds no double quote and no line feed: quotes only
    switch the reading of commas on and off, and a doubled quote inside a
    quoted field leaves no quote behind.  The flag [hasHeader] changes
    nothing. *)
Theorem parseCSVData_values (csvText : string) (hasHeader : bool) :
  parseCSVData csvText hasHeader = parseCSVData csvText (negb hasHeader)
  /\ forall row, In row (parseCSVData csvText hasHeader) ->
       row <> []
       /\ forall v, In v row ->
            trim v = v
            /\ has_char double_quote v = false
            /\ has_char line_feed v = false.
Proof.
  split; [reflexivity|].
  intros row Hrow. unfold parseCSVData in Hrow. cbv zeta in Hrow.
  apply in_map_iff in Hrow as [line [<- Hline]].
  apply filter_In in Hline as [Hline _].
  apply in_map_iff in Hline as [l [<- Hl]].
  split; [apply scan_line_not_nil|].
  intros v Hv. destruct (scan_line_values _ _ _ _ Hv) as (T & D & C).
  split; [exact T|]. split; [now apply D|].
  apply C; [|reflexivity].
  apply trim_has_char. exact (split_lines_no_feed _ _ Hl).
Qed.

(** Reading back a text that was joined with line feeds. *)
Lemma split_lines_no_feed_id s :
  has_char line_feed s = false -> split_lines s = [s].
Proof.
  induction s as [|c s IH]; [reflexivity|].
  cbn [has_char split_lines]. intro H. apply orb_false_iff in H as [H1 H2].
  rewrite H1, (IH H2). reflexivity.
Qed.

Lemma split_lines_append s t :
  has_char line_feed s = false ->
  split_lines (s ++ String line_feed t) = s :: split_lines t.
Proof.
  induction s as [|c s IH]; intro H.
  - cbn [append split_lines]. now rewrite Ascii.eqb_refl.
  - cbn [has_char] in H. apply orb_false_iff in H as [H1 H2].
    cbn [append split_lines]. rewrite H1, (IH H2). reflexivity.
Qed.

Lemma concat_cons_cons sep x y l :
  String.concat sep (x :: y :: l)
  = (x ++ sep ++ String.concat sep (y :: l))%string.
Proof. reflexivity. Qed.

Lemma split_lines_concat ls :
  ls <> [] -> (forall l, In l ls -> has_char line_feed l = false) ->
  split_lines (String.concat (String line_feed EmptyString) ls) = ls.
Proof.
  induction ls as [|x ls IH]; intros Hne Hall; [contradiction|].
  destruct ls as [|y ls].
  - apply split_lines_no_feed_id, Hall. now left.
  - rewrite concat_cons_cons. cbn [append].
    rewrite split_lines_append by (apply Hall; now left).
    f_equal. apply IH; [discriminate|].
    intros l Hl. apply Hall. now right.
Qed.

Lemma append_assoc (s t u : string) : ((s ++ t) ++ u = s ++ (t ++ u))%string.
Proof. induction s as [|c s IH]; [reflexivity|]. cbn [append]. now rewrite IH. Qed.

Lemma append_nil_r (s : string) : (s ++ "" = s)%string.
Proof. induction s as [|c s IH]; [reflexivity|]. cbn [append]. now rewrite IH. Qed.

(** Between quotes everything but a quote is kept, commas too. *)
Lemma scan_line_in_quotes field : forall current rest,
  has_char double_quote field = false ->
  scan_line (field ++ rest) current true
  = scan_line rest (current ++ field) true.
Proof.
  induction field as [|c field IH]; intros current rest H.
  - now rewrite append_nil_r.
  - cbn [has_char] in H. apply orb_false_iff in H as [H1 H2].
    cbn [append scan_line]. rewrite H1, andb_false_r.
    rewrite (IH _ _ H2), append_assoc. reflexivity.
Qed.

Lemma scan_line_quoted_field field rest :
  has_char double_quote field = false ->
  scan_line (quoted_field field ++ rest) EmptyString false
  = scan_line rest field false.
Proof.
  intro H. unfold quoted_field. cbn [append scan_line].
  rewrite Ascii.eqb_refl. cbn [negb].
  rewrite append_assoc. rewrite (scan_line_in_quotes _ _ _ H).
  cbn [append scan_line]. rewrite Ascii.eqb_refl. reflexivity.
Qed.

Lemma scan_line_quoted_row row :
  row <> [] -> (forall f, In f row -> quotable f) ->
  scan_line (quoted_row row) EmptyString false = row.
Proof.
  unfold quoted_row.
  induction row as [|f row IH]; intros Hne Hall; [contradiction|].
  destruct (Hall f (or_introl eq_refl)) as (Hq & _ & Ht).
  destruct row as [|g row].
  - cbn [map String.concat].
    rewrite <- (append_nil_r (quoted_field f)).
    rewrite (scan_line_quoted_field _ _ Hq). cbn [scan_line]. now rewrite Ht.
  - cbn [map]. rewrite concat_cons_cons.
    rewrite (scan_line_quoted_field _ _ Hq).
    cbn [append scan_line].
    change (Ascii.eqb ","%char double_quote) with false. cbv iota.
    rewrite Ascii.eqb_refl. cbn [andb negb]. rewrite Ht. f_equal.
    apply IH; [discriminate|]. intros h Hh. apply Hall. now right.
Qed.

Lemma has_char_quoted_row c row :
  c <> double_quote -> c <> ","%char ->
  (forall f, In f row -> has_char c f = false) ->
  has_char c (quoted_row row) = false.
Proof.
  intros Hq Hc. unfold quoted_row.
  assert (Eq : Ascii.eqb double_quote c = false)
    by (apply Ascii.eqb_neq; congruence).
  assert (Ec : Ascii.eqb ","%char c = false)
    by (apply Ascii.eqb_neq; congruence).
  assert (Hf : forall f, has_char c f = false ->
                         has_char c (quoted_field f) = false).
  { intros f H. unfold quoted_field. cbn [has_char].
    rewrite has_char_app, H, Eq. cbn [has_char]. now rewrite Eq. }
  induction row as [|f row IH]; intro Hall; [reflexivity|].
  destruct row as [|g row].
  - cbn [map String.concat]. apply Hf, Hall. now left.
  - cbn [map]. rewrite concat_cons_cons, !has_char_app.
    rewrite (Hf f) by (apply Hall; now left).
    cbn [has_char]. rewrite Ec. cbn [orb].
    apply IH. intros h Hh. apply Hall. now right.
Qed.

(** A quoted row is not empty, and [trim] finds nothing to strip. *)
Lemma trim_end_last s c :
  is_white_space c = false ->
  trim_end (s ++ String c EmptyString) = (s ++ String c EmptyString)%string.
Proof.
  intro H. induction s as [|c' s IH].
  - cbn [append trim_end]. now rewrite H.
  - cbn [append]. rewrite trim_end_cons, IH.
    destruct s; reflexivity.
Qed.

Lemma quoted_row_shape row :
  row <> [] ->
  exists s, quoted_row row
            = String double_quote (s ++ String double_quote EmptyString).
Proof.
  unfold quoted_row. induction row as [|f row IH]; intro Hne; [contradiction|].
  destruct row as [|g row].
  - exists f. reflexivity.
  - destruct IH as [s Hs]; [discriminate|].
    cbn [map] in *. rewrite concat_cons_cons, Hs.
    exists (f ++ String double_quote ("," ++ String double_quote s))%string.
    unfold quoted_field. cbn [append]. f_equal.
    rewrite !append_assoc. cbn [append]. reflexivity.
Qed.

Lemma trim_quoted_row row :
  row <> [] ->
  trim (quoted_row row) = quoted_row row
  /\ (0 <? String.length (quoted_row row)) = true.
Proof.
  intro Hne. destruct (quoted_row_shape row Hne) as [s ->].
  split; [|reflexivity].
  unfold trim. cbn [trim_start].
  change (is_white_space double_quote) with false. cbv iota.
  change (String double_quote (s ++ String double_quote ""))
    with ((String double_quote s) ++ String double_quote "")%string.
  now apply trim_end_last.
Qed.

(** X20: [parseCSVData] reads back every table that is written with its
    fields between double quotes.  When every row has a field, and no field
    holds a double quote or a line feed or begins or ends with white space,
    parsing the quoted text gives the rows back, field by field: a comma
    inside a field stays in the field. *)
Theorem parseCSVData_quoted_csv
    (rows : list (list string)) (hasHeader : bool) :
  (forall row, In row rows -> row <> []) ->
  (forall row field, In row rows -> In field row -> quotable field) ->
  parseCSVData (quoted_csv rows) hasHeader = rows.
Proof.
  intros Hne Hq. unfold parseCSVData, quoted_csv. cbv zeta.
  destruct rows as [|r rows]; [reflexivity|].
  rewrite split_lines_concat.
  - rewrite map_map. rewrite filter_all.
    + rewrite map_map. rewrite <- (map_id (r :: rows)) at 2.
      apply map_ext_in. intros row Hrow.
      rewrite (proj1 (trim_quoted_row row (Hne row Hrow))).
      apply scan_line_quoted_row; [now apply Hne|].
      intros f Hf. exact (Hq row f Hrow Hf).
    + intros l Hl. apply in_map_iff in Hl as [row [<- Hrow]].
      now rewrite (proj1 (trim_quoted_row row (Hne row Hrow))),
                  (proj2 (trim_quoted_row row (Hne row Hrow))).
  - discriminate.
  - intros l Hl. apply in_map_iff in Hl as [row [<- Hrow]].
    apply has_char_quoted_row; try discriminate.
    intros f Hf. apply (Hq row f Hrow Hf).
Qed.

Lemma parseCSVData_quoted_csv_witness :
  parseCSVData (quoted_csv [["2024-01-15"; "Milk, whole"; "2"];
                            ["2024-01-16"; "Bread"; "1"]]) true
  = [["2024-01-15"; "Milk, whole"; "2"]; ["2024-01-16"; "Bread"; "1"]].
Proof.
  apply parseCSVData_quoted_csv.
  - intros row [<-|[<-|[]]]; discriminate.
  - intros row field [<-|[<-|[]]] [<-|[<-|[<-|[]]]]; repeat split.
Defined.

(** ** [createTransaction]: checks first, writes after *)

Lemma select_up {R : Type} (table : Store -> list R) cond s :
  answers s = true -> select table cond s = Done (filter cond (table s)) s.
Proof. intro H. unfold select. now rewrite H. Qed.

Lemma select_down {R : Type} (table : Store -> list R) cond s :
  answers s = false -> select table cond s = Failed StoreFailure s.
Proof. intro H. unfold select. now rewrite H. Qed.

Lemma check_items_up itemIds s :
  answers s = true ->
  check_items itemIds s
  = match missing_item s itemIds with
    | Some itemId => Failed (ItemNotFound itemId) s
    | None => Done tt s
    end.
Proof.
  intro Hup. unfold missing_item.
  induction itemIds as [|itemId rest IH]; [reflexivity|].
  cbn [check_items find]. unfold and_then. rewrite (select_up _ _ _ Hup).
  destruct (is_empty _); [reflexivity|exact IH].
Qed.

Lemma missing_item_None s itemIds :
  missing_item s itemIds = None <->
  forall itemId, In itemId itemIds ->
    exists i, In i (itemsTable s) /\ Item.id i = itemId.
Proof.
  unfold missing_item. split.
  - intros H itemId Hin.
    pose proof (find_none _ _ H itemId Hin) as E. cbv beta in E.
    destruct (filter _ (itemsTable s)) as [|i l] eqn:F; [discriminate|].
    assert (Hi : In i (filter (fun i => (Item.id i =? itemId)%Z) (itemsTable s)))
      by (rewrite F; now left).
    apply filter_In in Hi as [Hi E']. exists i. split; [exact Hi|].
    now apply Z.eqb_eq.
  - intro H. destruct (find _ itemIds) as [itemId|] eqn:F; [|reflexivity].
    apply find_some in F as [Hin E].
    destruct (H itemId Hin) as (i & Hi & Ei).
    assert (Hf : In i (filter (fun i => (Item.id i =? itemId)%Z) (itemsTable s))).
    { apply filter_In. split; [exact Hi|]. now apply Z.eqb_eq. }
    destruct (filter _ (itemsTable s)); [contradiction|discriminate].
Qed.


(** [createTransaction] while the store answers, case by case. *)
Lemma createTransaction_up input userId s :
  answers s = true ->
  createTransaction input userId s
  = if is_empty (filter (fun u => (User.id u =? userId)%Z) (usersTable s))
    then Failed UserNotFound s
    else match missing_item s (map fst (CreateTransactionInput.items input)) with
         | Some itemId => Failed (ItemNotFound itemId) s
         | None =>
             if is_empty (CreateTransactionInput.items input)
             then Failed NoValues (with_new_transaction input userId s)
             else if lines_fit input s
             then Done (new_transaction input userId s)
                       (with_transaction_items
                          (with_new_transaction input userId s)
                          (transactionItemsTable s ++ new_lines input s)
                          (transaction_items_id_seq s
                           + Z.of_nat (List.length
                                         (CreateTransactionInput.items input)))%Z)
             else Failed StoreFailure (with_new_transaction input userId s)
         end.
Proof.
  intro Hup. unfold createTransaction, and_then.
  rewrite (select_up _ _ _ Hup).
  destruct (is_empty (filter _ (usersTable s))); [reflexivity|].
  cbv zeta. rewrite (check_items_up _ _ Hup).
  destruct (missing_item s _); [reflexivity|].
  unfold insert_transaction. rewrite Hup.
  unfold insert_transaction_items, lines_fit.
  assert (Efit : forall l,
            forallb (fun '(transaction_id, item_id, quantity) =>
                       fits_integer transaction_id && fits_integer item_id
                       && fits_integer quantity)
                    (map (fun '(item_id, quantity) =>
                            (transactions_id_seq s, item_id, quantity)) l)
            = forallb (fun '(item_id, quantity) =>
                         fits_integer (transactions_id_seq s)
                         && fits_integer item_id && fits_integer quantity) l).
  { induction l as [|[i q] l IH]; [reflexivity|].
    cbn [map forallb]. now rewrite IH. }
  destruct (CreateTransactionInput.items input) as [|[item_id quantity] rest] eqn:E.
  - reflexivity.
  - cbn [Transaction.id]. rewrite Efit.
    cbn [map is_empty]. cbn [with_transactions answers]. rewrite Hup.
    destruct (forallb _ ((item_id, quantity) :: rest)); [|reflexivity].
    unfold done, new_lines, with_new_transaction, new_transaction. rewrite E.
    cbn [with_transactions transactionItemsTable transaction_items_id_seq
         Transaction.id map List.length].
    now rewrite length_map.
Qed.

Lemma createTransaction_down input userId s :
  answers s = false ->
  createTransaction input userId s = Failed StoreFailure s.
Proof.
  intro Hup. unfold createTransaction, and_then.
  now rewrite (select_down _ _ _ Hup).
Qed.


(** On the sample store: a quantity of 2^31 passes the checks, the
    transaction is written, and the store rejects the line. *)
Lemma createTransaction_quantity_out_of_range :
  createTransaction (CreateTransactionInput.mk 900 [(1, 2 ^ 31)]%Z) 2 sample_store
  = Failed StoreFailure
      (with_new_transaction (CreateTransactionInput.mk 900 [(1, 2 ^ 31)]%Z) 2
                            sample_store)
  /\ transactionItemsTable
       (with_new_transaction (CreateTransactionInput.mk 900 [(1, 2 ^ 31)]%Z) 2
                             sample_store)
     = [].
Proof. split; reflexivity. Qed.

(** ** Reading and deleting a transaction *)

Lemma number_rows_spec serial values ti :
  In ti (number_rows serial values) ->
  (serial <= TransactionItem.id ti
   < serial + Z.of_nat (List.length values))%Z
  /\ In (TransactionItem.transaction_id ti, TransactionItem.item_id ti,
         TransactionItem.quantity ti) values.
Proof.
  revert serial. induction values as [|[[t i] q] rest IH]; intro serial;
    [contradiction|].
  cbn [number_rows List.length]. intros [<-|H].
  - cbn [TransactionItem.id TransactionItem.transaction_id
         TransactionItem.item_id TransactionItem.quantity].
    split; [lia|now left].
  - destruct (IH _ H) as [Hid Hin]. split; [lia|now right].
Qed.

Lemma number_rows_fields serial values :
  map (fun ti => (TransactionItem.transaction_id ti, TransactionItem.item_id ti,
                  TransactionItem.quantity ti))
      (number_rows serial values)
  = values.
Proof.
  revert serial. induction values as [|[[t i] q] rest IH]; intro serial;
    [reflexivity|].
  cbn [number_rows map]. now rewrite IH.
Qed.

Lemma new_lines_transaction input s ti :
  In ti (new_lines input s) ->
  TransactionItem.transaction_id ti = transactions_id_seq s.
Proof.
  intro H. apply number_rows_spec in H as [_ H].
  apply in_map_iff in H as [[i q] [E _]]. now injection E.
Qed.

Lemma new_lines_fields input s :
  map (fun ti => (TransactionItem.item_id ti, TransactionItem.quantity ti))
      (new_lines input s)
  = CreateTransactionInput.items input.
Proof.
  unfold new_lines.
  generalize (transaction_items_id_seq s) as serial.
  induction (CreateTransactionInput.items input) as [|[i q] rest IH];
    intro serial; [reflexivity|].
  cbn [map number_rows]. now rewrite IH.
Qed.

(** What a returned [createTransaction] has left. *)
Lemma createTransaction_done input userId s transaction s' :
  createTransaction input userId s = Done transaction s' ->
  answers s = true
  /\ transaction = new_transaction input userId s
  /\ s' = with_transaction_items
            (with_new_transaction input userId s)
            (transactionItemsTable s ++ new_lines input s)
            (transaction_items_id_seq s
             + Z.of_nat (List.length (CreateTransactionInput.items input)))%Z.
Proof.
  destruct (answers s) eqn:Hup.
  2:{ rewrite (createTransaction_down _ _ _ Hup). discriminate. }
  rewrite (createTransaction_up _ _ _ Hup).
  destruct (is_empty (filter _ (usersTable s))); [discriminate|].
  destruct (missing_item s _); [discriminate|].
  destruct (is_empty (CreateTransactionInput.items input)); [discriminate|].
  destruct (lines_fit input s); [|discriminate].
  intro H. injection H as <- <-. auto.
Qed.


Lemma sample_store_ok : keys_ok sample_store /\ references_ok sample_store.
Proof.
  split.
  - repeat split; try (repeat constructor; simpl; intuition discriminate);
      try (intros x [<-|[<-|[]]]; reflexivity); intros x [].
  - intros ti [].
Qed.


(** With different identifiers, a select by identifier finds one row at
    most. *)
Lemma filter_by_key {R : Type} (key : R -> Z) (l : list R) (k : Z) :
  NoDup (map key l) ->
  filter (fun r => (key r =? k)%Z) l = []
  \/ exists r, filter (fun r => (key r =? k)%Z) l = [r]
               /\ In r l /\ key r = k.
Proof.
  induction l as [|x l IH]; intro Hnd; [now left|].
  cbn [map] in Hnd. inversion Hnd as [|? ? Hn Hnd']; subst.
  cbn [filter]. destruct (Z.eqb_spec (key x) k) as [E|E].
  - right. exists x. split; [|split; [now left|exact E]].
    f_equal. apply filter_none. intros y Hy. apply Z.eqb_neq.
    intros E'. apply Hn. rewrite E, <- E'. now apply in_map.
  - destruct (IH Hnd') as [H|(r & H & Hr & Ek)]; [now left|].
    right. exists r. split; [exact H|]. split; [now right|exact Ek].
Qed.


Lemma owns_true s userId id :
  owns s userId id = true <->
  exists t, In t (transactionsTable s)
            /\ Transaction.id t = id /\ Transaction.created_by t = userId.
Proof.
  unfold owns. rewrite existsb_exists. split.
  - intros [t [Ht E]]. apply andb_true_iff in E as [E1 E2].
    apply Z.eqb_eq in E1, E2. now exists t.
  - intros (t & Ht & E1 & E2). exists t. split; [exact Ht|].
    apply andb_true_iff. split; now apply Z.eqb_eq.
Qed.

(** [getTransactionById] while the store answers, with different
    identifiers. *)
Lemma getTransactionById_up id userId s :
  answers s = true -> NoDup (map Transaction.id (transactionsTable s)) ->
  exists answer,
    getTransactionById id userId s = Done answer s
    /\ (owns s userId id = false -> answer = None)
    /\ (owns s userId id = true ->
        exists t, answer = Some t
                  /\ filter (fun t0 => (Transaction.id t0 =? id)%Z)
                            (transactionsTable s) = [t]
                  /\ In t (transactionsTable s)
                  /\ Transaction.id t = id /\ Transaction.created_by t = userId).
Proof.
  intros Hup Hnd. unfold getTransactionById, and_then.
  rewrite (select_up _ _ _ Hup).
  destruct (filter_by_key Transaction.id (transactionsTable s) id Hnd)
    as [E|(t & E & Ht & Ek)]; rewrite E.
  - exists None. split; [reflexivity|]. split; [reflexivity|].
    intro Ho. apply owns_true in Ho as (t & Ht & E1 & E2).
    assert (Hin : In t (filter (fun t0 => (Transaction.id t0 =? id)%Z)
                               (transactionsTable s))).
    { apply filter_In. split; [exact Ht|]. now apply Z.eqb_eq. }
    rewrite E in Hin. contradiction.
  - destruct (Z.eqb_spec (Transaction.created_by t) userId) as [Eu|Eu];
      cbn [negb].
    + exists (Some t). split; [reflexivity|]. split.
      * intro Ho. assert (Ho' : owns s userId id = true)
          by (apply owns_true; now exists t).
        congruence.
      * intros _. exists t. auto.
    + exists None. split; [reflexivity|]. split; [reflexivity|].
      intro Ho. apply owns_true in Ho as (t' & Ht' & E1 & E2).
      assert (Hin : In t' (filter (fun t0 => (Transaction.id t0 =? id)%Z)
                                  (transactionsTable s))).
      { apply filter_In. split; [exact Ht'|]. now apply Z.eqb_eq. }
      rewrite E in Hin. destruct Hin as [<-|[]]. contradiction.
Qed.

(** [deleteTransaction] while the store answers: nothing, or the
    transaction and its lines. *)
Lemma deleteTransaction_effect id userId s :
  answers s = true -> NoDup (map Transaction.id (transactionsTable s)) ->
  deleteTransaction id userId s
  = if owns s userId id
    then Done true
           (with_transactions
              (with_transaction_items s
                 (filter (fun ti => negb (TransactionItem.transaction_id ti =? id)%Z)
                         (transactionItemsTable s))
                 (transaction_items_id_seq s))
              (filter (fun t => negb (Transaction.id t =? id)%Z)
                      (transactionsTable s))
              (transactions_id_seq s))
    else Done false s.
Proof.
  intros Hup Hnd.
  destruct (getTransactionById_up id userId s Hup Hnd)
    as (answer & Hget & Hno & Hyes).
  unfold deleteTransaction, and_then. rewrite Hget.
  destruct (owns s userId id) eqn:Ho.
  - destruct (Hyes eq_refl) as (t & -> & Ef & Ht & Ei & Eu).
    unfold delete_transaction_items, delete_transactions, done.
    rewrite Hup.
    cbn [with_transaction_items answers transactionsTable
         transactionItemsTable transactions_id_seq]. rewrite Hup.
    assert (Eboth : forall l,
              filter (fun t0 => (Transaction.id t0 =? id)%Z
                                && (Transaction.created_by t0 =? userId)%Z) l
              = filter (fun t0 => (Transaction.created_by t0 =? userId)%Z)
                       (filter (fun t0 => (Transaction.id t0 =? id)%Z) l)).
    { intro l. induction l as [|x l IH]; [reflexivity|]. cbn [filter].
      destruct (Transaction.id x =? id)%Z; cbn [andb filter];
        [destruct (Transaction.created_by x =? userId)%Z|]; now rewrite IH. }
    assert (Ecount : filter (fun t0 => (Transaction.id t0 =? id)%Z
                                       && (Transaction.created_by t0 =? userId)%Z)
                            (transactionsTable s) = [t]).
    { rewrite Eboth, Ef. cbn [filter].
      now rewrite (proj2 (Z.eqb_eq _ _) Eu). }
    assert (Erest : filter (fun t0 => negb ((Transaction.id t0 =? id)%Z
                                            && (Transaction.created_by t0 =? userId)%Z))
                           (transactionsTable s)
                    = filter (fun t0 => negb (Transaction.id t0 =? id)%Z)
                             (transactionsTable s)).
    { apply filter_ext_in. intros t0 Ht0.
      destruct (Z.eqb_spec (Transaction.id t0) id) as [E|E]; [|reflexivity].
      cbn [andb]. f_equal.
      assert (Hin : In t0 (filter (fun t1 => (Transaction.id t1 =? id)%Z)
                                  (transactionsTable s))).
      { apply filter_In. split; [exact Ht0|]. now apply Z.eqb_eq. }
      rewrite Ef in Hin. destruct Hin as [<-|[]]. now apply Z.eqb_eq. }
    rewrite Ecount, Erest. reflexivity.
  - now rewrite (Hno eq_refl).
Qed.



(** ** What the handlers keep in order *)

Lemma NoDup_snoc_fresh {R : Type} (key : R -> Z) (l : list R) (r : R) (serial : Z) :
  NoDup (map key l) -> (forall x, In x l -> (key x < serial)%Z) ->
  key r = serial ->
  NoDup (map key (l ++ [r]))
  /\ forall x, In x (l ++ [r]) -> (key x < serial + 1)%Z.
Proof.
  intros Hnd Hlt Hr. split.
  - rewrite map_app. apply NoDup_app; [exact Hnd|repeat constructor; intros []|].
    intros k Hk [<-|[]]. apply in_map_iff in Hk as [x [E Hx]].
    specialize (Hlt x Hx). lia.
  - intros x Hx. apply in_app_or in Hx as [Hx|[<-|[]]]; [|lia].
    specialize (Hlt x Hx). lia.
Qed.

Lemma NoDup_map_filter {R : Type} (key : R -> Z) (p : R -> bool) (l : list R) :
  NoDup (map key l) -> NoDup (map key (filter p l)).
Proof.
  induction l as [|x l IH]; intro H; [constructor|].
  cbn [map] in H. inversion H as [|? ? Hn Hnd]; subst.
  cbn [filter]. destruct (p x); [|exact (IH Hnd)].
  cbn [map]. constructor; [|exact (IH Hnd)].
  intro Hin. apply Hn. apply in_map_iff in Hin as [y [E Hy]].
  apply filter_In in Hy as [Hy _]. rewrite <- E. now apply in_map.
Qed.

Lemma number_rows_keys serial values :
  NoDup (map TransactionItem.id (number_rows serial values)).
Proof.
  revert serial. induction values as [|[[t i] q] rest IH]; intro serial;
    [constructor|].
  cbn [number_rows map TransactionItem.id]. constructor; [|apply IH].
  intro Hin. apply in_map_iff in Hin as [ti [E Hti]].
  apply number_rows_spec in Hti as [Hid _]. lia.
Qed.

Lemma createItem_cases input userId s :
  createItem input userId s
  = if answers s
    then if administrator s userId
         then let row := Item.mk (items_id_seq s) (CreateItemInput.name input)
                           (CreateItemInput.description input)
                           (CreateItemInput.category input)
                           (store_now s) (store_now s) in
              Done row (with_items s (itemsTable s ++ [row])
                                   (items_id_seq s + 1)%Z)
         else Failed OnlyAdminCreates s
    else Failed StoreFailure s.
Proof.
  unfold createItem, and_then, select, administrator, insert_item.
  destruct (answers s) eqn:Hup; [|reflexivity].
  destruct (is_admin _); cbn [negb]; [|reflexivity].
  now rewrite Hup.
Qed.

Lemma getItemById_cases id s :
  getItemById id s
  = if answers s
    then Done (match filter (fun i => (Item.id i =? id)%Z) (itemsTable s) with
               | [] => None
               | item :: _ => Some item
               end) s
    else Failed StoreFailure s.
Proof.
  unfold getItemById, and_then, select. now destruct (answers s).
Qed.

Lemma updateItem_cases input userId s :
  updateItem input userId s
  = if answers s
    then if administrator s userId
         then if nothing_to_update input
              then getItemById (UpdateItemInput.id input) s
              else
                let rows :=
                  map (fun i => if (Item.id i =? UpdateItemInput.id input)%Z
                                then apply_update input
                                       (dates s (dates_read s)) i
                                else i)
                      (itemsTable s) in
                Done (match filter (fun i => (Item.id i
                                              =? UpdateItemInput.id input)%Z)
                                   rows with
                      | [] => None
                      | item :: _ => Some item
                      end)
                     (with_items (after_date_read s) rows (items_id_seq s))
         else Failed OnlyAdminUpdates s
    else Failed StoreFailure s.
Proof.
  unfold updateItem, and_then, select, administrator.
  destruct (answers s) eqn:Hup; [|reflexivity].
  destruct (is_admin _); cbn [negb]; [|reflexivity].
  destruct (nothing_to_update input); [reflexivity|].
  unfold new_date, update_items, after_date_read.
  cbn [answers itemsTable items_id_seq]. rewrite ?Hup. reflexivity.
Qed.

Lemma deleteItem_cases id userId s :
  deleteItem id userId s
  = if answers s
    then if administrator s userId
         then if item_in_use s id
              then Failed ItemIsUsed s
              else Done (0 <? List.length
                                (filter (fun i => (Item.id i =? id)%Z)
                                        (itemsTable s)))
                        (with_items s
                           (filter (fun i => negb (Item.id i =? id)%Z)
                                   (itemsTable s))
                           (items_id_seq s))
         else Failed OnlyAdminDeletes s
    else Failed StoreFailure s.
Proof.
  unfold deleteItem, and_then, select, administrator, item_in_use.
  destruct (answers s) eqn:Hup; [|reflexivity].
  destruct (is_admin _); cbn [negb]; [|reflexivity].
  assert (E : (0 <? List.length
                      (filter (fun ti => (TransactionItem.item_id ti =? id)%Z)
                              (transactionItemsTable s)))
              = existsb (fun ti => (TransactionItem.item_id ti =? id)%Z)
                        (transactionItemsTable s)).
  { induction (transactionItemsTable s) as [|ti l IH]; [reflexivity|].
    cbn [filter existsb].
    destruct (TransactionItem.item_id ti =? id)%Z; [reflexivity|exact IH]. }
  rewrite ?Hup, E. destruct (existsb _ _); [reflexivity|].
  unfold delete_items, done. now rewrite Hup.
Qed.

(** X24: the handlers keep the store in order.  When the identifiers of the
    rows are different and behind their sequences, and every line names a
    transaction and an item that are there, this is still so after
    [createItem], [updateItem], [deleteItem], [createTransaction] and
    [deleteTransaction], whatever they are given and whether they return
    or throw: no handler leaves a line whose transaction or item is
    missing. *)
Theorem handlers_keep_the_store_in_order (s : Store) :
  keys_ok s -> references_ok s ->
  (forall input userId,
      keys_ok (store_after (createItem input userId s))
      /\ references_ok (store_after (createItem input userId s)))
  /\ (forall input userId,
        keys_ok (store_after (updateItem input userId s))
        /\ references_ok (store_after (updateItem input userId s)))
  /\ (forall id userId,
        keys_ok (store_after (deleteItem id userId s))
        /\ references_ok (store_after (deleteItem id userId s)))
  /\ (forall input userId,
        keys_ok (store_after (createTransaction input userId s))
        /\ references_ok (store_after (createTransaction input userId s)))
  /\ (forall id userId,
        keys_ok (store_after (deleteTransaction id userId s))
        /\ references_ok (store_after (deleteTransaction id userId s))).
Proof.
  intros Hk Hr.
  pose proof Hk as (Ki & Li & Kt & Lt & Kl & Ll).
  split; [|split; [|split; [|split]]].
  - (* createItem *)
    intros input userId. rewrite createItem_cases.
    destruct (answers s); [|now split].
    destruct (administrator s userId); [|now split].
    cbv zeta. cbn [store_after].
    destruct (NoDup_snoc_fresh Item.id (itemsTable s)
                (Item.mk (items_id_seq s) (CreateItemInput.name input)
                   (CreateItemInput.description input)
                   (CreateItemInput.category input) (store_now s) (store_now s))
                (items_id_seq s) Ki Li eq_refl) as [N B].
    split.
    + unfold keys_ok. cbn [with_items itemsTable items_id_seq transactionsTable
                           transactions_id_seq transactionItemsTable
                           transaction_items_id_seq]. tauto.
    + intros ti Hti. destruct (Hr ti Hti) as [Ht (i & Hi & Ei)].
      split; [exact Ht|]. exists i. split; [|exact Ei].
      cbn [with_items itemsTable]. apply in_or_app. now left.
  - (* updateItem *)
    intros input userId. rewrite updateItem_cases.
    destruct (answers s) eqn:Hup; [|now split].
    destruct (administrator s userId); [|now split].
    destruct (nothing_to_update input).
    { rewrite getItemById_cases, Hup. now split. }
    cbv zeta. cbn [store_after].
    set (f := fun i => if (Item.id i =? UpdateItemInput.id input)%Z
                       then apply_update input (dates s (dates_read s)) i
                       else i).
    assert (Hid : forall i, Item.id (f i) = Item.id i).
    { intro i. unfold f. now destruct (Item.id i =? UpdateItemInput.id input)%Z. }
    assert (Hmap : map Item.id (map f (itemsTable s)) = map Item.id (itemsTable s)).
    { rewrite map_map. apply map_ext. exact Hid. }
    split.
    + unfold keys_ok. cbn [with_items after_date_read itemsTable items_id_seq
                           transactionsTable transactions_id_seq
                           transactionItemsTable transaction_items_id_seq].
      rewrite Hmap. repeat split; try assumption.
      intros i Hi. apply in_map_iff in Hi as [i0 [<- Hi0]].
      rewrite Hid. now apply Li.
    + intros ti Hti. destruct (Hr ti Hti) as [Ht (i & Hi & Ei)].
      split; [exact Ht|]. exists (f i). split; [|now rewrite Hid].
      cbn [with_items itemsTable]. now apply in_map.
  - (* deleteItem *)
    intros id userId. rewrite deleteItem_cases.
    destruct (answers s); [|now split].
    destruct (administrator s userId); [|now split].
    destruct (item_in_use s id) eqn:Hu; [now split|].
    cbn [store_after]. split.
    + unfold keys_ok. cbn [with_items itemsTable items_id_seq transactionsTable
                           transactions_id_seq transactionItemsTable
                           transaction_items_id_seq].
      repeat split; try assumption.
      * now apply NoDup_map_filter.
      * intros i Hi. apply filter_In in Hi as [Hi _]. now apply Li.
    + intros ti Hti. destruct (Hr ti Hti) as [Ht (i & Hi & Ei)].
      split; [exact Ht|]. exists i. split; [|exact Ei].
      cbn [with_items itemsTable]. apply filter_In. split; [exact Hi|].
      apply negb_true_iff, Z.eqb_neq. intro E.
      unfold item_in_use in Hu.
      assert (Hex : existsb (fun ti => (TransactionItem.item_id ti =? id)%Z)
                            (transactionItemsTable s) = true).
      { apply existsb_exists. exists ti. split; [exact Hti|].
        apply Z.eqb_eq. congruence. }
      congruence.
  - (* createTransaction *)
    intros input userId.
    destruct (answers s) eqn:Hup;
      [|rewrite (createTransaction_down _ _ _ Hup); now split].
    rewrite (createTransaction_up _ _ _ Hup).
    destruct (is_empty (filter _ (usersTable s))); [now split|].
    destruct (missing_item s _) eqn:Em; [now split|].
    destruct (NoDup_snoc_fresh Transaction.id (transactionsTable s)
                (new_transaction input userId s)
                (transactions_id_seq s) Kt Lt eq_refl) as [N B].
    assert (Hr1 : references_ok (with_new_transaction input userId s)).
    { intros ti Hti. destruct (Hr ti Hti) as [(t & Ht & Et) Hi].
      split; [|exact Hi]. exists t. split; [|exact Et].
      cbn [with_new_transaction with_transactions transactionsTable].
      apply in_or_app. now left. }
    assert (Hk1 : keys_ok (with_new_transaction input userId s)).
    { unfold keys_ok.
      cbn [with_new_transaction with_transactions itemsTable items_id_seq
           transactionsTable transactions_id_seq transactionItemsTable
           transaction_items_id_seq]. tauto. }
    destruct (is_empty (CreateTransactionInput.items input));
      cbn [store_after]; [now split|].
    destruct (lines_fit input s); cbn [store_after]; [|now split].
    split.
      * unfold keys_ok.
        cbn [with_transaction_items with_new_transaction with_transactions
             itemsTable items_id_seq transactionsTable transactions_id_seq
             transactionItemsTable transaction_items_id_seq].
        repeat split; try assumption.
        -- rewrite map_app. apply NoDup_app;
             [exact Kl|apply number_rows_keys|].
           intros k Hin Hin'. apply in_map_iff in Hin as [x [E Hx]].
           apply in_map_iff in Hin' as [y [E' Hy]].
           apply number_rows_spec in Hy as [Hy _].
           specialize (Ll x Hx). lia.
        -- intros ti Hti. apply in_app_or in Hti as [Hti|Hti].
           ++ specialize (Ll ti Hti). lia.
           ++ apply number_rows_spec in Hti as [Hid _].
              rewrite length_map in Hid. lia.
      * intros ti Hti.
        cbn [with_transaction_items transactionItemsTable transactionsTable
             itemsTable] in Hti |- *.
        apply in_app_or in Hti as [Hti|Hti].
        -- exact (Hr1 ti Hti).
        -- pose proof (new_lines_transaction _ _ _ Hti) as Et.
           split.
           ++ exists (new_transaction input userId s). split; [|now rewrite Et].
              cbn [with_new_transaction with_transactions transactionsTable].
              apply in_or_app. right. now left.
           ++ apply number_rows_spec in Hti as [_ Hti].
              apply in_map_iff in Hti as [[i q] [E Hin]].
              injection E as _ Ei _.
              destruct (proj1 (missing_item_None _ _) Em i) as (it & Hit & Eit).
              { apply in_map_iff. now exists (i, q). }
              exists it. split; [exact Hit|congruence].
  - (* deleteTransaction *)
    intros id userId.
    destruct (answers s) eqn:Hup.
    2:{ unfold deleteTransaction, getTransactionById, and_then.
        rewrite (select_down _ _ _ Hup). now split. }
    rewrite (deleteTransaction_effect id userId s Hup Kt).
    destruct (owns s userId id); cbn [store_after]; [|now split].
    split.
    + unfold keys_ok.
      cbn [with_transaction_items with_transactions itemsTable items_id_seq
           transactionsTable transactions_id_seq transactionItemsTable
           transaction_items_id_seq].
      repeat split; try assumption.
      * now apply NoDup_map_filter.
      * intros t Ht. apply filter_In in Ht as [Ht _]. now apply Lt.
      * now apply NoDup_map_filter.
      * intros ti Hti. apply filter_In in Hti as [Hti _]. now apply Ll.
    + intros ti Hti.
      cbn [with_transaction_items with_transactions transactionItemsTable
           transactionsTable itemsTable] in Hti |- *.
      apply filter_In in Hti as [Hti Hne].
      destruct (Hr ti Hti) as [(t & Ht & Et) Hi].
      split; [|exact Hi]. exists t. split; [|exact Et].
      apply filter_In. split; [exact Ht|]. now rewrite Et.
Qed.

Lemma handlers_keep_the_store_in_order_witness :
  keys_ok (store_after (createTransaction sample_input 2%Z sample_store))
  /\ references_ok
       (store_after (createTransaction sample_input 2%Z sample_store)).
Proof.
  exact (proj1 (proj2 (proj2 (proj2
           (handlers_keep_the_store_in_order sample_store
              (proj1 sample_store_ok) (proj2 sample_store_ok)))))
           sample_input 2%Z).
Defined.

(** ** The items *)






(** X26: an item that was created can be read.  When [createItem] returns,
    the caller is an administrator, the item has the fields of the input,
    both dates are the store's time, and in the store it leaves
    [getItemById] finds this item under its identifier and, under any
    other identifier, what it found before; [getItems] gives the items
    there were and then the new one. *)
Theorem createItem_then_read
    (input : CreateItemInput.t) (userId : Z) (s s' : Store) (item : Item.t) :
  keys_ok s ->
  createItem input userId s = Done item s' ->
  administrator s userId = true
  /\ Item.name item = CreateItemInput.name input
  /\ Item.description item = CreateItemInput.description input
  /\ Item.category item = CreateItemInput.category input
  /\ Item.created_at item = store_now s
  /\ Item.updated_at item = store_now s
  /\ getItemById (Item.id item) s' = Done (Some item) s'
  /\ (forall id found,
        id <> Item.id item ->
        getItemById id s = Done found s ->
        getItemById id s' = Done found s')
  /\ getItems s' = Done (itemsTable s ++ [item]) s'.
Proof.
  intros (Ki & Li & _) H. rewrite createItem_cases in H.
  destruct (answers s) eqn:Hup; [|discriminate].
  destruct (administrator s userId); [|discriminate].
  cbv zeta in H. injection H as <- <-.
  cbn [Item.name Item.description Item.category Item.created_at
       Item.updated_at Item.id].
  repeat (split; [reflexivity|]).
  split; [|split].
  - rewrite getItemById_cases. cbn [with_items answers itemsTable].
    rewrite Hup, filter_app.
    rewrite (filter_none (fun i => (Item.id i =? items_id_seq s)%Z)).
    + cbn [filter app Item.id]. now rewrite Z.eqb_refl.
    + intros i Hi. apply Z.eqb_neq. specialize (Li i Hi). lia.
  - intros id found Hne. rewrite !getItemById_cases.
    cbn [with_items answers itemsTable]. rewrite Hup, filter_app.
    cbn [filter Item.id].
    destruct (Z.eqb_spec (items_id_seq s) id) as [E|_]; [congruence|].
    rewrite app_nil_r. intro E. now injection E as ->.
  - unfold getItems, select. cbn [with_items answers itemsTable].
    rewrite Hup. now rewrite filter_all by reflexivity.
Qed.

Lemma createItem_then_read_witness :
  match createItem (CreateItemInput.mk "Eggs" None None) 1%Z sample_store with
  | Done item s' => getItemById (Item.id item) s' = Done (Some item) s'
  | Failed _ _ => False
  end.
Proof.
  assert (E : createItem (CreateItemInput.mk "Eggs" None None) 1%Z sample_store
              = createItem (CreateItemInput.mk "Eggs" None None) 1%Z
                           sample_store) by reflexivity.
  revert E.
  generalize (createItem (CreateItemInput.mk "Eggs" None None) 1%Z sample_store)
    at 2 3.
  intros [item s'|e s'] E; [|discriminate E].
  exact (proj1 (proj2 (proj2 (proj2 (proj2 (proj2 (proj2
           (createItem_then_read _ _ _ _ _ (proj1 sample_store_ok) E)))))))).
Defined.





(** ** From the entry of a transaction to the baskets *)

Lemma joined_In (s : Store) (r : JoinedRow) :
  In r (joined s) <->
  exists t ti i,
    In t (transactionsTable s) /\ In ti (transactionItemsTable s)
    /\ In i (itemsTable s)
    /\ TransactionItem.transaction_id ti = Transaction.id t
    /\ Item.id i = TransactionItem.item_id ti
    /\ r = mkJoinedRow (Transaction.id t) (Item.name i)
                       (TransactionItem.quantity ti).
Proof.
  unfold joined. split.
  - intro H. apply in_flat_map in H as (t & Ht & H).
    apply in_flat_map in H as (ti & Hti & H).
    destruct (Z.eqb_spec (TransactionItem.transaction_id ti) (Transaction.id t))
      as [Et|_]; [|contradiction].
    apply in_flat_map in H as (i & Hi & H).
    destruct (Z.eqb_spec (Item.id i) (TransactionItem.item_id ti))
      as [Ei|_]; [|contradiction].
    destruct H as [<-|[]]. exists t, ti, i. auto 10.
  - intros (t & ti & i & Ht & Hti & Hi & Et & Ei & ->).
    apply in_flat_map. exists t. split; [exact Ht|].
    apply in_flat_map. exists ti. split; [exact Hti|].
    rewrite (proj2 (Z.eqb_eq _ _) Et).
    apply in_flat_map. exists i. split; [exact Hi|].
    rewrite (proj2 (Z.eqb_eq _ _) Ei). now left.
Qed.

Lemma getTransactionData_up (w : World) :
  db_up w = true ->
  getTransactionData w
  = Returned (map (fun '(tid, items) => (tid, dedupe [] items))
                  (group_rows (joined_rows w))) w.
Proof.
  intro Hup. unfold getTransactionData, bind, select_joined, ret.
  now rewrite Hup.
Qed.

(** What a returned [createTransaction] has checked. *)
Lemma createTransaction_done_checked input userId s transaction s' :
  createTransaction input userId s = Done transaction s' ->
  CreateTransactionInput.items input <> []
  /\ forall item_id quantity,
       In (item_id, quantity) (CreateTransactionInput.items input) ->
       exists i, In i (itemsTable s) /\ Item.id i = item_id.
Proof.
  destruct (answers s) eqn:Hup.
  2:{ rewrite (createTransaction_down _ _ _ Hup). discriminate. }
  rewrite (createTransaction_up _ _ _ Hup).
  destruct (is_empty (filter _ (usersTable s))); [discriminate|].
  destruct (missing_item s _) eqn:Em; [discriminate|].
  destruct (CreateTransactionInput.items input) as [|line rest] eqn:E;
    [discriminate|].
  cbn [is_empty]. destruct (lines_fit input s); [|discriminate].
  intros _. split; [discriminate|].
  intros item_id quantity Hin.
  apply (proj1 (missing_item_None _ _) Em).
  apply in_map_iff. now exists (item_id, quantity).
Qed.

(** The joined rows of a transaction that has just been entered. *)
Lemma joined_new_transaction input userId s transaction s' r :
  keys_ok s -> references_ok s ->
  createTransaction input userId s = Done transaction s' ->
  (In r (joined s') /\ transaction_id r = Transaction.id transaction)
  <-> exists item_id amount i,
        In (item_id, amount) (CreateTransactionInput.items input)
        /\ In i (itemsTable s) /\ Item.id i = item_id
        /\ r = mkJoinedRow (Transaction.id transaction) (Item.name i) amount.
Proof.
  intros (_ & _ & _ & Lt & _) Hr H.
  destruct (createTransaction_done _ _ _ _ _ H) as (Hup & -> & ->).
  rewrite joined_In.
  cbn [with_transaction_items with_new_transaction with_transactions
       transactionsTable transactionItemsTable itemsTable].
  unfold new_transaction at 2 3. cbn [Transaction.id].
  split.
  - intros [(t & ti & i & Ht & Hti & Hi & Et & Ei & ->) Eid].
    cbn [transaction_id] in Eid.
    apply in_app_or in Hti as [Hti|Hti].
    + exfalso. destruct (Hr ti Hti) as [(t0 & Ht0 & Et0) _].
      specialize (Lt t0 Ht0). lia.
    + exists (TransactionItem.item_id ti), (TransactionItem.quantity ti), i.
      split; [|split; [exact Hi|split; [exact Ei|now rewrite Eid]]].
      rewrite <- (new_lines_fields input s).
      apply in_map_iff. now exists ti.
  - intros (item_id & amount & i & Hin & Hi & Ei & ->).
    cbn [transaction_id]. split; [|reflexivity].
    rewrite <- (new_lines_fields input s) in Hin.
    apply in_map_iff in Hin as (ti & E & Hti). injection E as Eti Eq.
    exists (new_transaction input userId s), ti, i.
    split; [apply in_or_app; right; now left|].
    split; [apply in_or_app; now right|].
    split; [exact Hi|].
    split; [exact (new_lines_transaction _ _ _ Hti)|].
    split; [congruence|].
    cbn [new_transaction Transaction.id]. now rewrite Eq.
Qed.

(** X29: a transaction that has been entered is mined as a basket.  Let
    [createTransaction] have returned in a store whose identifiers are in
    order and whose lines refer to transactions that are there, and let the
    database of the mining handlers hold the rows of the join of the three
    tables of the store it left, in any order.  Then [getTransactionData]
    returns a basket for the new transaction; the basket has no name twice
    and holds exactly the names of the items that the input lists with a
    quantity above 0 (a line with quantity 0 or less adds nothing, and
    the quantities themselves are forgotten). *)
Theorem created_transaction_is_mined
    (input : CreateTransactionInput.t) (userId : Z) (s s' : Store)
    (transaction : Transaction.t) (w : World) :
  keys_ok s -> references_ok s ->
  createTransaction input userId s = Done transaction s' ->
  db_up w = true ->
  (forall r, In r (joined_rows w) <-> In r (joined s')) ->
  exists data items,
    getTransactionData w = Returned data w
    /\ In (Transaction.id transaction, items) data
    /\ NoDup items
    /\ forall x,
         In x items
         <-> exists item_id amount i,
               In (item_id, amount) (CreateTransactionInput.items input)
               /\ (0 < amount)%Z
               /\ In i (itemsTable s) /\ Item.id i = item_id
               /\ Item.name i = x.
Proof.
  intros Hk Hr H Hup Hrows.
  pose proof (fun r => joined_new_transaction input userId s transaction s' r
                         Hk Hr H) as J.
  destruct (createTransaction_done_checked _ _ _ _ _ H) as [Hne Hthere].
  destruct (group_rows_spec (joined_rows w)) as (N & K & M).
  cbv zeta in N, K, M.
  assert (Hkey : In (Transaction.id transaction)
                    (map fst (group_rows (joined_rows w)))).
  { apply K.
    destruct (CreateTransactionInput.items input) as [|[item_id amount] rest]
      eqn:E; [congruence|].
    destruct (Hthere item_id amount (or_introl eq_refl)) as (i & Hi & Ei).
    destruct (proj2 (J (mkJoinedRow (Transaction.id transaction) (Item.name i)
                                    amount))) as [Hin Eid].
    { exists item_id, amount, i. rewrite ?E. split; [now left|auto]. }
    eexists. split; [apply Hrows; exact Hin|exact Eid]. }
  apply in_map_iff in Hkey as ([tid items0] & Etid & Hin0).
  cbn [fst] in Etid. subst tid.
  exists (map (fun '(tid, items) => (tid, dedupe [] items))
              (group_rows (joined_rows w))), (dedupe [] items0).
  split; [exact (getTransactionData_up w Hup)|].
  split; [|split].
  - apply in_map_iff. now exists (Transaction.id transaction, items0).
  - apply dedupe_spec.
  - intro x. rewrite dedupe_In, (M _ _ x Hin0). split.
    + intros [(r & Hin & Eid & Ename & Hq) _].
      apply Hrows in Hin.
      destruct (proj1 (J r) (conj Hin Eid))
        as (item_id & amount & i & Hi1 & Hi2 & Hi3 & ->).
      cbn [item_name quantity] in Ename, Hq.
      exists item_id, amount, i. auto 10.
    + intros (item_id & amount & i & Hi1 & Hq & Hi2 & Hi3 & Ename).
      split; [|intros []].
      destruct (proj2 (J (mkJoinedRow (Transaction.id transaction)
                                      (Item.name i) amount))) as [Hin Eid].
      { exists item_id, amount, i. auto. }
      eexists. split; [apply Hrows; exact Hin|].
      cbn [transaction_id item_name quantity]. auto.
Qed.

Lemma created_transaction_is_mined_witness :
  exists data items,
    getTransactionData sample_world_after = Returned data sample_world_after
    /\ In (1%Z, items) data
    /\ NoDup items.
Proof.
  assert (E : createTransaction sample_input 2 sample_store
              = sample_store_after) by (vm_compute; reflexivity).
  unfold sample_store_after in E.
  destruct (created_transaction_is_mined _ _ _ _ _ sample_world_after
              (proj1 sample_store_ok) (proj2 sample_store_ok) E eq_refl
              (fun r => conj (fun Hin => Hin) (fun Hin => Hin)))
    as (data & items & H1 & H2 & H3 & _).
  exists data, items. auto.
Defined.
